(** * MultSigVault (v3, gas-optimised): a shallow embedding and its properties

    The contract [contracts/src/vault/MultSigVault.ts] keeps every vault in
    the host's flat key-value store.  Keys are 32-byte arrays built by
    [fieldKey] and [idxKey]; values are 32-byte words.  The embedding below
    follows the contract method by method:

    - a 32-byte key is a [list Z] of bytes, built by index writes exactly as
      the source does;
    - a 32-byte value is the 256-bit number it encodes big-endian (the
      conversions [toUint8Array(true)] / [fromUint8ArrayBE] are inverse to
      each other, and an [Address] is a 32-byte word as well);
    - a method is a function from the storage to a [run]: it finishes, throws
      a [Revert], or suspends at an external call of the asset contract with
      the storage as it is at that moment. *)

From Stdlib Require Import ZArith Lia List String.
From stdpp Require Import base gmap list.

Local Open Scope string_scope.
Local Open Scope list_scope.
Local Open Scope Z_scope.

(** ** Machine integers *)

Definition u8 (z : Z) : Z := z mod 2 ^ 8.
Definition u32 (z : Z) : Z := z mod 2 ^ 32.
Definition MAX_U256 : Z := 2 ^ 256 - 1.

(** [u256.lo1] is the least significant 64-bit limb. *)
Definition lo1 (z : Z) : Z := z mod 2 ^ 64.

Definition is_u8 (z : Z) : Prop := 0 <= z < 2 ^ 8.
Definition is_u16 (z : Z) : Prop := 0 <= z < 2 ^ 16.
Definition is_u32 (z : Z) : Prop := 0 <= z < 2 ^ 32.
Definition is_u256 (z : Z) : Prop := 0 <= z < 2 ^ 256.

(** The 32 low bits of a vault id: what [u32(vaultId.lo1)] keeps. *)
Definition id32 (vaultId : Z) : Z := u32 (lo1 vaultId).

(** ** Storage keys *)

Definition MAX_OWNERS : Z := 10.
Definition ONE : Z := 1.
Definition ZERO : Z := 0.

(** [new Uint8Array(n)]: n zero bytes. *)
Definition new_Uint8Array (n : nat) : list Z := replicate n 0.

Definition EMPTY_SUB : list Z := new_Uint8Array 30.

(** Key for a vault field: [ptr(2)] + [zeros(26)] + [vaultId_lo32(4)]. *)
Definition fieldKey (ptr vaultId : Z) : list Z :=
  let k := new_Uint8Array 32 in
  let k := <[0%nat := u8 (Z.land (Z.shiftr ptr 8) 255)]> k in
  let k := <[1%nat := u8 (Z.land ptr 255)]> k in
  let id := u32 (lo1 vaultId) in
  let k := <[28%nat := u8 (Z.land (Z.shiftr id 24) 255)]> k in
  let k := <[29%nat := u8 (Z.land (Z.shiftr id 16) 255)]> k in
  let k := <[30%nat := u8 (Z.land (Z.shiftr id 8) 255)]> k in
  let k := <[31%nat := u8 (Z.land id 255)]> k in
  k.

(** Key for an indexed slot:
    [ptr(2)] + [zeros(25)] + [vaultId_lo32(4)] + [idx(1)]. *)
Definition idxKey (ptr vaultId idx : Z) : list Z :=
  let k := new_Uint8Array 32 in
  let k := <[0%nat := u8 (Z.land (Z.shiftr ptr 8) 255)]> k in
  let k := <[1%nat := u8 (Z.land ptr 255)]> k in
  let id := u32 (lo1 vaultId) in
  let k := <[27%nat := u8 (Z.land (Z.shiftr id 24) 255)]> k in
  let k := <[28%nat := u8 (Z.land (Z.shiftr id 16) 255)]> k in
  let k := <[29%nat := u8 (Z.land (Z.shiftr id 8) 255)]> k in
  let k := <[30%nat := u8 (Z.land id 255)]> k in
  let k := <[31%nat := idx]> k in
  k.

(** The runtime's [encodePointer(ptr, sub)], which [StoredU256] uses for its
    key: the two pointer bytes followed by the 30-byte sub-pointer, the
    format the source comment on the key helpers describes ("direct
    concatenation"). *)
Definition encodePointer (ptr : Z) (sub : list Z) : list Z :=
  u8 (Z.land (Z.shiftr ptr 8) 255) :: u8 (Z.land ptr 255) :: sub.

(** ** Storage pointers

    [Blockchain.nextPointer] hands out consecutive 16-bit tags, starting at
    1, in the order the contract's fields are initialised. *)

Definition pVaultCount : Z := 1.
Definition pThreshold : Z := 2.
Definition pOwnerCount : Z := 3.
Definition pToken : Z := 4.
Definition pBalance : Z := 5.
Definition pTotalProposals : Z := 6.
Definition pHasProposal : Z := 7.
Definition pOwner : Z := 8.
Definition pPropTo : Z := 9.
Definition pPropAmount : Z := 10.
Definition pPropApprovals : Z := 11.
Definition pApproval : Z := 12.

(** Key of the global [_vaultCount: StoredU256(nextPointer, EMPTY_SUB)]. *)
Definition vaultCountKey : list Z := encodePointer pVaultCount EMPTY_SUB.

(** ** The host's key-value store

    Keys and values are 32 bytes; an absent key reads as 32 zero bytes. *)

Abbreviation storage := (gmap (list Z) Z).

Definition getStorageAt (key : list Z) (s : storage) : Z := default 0 (s !! key).
Definition setStorageAt (key : list Z) (val : Z) (s : storage) : storage :=
  <[key := val]> s.

(** Raw storage read/write of a [u256] ([su]/[lu]) and of an [Address]
    ([sa]/[la]). *)
Definition su (key : list Z) (val : Z) (s : storage) : storage := setStorageAt key val s.
Definition lu (key : list Z) (s : storage) : Z := getStorageAt key s.
Definition sa (key : list Z) (addr : Z) (s : storage) : storage := setStorageAt key addr s.
Definition la (key : list Z) (s : storage) : Z := getStorageAt key s.

(** ** Runs of a method

    The only interaction with the outside world is a call of the asset
    contract through [TransferHelper]. *)

Inductive ExtCall : Type :=
| ExtTransferFrom (token from to amount : Z)
| ExtTransfer (token to amount : Z).

Inductive run (A : Type) : Type :=
| Done (a : A) (s : storage)
| Revert (msg : string) (s : storage)
| External (c : ExtCall) (s : storage) (k : storage -> run A).

Arguments Done {A} a s.
Arguments Revert {A} msg s.
Arguments External {A} c s k.

Definition M (A : Type) : Type := storage -> run A.

Fixpoint run_bind {A B : Type} (r : run A) (f : A -> storage -> run B) : run B :=
  match r with
  | Done a s => f a s
  | Revert msg s => Revert msg s
  | External c s k => External c s (fun s' => run_bind (k s') f)
  end.

Definition ret {A : Type} (a : A) : M A := fun s => Done a s.
Definition bind {A B : Type} (m : M A) (f : A -> M B) : M B :=
  fun s => run_bind (m s) f.
Definition throw {A : Type} (msg : string) : M A := fun s => Revert msg s.
Definition load (key : list Z) : M Z := fun s => Done (lu key s) s.
Definition store (key : list Z) (val : Z) : M unit := fun s => Done tt (su key val s).
Definition loadAddress (key : list Z) : M Z := fun s => Done (la key s) s.
Definition storeAddress (key : list Z) (addr : Z) : M unit :=
  fun s => Done tt (sa key addr s).
Definition external (c : ExtCall) : M unit :=
  fun s => External c s (fun s' => Done tt s').

Declare Scope vault_scope.
Delimit Scope vault_scope with vault.
Notation "'let*' x ':=' m 'in' k" := (bind m (fun x => k))
  (at level 10, x name, m at level 100, k at level 200) : vault_scope.
Notation "m '>>>' k" := (bind m (fun _ => k))
  (at level 90, right associativity) : vault_scope.
Local Open Scope vault_scope.

(** ** The runtime's checked arithmetic

    [SafeMath.add] and [SafeMath.sub] of the runtime library: 256-bit
    addition and subtraction that throw a [Revert] instead of wrapping
    around. *)

Definition SafeMath_add (a b : Z) : M Z :=
  let c := (a + b) mod 2 ^ 256 in
  if c <? a then throw "SafeMath: addition overflow" else ret c.

Definition SafeMath_sub (a b : Z) : M Z :=
  if a <? b then throw "SafeMath: subtraction underflow"
  else ret ((a - b) mod 2 ^ 256).

Definition fromU32 (x : Z) : Z := x.

(** ** The contract *)

(** [Blockchain.tx.sender] and [Blockchain.contractAddress]. *)
Record Tx : Type := { sender : Z; contractAddress : Z }.

Definition vaultCount_value : M Z := load vaultCountKey.
Definition vaultCount_set (v : Z) : M unit := store vaultCountKey v.

Definition getOwnerCount (vaultId : Z) (s : storage) : Z :=
  u8 (Z.land (lo1 (lu (fieldKey pOwnerCount vaultId) s)) 255).

(** The scan of [requireOwnerIdx]: [n] slots left, starting at slot [i]. *)
Fixpoint scanOwners (vaultId who : Z) (n : nat) (i : Z) (s : storage) : option Z :=
  match n with
  | O => None
  | S n' =>
      if la (idxKey pOwner vaultId i) s =? who then Some i
      else scanOwners vaultId who n' (i + 1) s
  end.

Definition requireOwnerIdx (tx : Tx) (vaultId : Z) : M Z := fun s =>
  let count := getOwnerCount vaultId s in
  match scanOwners vaultId (sender tx) (Z.to_nat count) 0 s with
  | Some i => Done i s
  | None => Revert "not an owner" s
  end.

Definition requireVault (vaultId : Z) : M unit :=
  let* count := vaultCount_value in
  if vaultId >=? count then throw "vault not found" else ret tt.

(** The flag loop of [clearProposal]: [n] slots left, starting at slot [i]. *)
Fixpoint clearFlags (vaultId : Z) (n : nat) (i : Z) (s : storage) : storage :=
  match n with
  | O => s
  | S n' => clearFlags vaultId n' (i + 1) (su (idxKey pApproval vaultId i) ZERO s)
  end.

Definition clearProposal (vaultId : Z) : M unit :=
  store (fieldKey pPropTo vaultId) 0 >>>
  store (fieldKey pPropAmount vaultId) ZERO >>>
  store (fieldKey pPropApprovals vaultId) ZERO >>>
  (fun s => Done tt (clearFlags vaultId (Z.to_nat (getOwnerCount vaultId s)) 0 s)) >>>
  store (fieldKey pHasProposal vaultId) ZERO.

(** The owner loop of [createVault]: [n] owners left to read from the
    calldata, the next one goes to slot [i]; [owners] are those read so far. *)
Fixpoint readOwners (vaultId : Z) (calldata : list Z) (n : nat) (i : Z)
    (owners : list Z) {struct n} : M unit :=
  match n with
  | O => ret tt
  | S n' =>
      match calldata with
      | [] => throw "calldata: read beyond buffer"
      | owner :: rest =>
          if owner =? 0 then throw "zero address"
          else if existsb (fun o => o =? owner) owners then throw "duplicate owner"
          else
            storeAddress (idxKey pOwner vaultId i) owner >>>
            readOwners vaultId rest n' (i + 1) (owners ++ [owner])
      end
  end.

Definition createVault (token ownerCount : Z) (owners : list Z) (threshold : Z) : M Z :=
  if ownerCount <? 2 then throw "min 2 owners"
  else if ownerCount >? MAX_OWNERS then throw "max 10 owners"
  else
    let* vaultId := vaultCount_value in
    readOwners vaultId owners (Z.to_nat ownerCount) 0 [] >>>
    if threshold <? 2 then throw "min threshold 2"
    else if threshold >? ownerCount then throw "threshold > owners"
    else
      store (fieldKey pThreshold vaultId) (fromU32 (u32 threshold)) >>>
      store (fieldKey pOwnerCount vaultId) (fromU32 (u32 ownerCount)) >>>
      storeAddress (fieldKey pToken vaultId) token >>>
      let* next := SafeMath_add vaultId ONE in
      vaultCount_set next >>>
      ret vaultId.

Definition deposit (tx : Tx) (vaultId amount : Z) : M bool :=
  requireVault vaultId >>>
  if amount =? ZERO then throw "amount is zero"
  else
    let* token := loadAddress (fieldKey pToken vaultId) in
    external (ExtTransferFrom token (sender tx) (contractAddress tx) amount) >>>
    let balKey := fieldKey pBalance vaultId in
    let* bal := load balKey in
    let* sum := SafeMath_add bal amount in
    store balKey sum >>>
    ret true.

Definition propose (tx : Tx) (vaultId to amount : Z) : M bool :=
  requireVault vaultId >>>
  let* senderIdx := requireOwnerIdx tx vaultId in
  if amount =? ZERO then throw "amount is zero"
  else if to =? 0 then throw "zero recipient"
  else
    let* bal := load (fieldKey pBalance vaultId) in
    if amount >? bal then throw "insufficient balance"
    else
      let hasPropKey := fieldKey pHasProposal vaultId in
      let* hasProp := load hasPropKey in
      (if negb (hasProp =? ZERO) then clearProposal vaultId else ret tt) >>>
      storeAddress (fieldKey pPropTo vaultId) to >>>
      store (fieldKey pPropAmount vaultId) amount >>>
      store (fieldKey pPropApprovals vaultId) ONE >>>
      store (idxKey pApproval vaultId senderIdx) ONE >>>
      store hasPropKey ONE >>>
      let totalKey := fieldKey pTotalProposals vaultId in
      let* total := load totalKey in
      let* next := SafeMath_add total ONE in
      store totalKey next >>>
      ret true.

Definition approve (tx : Tx) (vaultId : Z) : M bool :=
  requireVault vaultId >>>
  let* senderIdx := requireOwnerIdx tx vaultId in
  let* hasProp := load (fieldKey pHasProposal vaultId) in
  if hasProp =? ZERO then throw "no active proposal"
  else
    let apKey := idxKey pApproval vaultId senderIdx in
    let* already := load apKey in
    if negb (already =? ZERO) then throw "already approved"
    else
      store apKey ONE >>>
      let curKey := fieldKey pPropApprovals vaultId in
      let* cur := load curKey in
      let* next := SafeMath_add cur ONE in
      store curKey next >>>
      ret true.

Definition executeProposal (vaultId : Z) : M bool :=
  requireVault vaultId >>>
  let* hasProp := load (fieldKey pHasProposal vaultId) in
  if hasProp =? ZERO then throw "no active proposal"
  else
    let* approvals := load (fieldKey pPropApprovals vaultId) in
    let* threshold := load (fieldKey pThreshold vaultId) in
    if approvals <? threshold then throw "threshold not met"
    else
      let* amount := load (fieldKey pPropAmount vaultId) in
      let* to := loadAddress (fieldKey pPropTo vaultId) in
      let* token := loadAddress (fieldKey pToken vaultId) in
      let balKey := fieldKey pBalance vaultId in
      let* bal := load balKey in
      let* rest := SafeMath_sub bal amount in
      store balKey rest >>>
      clearProposal vaultId >>>
      external (ExtTransfer token to amount) >>>
      ret true.

(** *** View methods *)

Definition getVaultCount : M Z := vaultCount_value.

Record VaultInfo : Type := {
  vi_threshold : Z;
  vi_ownerCount : Z;
  vi_token : Z;
  vi_balance : Z;
  vi_totalProposals : Z;
  vi_hasProposal : Z;
  vi_owners : list Z
}.

(** The owner loop of [getVaultInfo]. *)
Fixpoint collectOwners (vaultId : Z) (n : nat) (i : Z) (s : storage) : list Z :=
  match n with
  | O => []
  | S n' => la (idxKey pOwner vaultId i) s :: collectOwners vaultId n' (i + 1) s
  end.

Definition getVaultInfo (vaultId : Z) : M VaultInfo :=
  requireVault vaultId >>>
  let* threshold := load (fieldKey pThreshold vaultId) in
  let* ownerCount := load (fieldKey pOwnerCount vaultId) in
  let* token := loadAddress (fieldKey pToken vaultId) in
  let* balance := load (fieldKey pBalance vaultId) in
  let* totalProposals := load (fieldKey pTotalProposals vaultId) in
  let* hasProposal := load (fieldKey pHasProposal vaultId) in
  let countU8 := u8 (Z.land (lo1 ownerCount) 255) in
  fun s =>
    Done {| vi_threshold := threshold; vi_ownerCount := ownerCount;
            vi_token := token; vi_balance := balance;
            vi_totalProposals := totalProposals; vi_hasProposal := hasProposal;
            vi_owners := collectOwners vaultId (Z.to_nat countU8) 0 s |} s.

Definition getProposal (vaultId : Z) : M (Z * Z * Z) :=
  requireVault vaultId >>>
  let* hasProp := load (fieldKey pHasProposal vaultId) in
  if hasProp =? ZERO then throw "no active proposal"
  else
    let* to := loadAddress (fieldKey pPropTo vaultId) in
    let* amount := load (fieldKey pPropAmount vaultId) in
    let* approvals := load (fieldKey pPropApprovals vaultId) in
    ret (to, amount, approvals).

Definition checkOwner (vaultId addr : Z) : M bool :=
  requireVault vaultId >>>
  fun s =>
    let count := getOwnerCount vaultId s in
    Done (bool_decide (is_Some (scanOwners vaultId addr (Z.to_nat count) 0 s))) s.

(** ** The host: external calls, commit and rollback

    A run is driven to its end by answering every external call: the asset
    contract accepts it ([ext c = true]) or fails, and a failed call aborts
    the run like any other [Revert] ([TransferHelper] throws).  Calls are
    serialised by the host, so the asset contract does not touch this
    contract's storage while a call is suspended. *)

Inductive outcome (A : Type) : Type :=
| Success (a : A) (s : storage)
| Failure (msg : string) (s : storage).

Arguments Success {A} a s.
Arguments Failure {A} msg s.

Fixpoint host {A : Type} (ext : ExtCall -> bool) (r : run A) : outcome A :=
  match r with
  | Done a s => Success a s
  | Revert msg s => Failure msg s
  | External c s k =>
      if ext c then host ext (k s) else Failure "TransferHelper: call failed" s
  end.

(** A failed call leaves no trace: the storage is rolled back. *)
Definition commit {A : Type} (before : storage) (o : outcome A) : storage :=
  match o with
  | Success _ s => s
  | Failure _ _ => before
  end.

(** The five mutating entry points with their decoded calldata. *)
Inductive Call : Type :=
| CreateVault (token ownerCount : Z) (owners : list Z) (threshold : Z)
| Deposit (vaultId amount : Z)
| Propose (vaultId to amount : Z)
| Approve (vaultId : Z)
| ExecuteProposal (vaultId : Z).

Definition transact (ext : ExtCall -> bool) (tx : Tx) (c : Call) (s : storage) : storage :=
  match c with
  | CreateVault token ownerCount owners threshold =>
      commit s (host ext (createVault token ownerCount owners threshold s))
  | Deposit vaultId amount => commit s (host ext (deposit tx vaultId amount s))
  | Propose vaultId to amount => commit s (host ext (propose tx vaultId to amount s))
  | Approve vaultId => commit s (host ext (approve tx vaultId s))
  | ExecuteProposal vaultId => commit s (host ext (executeProposal vaultId s))
  end.

(** Calldata is typed: 256-bit ids, amounts and addresses, 8-bit counts. *)
Definition wf_call (tx : Tx) (c : Call) : Prop :=
  is_u256 (sender tx) /\ is_u256 (contractAddress tx) /\
  match c with
  | CreateVault token ownerCount owners threshold =>
      is_u256 token /\ is_u8 ownerCount /\ Forall is_u256 owners /\ is_u8 threshold
  | Deposit vaultId amount => is_u256 vaultId /\ is_u256 amount
  | Propose vaultId to amount => is_u256 vaultId /\ is_u256 to /\ is_u256 amount
  | Approve vaultId => is_u256 vaultId
  | ExecuteProposal vaultId => is_u256 vaultId
  end.

(** The states of a deployed contract: the empty storage, and whatever a
    sequence of calls makes of it. *)
Inductive reachable : storage -> Prop :=
| reachable_deploy : reachable ∅
| reachable_call (s : storage) (ext : ExtCall -> bool) (tx : Tx) (c : Call) :
    reachable s -> wf_call tx c -> reachable (transact ext tx c s).

Fixpoint transact_all (ext : ExtCall -> bool) (calls : list (Tx * Call)) (s : storage)
    : storage :=
  match calls with
  | [] => s
  | (tx, c) :: rest => transact_all ext rest (transact ext tx c s)
  end.

(** ** Error kinds of the specification and the messages that carry them *)

Inductive VaultError : Type :=
| VaultNotFound | InvalidOwnerCount | ZeroAddressOwner | DuplicateOwner
| InvalidThreshold | NotAnOwner | ZeroAmount | ZeroRecipient
| InsufficientBalance | NoActiveProposal | AlreadyApproved | ThresholdNotMet.

Definition error_kind (msg : string) : option VaultError :=
  if String.eqb msg "vault not found" then Some VaultNotFound
  else if String.eqb msg "min 2 owners" then Some InvalidOwnerCount
  else if String.eqb msg "max 10 owners" then Some InvalidOwnerCount
  else if String.eqb msg "zero address" then Some ZeroAddressOwner
  else if String.eqb msg "duplicate owner" then Some DuplicateOwner
  else if String.eqb msg "min threshold 2" then Some InvalidThreshold
  else if String.eqb msg "threshold > owners" then Some InvalidThreshold
  else if String.eqb msg "not an owner" then Some NotAnOwner
  else if String.eqb msg "amount is zero" then Some ZeroAmount
  else if String.eqb msg "zero recipient" then Some ZeroRecipient
  else if String.eqb msg "insufficient balance" then Some InsufficientBalance
  else if String.eqb msg "no active proposal" then Some NoActiveProposal
  else if String.eqb msg "already approved" then Some AlreadyApproved
  else if String.eqb msg "threshold not met" then Some ThresholdNotMet
  else None.

(** A run that fails with the given error kind, at the given storage. *)
Definition fails_with {A : Type} (r : run A) (e : VaultError) (s : storage) : Prop :=
  exists msg, r = Revert msg s /\ error_kind msg = Some e.

(** ** Reading a vault out of the storage *)

Definition vaultCount (s : storage) : Z := lu vaultCountKey s.
Definition threshold_of (s : storage) (v : Z) : Z := lu (fieldKey pThreshold v) s.
Definition ownerCount_of (s : storage) (v : Z) : Z := lu (fieldKey pOwnerCount v) s.
Definition token_of (s : storage) (v : Z) : Z := la (fieldKey pToken v) s.
Definition balance_of (s : storage) (v : Z) : Z := lu (fieldKey pBalance v) s.
Definition totalProposals_of (s : storage) (v : Z) : Z := lu (fieldKey pTotalProposals v) s.
Definition hasProposal_of (s : storage) (v : Z) : Z := lu (fieldKey pHasProposal v) s.
Definition propTo_of (s : storage) (v : Z) : Z := la (fieldKey pPropTo v) s.
Definition propAmount_of (s : storage) (v : Z) : Z := lu (fieldKey pPropAmount v) s.
Definition approvals_of (s : storage) (v : Z) : Z := lu (fieldKey pPropApprovals v) s.
Definition owner_at (s : storage) (v i : Z) : Z := la (idxKey pOwner v i) s.
Definition flag_at (s : storage) (v i : Z) : Z := lu (idxKey pApproval v i) s.

(** Number of slots among [i, i + n) whose approval flag is set. *)
Fixpoint countFlags (s : storage) (v : Z) (n : nat) (i : Z) : Z :=
  match n with
  | O => 0
  | S n' => (if flag_at s v i =? 0 then 0 else 1) + countFlags s v n' (i + 1)
  end.

(** Number of owners of vault [v] whose approval flag is set. *)
Definition approvalCount (s : storage) (v : Z) : Z :=
  countFlags s v (Z.to_nat (getOwnerCount v s)) 0.

(** ** The slots the contract addresses

    The global counter, the nine per-vault fields and the two per-vault
    arrays; every tag is used in one shape only. *)

Inductive Slot : Type :=
| CounterSlot
| FieldSlot (p v : Z)
| IndexSlot (p v i : Z).

Definition slotKey (x : Slot) : list Z :=
  match x with
  | CounterSlot => vaultCountKey
  | FieldSlot p v => fieldKey p v
  | IndexSlot p v i => idxKey p v i
  end.

Definition field_tag (p : Z) : Prop :=
  In p [pThreshold; pOwnerCount; pToken; pBalance; pTotalProposals;
        pHasProposal; pPropTo; pPropAmount; pPropApprovals].

Definition index_tag (p : Z) : Prop := In p [pOwner; pApproval].

Definition contract_slot (x : Slot) : Prop :=
  match x with
  | CounterSlot => True
  | FieldSlot p v => field_tag p /\ is_u32 v
  | IndexSlot p v i => index_tag p /\ is_u32 v /\ is_u8 i
  end.

(** ** Vocabulary of the statements *)

(** Every stored value is a 32-byte word. *)
Definition word_storage (s : storage) : Prop :=
  forall k : list Z, is_u256 (getStorageAt k s).

(** The storage [clearProposal] leaves behind. *)
Definition clearedState (v : Z) (s : storage) : storage :=
  su (fieldKey pHasProposal v) 0
    (clearFlags v (Z.to_nat (getOwnerCount v s)) 0
       (su (fieldKey pPropApprovals v) 0
          (su (fieldKey pPropAmount v) 0
             (su (fieldKey pPropTo v) 0 s)))).

(** The writes of [propose] by the owner in slot [idx], up to the point
    where the lifetime counter is incremented, and with that increment. *)
Definition proposingState (v idx to amount : Z) (s : storage) : storage :=
  su (fieldKey pHasProposal v) 1
     (su (idxKey pApproval v idx) 1
        (su (fieldKey pPropApprovals v) 1
           (su (fieldKey pPropAmount v) amount
              (sa (fieldKey pPropTo v) to s)))).

Definition proposedState (v idx to amount : Z) (s : storage) : storage :=
  su (fieldKey pTotalProposals v)
     ((lu (fieldKey pTotalProposals v) s + 1) mod 2 ^ 256)
     (proposingState v idx to amount s).

(** The storage [executeProposal] has built when it calls the asset
    contract: balance debited, proposal cleared. *)
Definition executedState (v : Z) (s : storage) : storage :=
  clearedState v
    (su (fieldKey pBalance v)
        ((lu (fieldKey pBalance v) s - lu (fieldKey pPropAmount v) s) mod 2 ^ 256) s).

(** The writes of a successful [approve] by the owner in slot [idx]. *)
Definition approvedState (v idx : Z) (s : storage) : storage :=
  su (fieldKey pPropApprovals v)
     ((lu (fieldKey pPropApprovals v) s + 1) mod 2 ^ 256)
     (su (idxKey pApproval v idx) 1 s).

(** The write of a successful [deposit]. *)
Definition depositedState (v amount : Z) (s : storage) : storage :=
  su (fieldKey pBalance v) ((lu (fieldKey pBalance v) s + amount) mod 2 ^ 256) s.

(** The owner slots [createVault] fills, and the storage of a successful
    [createVault] that found the counter at [n]. *)
Fixpoint writeOwners (v : Z) (owners : list Z) (i : Z) (s : storage) : storage :=
  match owners with
  | [] => s
  | owner :: rest => writeOwners v rest (i + 1) (sa (idxKey pOwner v i) owner s)
  end.

Definition configuredState (token ownerCount threshold n : Z) (s : storage) : storage :=
  sa (fieldKey pToken n) token
    (su (fieldKey pOwnerCount n) (u32 ownerCount)
       (su (fieldKey pThreshold n) (u32 threshold) s)).

Definition createdState (token ownerCount threshold n : Z) (s : storage) : storage :=
  su vaultCountKey ((n + 1) mod 2 ^ 256) (configuredState token ownerCount threshold n s).

(** A run that aborts with the given error kind before the vault counter
    has been touched. *)
Definition rejects {A : Type} (r : run A) (e : VaultError) (s : storage) : Prop :=
  exists msg s1, r = Revert msg s1 /\ error_kind msg = Some e /\
                 vaultCount s1 = vaultCount s /\
                 forall ext, commit s (host ext r) = s.

(** What every reachable storage satisfies, vault by vault: the owner
    count stays within the cap, and an active proposal never asks for more
    than the balance nor counts more approvals than there are flags set. *)
Definition vault_sound (s : storage) (v : Z) : Prop :=
  getOwnerCount v s <= 10 /\
  (hasProposal_of s v <> 0 ->
   0 < propAmount_of s v <= balance_of s v /\
   1 <= approvals_of s v <= countFlags s v 10 0).

Definition sound (s : storage) : Prop :=
  word_storage s /\ forall v, vault_sound s v.

(** The tally of an active proposal: the stored approval count is the
    number of owners whose flag is set, at least one and at most the number
    of owners. *)
Definition approvals_tally (s : storage) (v : Z) : Prop :=
  approvals_of s v = approvalCount s v /\
  1 <= approvals_of s v /\ approvals_of s v <= getOwnerCount v s.

(** The tally holds for every vault with an active proposal. *)
Definition tally_holds (s : storage) : Prop :=
  forall v, 0 <= v < vaultCount s -> hasProposal_of s v <> 0 -> approvals_tally s v.

(** What the tally rests on while vault ids fit their four key bytes: a
    created vault has 2 to 10 owners, no flag set without a proposal and a
    correct count with one; a slot not yet given to a vault is blank. *)
Definition vault_tallied (s : storage) (v : Z) : Prop :=
  2 <= ownerCount_of s v <= 10 /\
  (hasProposal_of s v = 0 ->
   forall i, 0 <= i < ownerCount_of s v -> flag_at s v i = 0) /\
  (hasProposal_of s v <> 0 ->
   approvals_of s v = approvalCount s v /\ 1 <= approvals_of s v).

Definition vault_unborn (s : storage) (v : Z) : Prop :=
  hasProposal_of s v = 0 /\ forall i, flag_at s v i = 0.

Definition tallied (s : storage) : Prop :=
  forall v, 0 <= v < 2 ^ 32 ->
    (v < vaultCount s -> vault_tallied s v) /\
    (vaultCount s <= v -> vault_unborn s v).

(** The sender of [tx] is the owner in slot [idx] of vault [v]. *)
Definition owner_index (s : storage) (tx : Tx) (v idx : Z) : Prop :=
  scanOwners v (sender tx) (Z.to_nat (getOwnerCount v s)) 0 s = Some idx.

(** ** A deployment to try the contract on

    Three owners, a recipient, an asset contract that accepts every
    transfer. *)

Definition alice : Z := 101.
Definition bob : Z := 102.
Definition carol : Z := 103.
Definition dave : Z := 104.
Definition erin : Z := 105.
Definition asset : Z := 900.
Definition tx_of (who : Z) : Tx := {| sender := who; contractAddress := 77 |}.
Definition accept (c : ExtCall) : bool := true.

(** Vault 0 with owners alice, bob and carol and threshold 2 holds 1000;
    carol proposes to send 200 to dave. *)
Definition carol_proposed : storage :=
  transact_all accept
    [ (tx_of alice, CreateVault asset 3 [alice; bob; carol] 2);
      (tx_of alice, Deposit 0 1000);
      (tx_of carol, Propose 0 dave 200) ] ∅.

(** ... and bob approves: the proposal has its quorum. *)
Definition quorum_reached : storage :=
  transact accept (tx_of bob) (Approve 0) carol_proposed.

(** ... and alice approves as well: all three owners have. *)
Definition all_approved : storage :=
  transact accept (tx_of alice) (Approve 0) quorum_reached.

(** Creating [n] more two-owner vaults. *)
Definition another_vault : Call := CreateVault asset 2 [alice; bob] 2.

Definition fill (n : N) (s : storage) : storage :=
  N.iter n (transact accept (tx_of alice) another_vault) s.

(** The vault counter driven to 2^32, and the vault created then: its id,
    2^32, has the same four key bytes as vault 0. *)
Definition ids_exhausted : storage := fill (2 ^ 32 - 1) all_approved.

Definition vault_zero_overwritten : storage :=
  transact accept (tx_of alice) another_vault ids_exhausted.

(** ** Footprints and vault records

    The keys an entry point may write, read off its [su]/[sa] calls. *)

Inductive written_by : Call -> storage -> list Z -> Prop :=
| wr_create_owner token oc owners th s j :
    written_by (CreateVault token oc owners th) s (idxKey pOwner (vaultCount s) j)
| wr_create_threshold token oc owners th s :
    written_by (CreateVault token oc owners th) s (fieldKey pThreshold (vaultCount s))
| wr_create_ownerCount token oc owners th s :
    written_by (CreateVault token oc owners th) s (fieldKey pOwnerCount (vaultCount s))
| wr_create_token token oc owners th s :
    written_by (CreateVault token oc owners th) s (fieldKey pToken (vaultCount s))
| wr_create_count token oc owners th s :
    written_by (CreateVault token oc owners th) s vaultCountKey
| wr_deposit_balance v amount s :
    written_by (Deposit v amount) s (fieldKey pBalance v)
| wr_propose_to v to amount s :
    written_by (Propose v to amount) s (fieldKey pPropTo v)
| wr_propose_amount v to amount s :
    written_by (Propose v to amount) s (fieldKey pPropAmount v)
| wr_propose_approvals v to amount s :
    written_by (Propose v to amount) s (fieldKey pPropApprovals v)
| wr_propose_flag v to amount s j :
    written_by (Propose v to amount) s (idxKey pApproval v j)
| wr_propose_has v to amount s :
    written_by (Propose v to amount) s (fieldKey pHasProposal v)
| wr_propose_total v to amount s :
    written_by (Propose v to amount) s (fieldKey pTotalProposals v)
| wr_approve_flag v s j :
    written_by (Approve v) s (idxKey pApproval v j)
| wr_approve_approvals v s :
    written_by (Approve v) s (fieldKey pPropApprovals v)
| wr_execute_balance v s :
    written_by (ExecuteProposal v) s (fieldKey pBalance v)
| wr_execute_to v s :
    written_by (ExecuteProposal v) s (fieldKey pPropTo v)
| wr_execute_amount v s :
    written_by (ExecuteProposal v) s (fieldKey pPropAmount v)
| wr_execute_approvals v s :
    written_by (ExecuteProposal v) s (fieldKey pPropApprovals v)
| wr_execute_flag v s j :
    written_by (ExecuteProposal v) s (idxKey pApproval v j)
| wr_execute_has v s :
    written_by (ExecuteProposal v) s (fieldKey pHasProposal v).

(** The vault a call works on: the one it names, or the one it creates. *)
Definition target (c : Call) (s : storage) : Z :=
  match c with
  | CreateVault _ _ _ _ => vaultCount s
  | Deposit v _ => v
  | Propose v _ _ => v
  | Approve v => v
  | ExecuteProposal v => v
  end.

Definition creates (c : Call) : Prop :=
  match c with CreateVault _ _ _ _ => True | _ => False end.

(** The keys of vault [v]: its nine fields and its two arrays. *)
Definition vault_slot_key (v : Z) (k : list Z) : Prop :=
  (exists p, field_tag p /\ k = fieldKey p v) \/
  (exists p i, index_tag p /\ k = idxKey p v i).

(** The keys that hold what [createVault] fixes. *)
Definition config_key (v : Z) (k : list Z) : Prop :=
  k = fieldKey pThreshold v \/ k = fieldKey pOwnerCount v \/
  k = fieldKey pToken v \/ exists i, k = idxKey pOwner v i.

(** The owner list as [getVaultInfo] reads it. *)
Definition owners_of (s : storage) (v : Z) : list Z :=
  collectOwners v (Z.to_nat (getOwnerCount v s)) 0 s.

Definition vault_config (s : storage) (v : Z) : Prop :=
  2 <= threshold_of s v <= ownerCount_of s v /\ ownerCount_of s v <= 10 /\
  NoDup (owners_of s v) /\ 0 ∉ owners_of s v.

Definition vault_blank (s : storage) (v : Z) : Prop :=
  forall k, vault_slot_key v k -> getStorageAt k s = 0.

Definition configured (s : storage) : Prop :=
  forall v, 0 <= v < 2 ^ 32 ->
    (v < vaultCount s -> vault_config s v) /\
    (vaultCount s <= v -> vault_blank s v).

(** No owner slot of vault [v] holds [who]. *)
Definition not_an_owner (s : storage) (v who : Z) : Prop :=
  forall j, 0 <= j < getOwnerCount v s -> owner_at s v j <> who.

(** Vault 0 created and funded, before any proposal. *)
Definition vault_funded : storage :=
  transact_all accept
    [ (tx_of alice, CreateVault asset 3 [alice; bob; carol] 2);
      (tx_of alice, Deposit 0 1000) ] ∅.

(** * Properties *)

(** ** Byte-level facts about the keys *)

Section KeyBytes.

Lemma land_255 (x : Z) : Z.land x 255 = x mod 256.
Proof. change 255 with (Z.ones 8). rewrite Z.land_ones by lia. reflexivity. Qed.

Lemma key_byte (x n : Z) :
  0 <= n -> u8 (Z.land (Z.shiftr x n) 255) = (x / 2 ^ n) mod 256.
Proof.
  intros Hn. unfold u8. rewrite land_255, Z.shiftr_div_pow2 by lia.
  change (2 ^ 8) with 256. apply Z.mod_mod. lia.
Qed.

Lemma key_byte0 (x : Z) : u8 (Z.land x 255) = x mod 256.
Proof.
  unfold u8. rewrite land_255. change (2 ^ 8) with 256.
  apply Z.mod_mod. lia.
Qed.

(** Two bytes, most significant first, give back a 16-bit number. *)
Lemma be16 (x : Z) : is_u16 x -> 256 * ((x / 2 ^ 8) mod 256) + x mod 256 = x.
Proof.
  unfold is_u16. intros Hx. change (2 ^ 8) with 256.
  assert (x / 256 < 256) by (apply Z.div_lt_upper_bound; lia).
  assert (0 <= x / 256) by (apply Z.div_pos; lia).
  rewrite (Z.mod_small (x / 256)) by lia.
  pose proof (Z.div_mod x 256). lia.
Qed.

(** Four bytes, most significant first, give back a 32-bit number. *)
Lemma be32 (x : Z) :
  is_u32 x ->
  2 ^ 24 * ((x / 2 ^ 24) mod 256) + 2 ^ 16 * ((x / 2 ^ 16) mod 256)
  + 2 ^ 8 * ((x / 2 ^ 8) mod 256) + x mod 256 = x.
Proof.
  unfold is_u32. intros Hx.
  change (2 ^ 24) with 16777216. change (2 ^ 16) with 65536.
  change (2 ^ 8) with 256.
  pose proof (Z.div_mod x 256 ltac:(lia)) as E0.
  pose proof (Z.mod_pos_bound x 256 ltac:(lia)) as B0.
  pose proof (Z.div_mod (x / 256) 256 ltac:(lia)) as E1.
  pose proof (Z.mod_pos_bound (x / 256) 256 ltac:(lia)) as B1.
  pose proof (Z.div_mod (x / 256 / 256) 256 ltac:(lia)) as E2.
  pose proof (Z.mod_pos_bound (x / 256 / 256) 256 ltac:(lia)) as B2.
  pose proof (Z.div_mod (x / 256 / 256 / 256) 256 ltac:(lia)) as E3.
  pose proof (Z.mod_pos_bound (x / 256 / 256 / 256) 256 ltac:(lia)) as B3.
  assert (D1 : x / 65536 = x / 256 / 256)
    by (rewrite Z.div_div by lia; reflexivity).
  assert (D2 : x / 16777216 = x / 256 / 256 / 256)
    by (rewrite !Z.div_div by lia; reflexivity).
  assert (x / 256 / 256 / 256 < 256).
  { rewrite <- D2. apply Z.div_lt_upper_bound; lia. }
  assert (0 <= x / 256 / 256 / 256).
  { rewrite <- D2. apply Z.div_pos; lia. }
  rewrite D1, D2.
  rewrite (Z.mod_small (x / 256 / 256 / 256)) by lia.
  lia.
Qed.

Lemma id32_range (v : Z) : is_u32 (id32 v).
Proof. unfold is_u32, id32, u32. apply Z.mod_pos_bound. lia. Qed.

Lemma id32_small (v : Z) : is_u32 v -> id32 v = v.
Proof.
  unfold is_u32, id32, u32, lo1. intros Hv.
  rewrite (Z.mod_small v (2 ^ 64)) by lia. apply Z.mod_small. lia.
Qed.

End KeyBytes.

(** The explicit byte lists the two helpers produce. *)
Lemma fieldKey_bytes (p v : Z) :
  fieldKey p v =
  [ (p / 2 ^ 8) mod 256; p mod 256;
    0; 0; 0; 0; 0; 0; 0; 0; 0; 0; 0; 0; 0;
    0; 0; 0; 0; 0; 0; 0; 0; 0; 0; 0; 0; 0;
    (id32 v / 2 ^ 24) mod 256; (id32 v / 2 ^ 16) mod 256;
    (id32 v / 2 ^ 8) mod 256; id32 v mod 256 ].
Proof.
  unfold fieldKey. rewrite !key_byte, !key_byte0 by lia. reflexivity.
Qed.

Lemma idxKey_bytes (p v i : Z) :
  idxKey p v i =
  [ (p / 2 ^ 8) mod 256; p mod 256;
    0; 0; 0; 0; 0; 0; 0; 0; 0; 0; 0; 0; 0;
    0; 0; 0; 0; 0; 0; 0; 0; 0; 0; 0; 0;
    (id32 v / 2 ^ 24) mod 256; (id32 v / 2 ^ 16) mod 256;
    (id32 v / 2 ^ 8) mod 256; id32 v mod 256; i ].
Proof.
  unfold idxKey. rewrite !key_byte, !key_byte0 by lia. reflexivity.
Qed.

Lemma vaultCountKey_bytes :
  vaultCountKey =
  [ 0; 1;
    0; 0; 0; 0; 0; 0; 0; 0; 0; 0; 0; 0; 0; 0; 0;
    0; 0; 0; 0; 0; 0; 0; 0; 0; 0; 0; 0; 0; 0; 0 ].
Proof. reflexivity. Qed.

(** ** When two keys are equal *)

Section KeyEquality.

Variables p p' : Z.
Hypothesis Hp : is_u16 p.
Hypothesis Hp' : is_u16 p'.

Lemma tag_bytes_inj :
  (p / 2 ^ 8) mod 256 = (p' / 2 ^ 8) mod 256 -> p mod 256 = p' mod 256 -> p = p'.
Proof using Hp Hp'.
  intros E1 E0. rewrite <- (be16 p Hp), <- (be16 p' Hp'). congruence.
Qed.

Lemma id_bytes_inj (x y : Z) :
  is_u32 x -> is_u32 y ->
  (x / 2 ^ 24) mod 256 = (y / 2 ^ 24) mod 256 ->
  (x / 2 ^ 16) mod 256 = (y / 2 ^ 16) mod 256 ->
  (x / 2 ^ 8) mod 256 = (y / 2 ^ 8) mod 256 ->
  x mod 256 = y mod 256 -> x = y.
Proof.
  intros Hx Hy E3 E2 E1 E0.
  rewrite <- (be32 x Hx), <- (be32 y Hy). congruence.
Qed.

Lemma fieldKey_inj (v v' : Z) :
  fieldKey p v = fieldKey p' v' -> p = p' /\ id32 v = id32 v'.
Proof using Hp Hp'.
  rewrite !fieldKey_bytes. intros E. injection E as E1 E0 E3' E2' E1' E0'.
  split; [apply tag_bytes_inj; assumption|].
  apply id_bytes_inj; auto using id32_range.
Qed.

Lemma idxKey_inj (v v' i i' : Z) :
  idxKey p v i = idxKey p' v' i' -> p = p' /\ id32 v = id32 v' /\ i = i'.
Proof using Hp Hp'.
  rewrite !idxKey_bytes. intros E. injection E as E1 E0 E3' E2' E1' E0' Ei.
  split; [apply tag_bytes_inj; assumption|]. split; [|assumption].
  apply id_bytes_inj; auto using id32_range.
Qed.

Lemma fieldKey_idxKey_tag (v v' i' : Z) :
  fieldKey p v = idxKey p' v' i' -> p = p'.
Proof using Hp Hp'.
  rewrite fieldKey_bytes, idxKey_bytes. intros E.
  injection E as E1 E0 _. apply tag_bytes_inj; assumption.
Qed.

End KeyEquality.

(** A key depends on the vault id only through its 32 low bits. *)
Lemma fieldKey_id32 (p v v' : Z) : id32 v = id32 v' -> fieldKey p v = fieldKey p v'.
Proof. intros E. rewrite !fieldKey_bytes, E. reflexivity. Qed.

Lemma idxKey_id32 (p v v' i : Z) : id32 v = id32 v' -> idxKey p v i = idxKey p v' i.
Proof. intros E. rewrite !idxKey_bytes, E. reflexivity. Qed.

(** The same tag used in both shapes does overlap: this is why the contract
    gives every tag one shape only. *)
Remark fieldKey_idxKey_overlap (p : Z) : fieldKey p 256 = idxKey p 1 0.
Proof. rewrite fieldKey_bytes, idxKey_bytes. reflexivity. Qed.

(** *** Keys that differ *)

Ltac tag_facts :=
  cbv [is_u16 pVaultCount pThreshold pOwnerCount pToken pBalance
       pTotalProposals pHasProposal pOwner pPropTo pPropAmount pPropApprovals
       pApproval]; lia.

Lemma ff_tag_ne p p' v v' :
  is_u16 p -> is_u16 p' -> p <> p' -> fieldKey p v <> fieldKey p' v'.
Proof. intros Hp Hp' Hne E. apply (fieldKey_inj p p' Hp Hp') in E. tauto. Qed.

Lemma ii_tag_ne p p' v v' i i' :
  is_u16 p -> is_u16 p' -> p <> p' -> idxKey p v i <> idxKey p' v' i'.
Proof. intros Hp Hp' Hne E. apply (idxKey_inj p p' Hp Hp') in E. tauto. Qed.

Lemma fi_tag_ne p p' v v' i' :
  is_u16 p -> is_u16 p' -> p <> p' -> fieldKey p v <> idxKey p' v' i'.
Proof. intros Hp Hp' Hne E. apply (fieldKey_idxKey_tag p p' Hp Hp') in E. tauto. Qed.

Lemma if_tag_ne p p' v v' i :
  is_u16 p -> is_u16 p' -> p <> p' -> idxKey p v i <> fieldKey p' v'.
Proof. intros Hp Hp' Hne E. symmetry in E. apply (fieldKey_idxKey_tag p' p Hp' Hp) in E. congruence. Qed.

Lemma ff_id_ne p p' v v' : id32 v <> id32 v' -> fieldKey p v <> fieldKey p' v'.
Proof.
  rewrite !fieldKey_bytes. intros Hne E. injection E as _ _ E3 E2 E1 E0.
  apply Hne. apply id_bytes_inj; auto using id32_range.
Qed.

Lemma ii_id_ne p p' v v' i i' : id32 v <> id32 v' -> idxKey p v i <> idxKey p' v' i'.
Proof.
  rewrite !idxKey_bytes. intros Hne E. injection E as _ _ E3 E2 E1 E0 _.
  apply Hne. apply id_bytes_inj; auto using id32_range.
Qed.

Lemma ii_idx_ne p p' v v' i i' : i <> i' -> idxKey p v i <> idxKey p' v' i'.
Proof.
  rewrite !idxKey_bytes. intros Hne E. injection E as _ _ _ _ _ _ Ei. contradiction.
Qed.

Lemma fc_ne p v : is_u16 p -> p <> pVaultCount -> fieldKey p v <> vaultCountKey.
Proof.
  intros Hp Hne E. rewrite fieldKey_bytes, vaultCountKey_bytes in E.
  injection E as E1 E0 _. apply Hne.
  apply (tag_bytes_inj p pVaultCount Hp); [unfold is_u16, pVaultCount; lia | exact E1 | exact E0].
Qed.

Lemma ic_ne p v i : is_u16 p -> p <> pVaultCount -> idxKey p v i <> vaultCountKey.
Proof.
  intros Hp Hne E. rewrite idxKey_bytes, vaultCountKey_bytes in E.
  injection E as E1 E0 _. apply Hne.
  apply (tag_bytes_inj p pVaultCount Hp); [unfold is_u16, pVaultCount; lia | exact E1 | exact E0].
Qed.

Lemma cf_ne p v : is_u16 p -> p <> pVaultCount -> vaultCountKey <> fieldKey p v.
Proof. intros Hp Hne E. symmetry in E. revert E. apply fc_ne; assumption. Qed.

Lemma ci_ne p v i : is_u16 p -> p <> pVaultCount -> vaultCountKey <> idxKey p v i.
Proof. intros Hp Hne E. symmetry in E. revert E. apply ic_ne; assumption. Qed.

(** Decide that two keys built by the helpers differ: by their tags, by
    their vault ids, or by their indices. *)
Ltac keys_ne :=
  solve
    [ apply ff_tag_ne; tag_facts
    | apply ii_tag_ne; tag_facts
    | apply fi_tag_ne; tag_facts
    | apply if_tag_ne; tag_facts
    | apply fc_ne; tag_facts
    | apply ic_ne; tag_facts
    | apply cf_ne; tag_facts
    | apply ci_ne; tag_facts
    | apply ff_id_ne; solve [assumption | congruence | lia]
    | apply ii_id_ne; solve [assumption | congruence | lia]
    | apply ii_idx_ne; solve [assumption | congruence | lia] ].

(** ** Reading after writing *)

Lemma get_set_eq (k : list Z) (x : Z) (s : storage) :
  getStorageAt k (setStorageAt k x s) = x.
Proof. unfold getStorageAt, setStorageAt. rewrite lookup_insert_eq. reflexivity. Qed.

Lemma get_set_ne (k k' : list Z) (x : Z) (s : storage) :
  k <> k' -> getStorageAt k (setStorageAt k' x s) = getStorageAt k s.
Proof.
  intros Hne. unfold getStorageAt, setStorageAt.
  rewrite lookup_insert_ne by congruence. reflexivity.
Qed.

Lemma get_empty (k : list Z) : getStorageAt k ∅ = 0.
Proof. unfold getStorageAt. rewrite lookup_empty. reflexivity. Qed.

Ltac unfold_views :=
  cbv [vaultCount threshold_of ownerCount_of token_of balance_of
       totalProposals_of hasProposal_of propTo_of propAmount_of approvals_of
       owner_at flag_at getOwnerCount lu su la sa].

Ltac unfold_views_all :=
  cbv [vaultCount threshold_of ownerCount_of token_of balance_of
       totalProposals_of hasProposal_of propTo_of propAmount_of approvals_of
       owner_at flag_at getOwnerCount lu su la sa] in *.

(** From here on the store is used through the three equations above. *)
Opaque getStorageAt setStorageAt fieldKey idxKey vaultCountKey.

(** Close an equation whose two sides are the same term. *)
Ltac same := lazymatch goal with |- ?x = ?y => constr_eq x y; reflexivity end.

(** *** The loops that write a range of slots *)

Lemma clearFlags_other (k : list Z) (v : Z) (n : nat) (i : Z) (s : storage) :
  (forall j, k <> idxKey pApproval v j) ->
  getStorageAt k (clearFlags v n i s) = getStorageAt k s.
Proof.
  intros Hk. revert i s. induction n as [|n IH]; intros i s; simpl; [reflexivity|].
  rewrite IH. unfold su. apply get_set_ne, Hk.
Qed.

Lemma clearFlags_outside (v v' : Z) (n : nat) (i j : Z) (s : storage) :
  j < i \/ i + Z.of_nat n <= j ->
  getStorageAt (idxKey pApproval v' j) (clearFlags v n i s)
  = getStorageAt (idxKey pApproval v' j) s.
Proof.
  revert i s. induction n as [|n IH]; intros i s Hj; simpl; [reflexivity|].
  rewrite IH by lia. unfold su. apply get_set_ne, ii_idx_ne. lia.
Qed.

Lemma clearFlags_flag (v : Z) (n : nat) (i j : Z) (s : storage) :
  i <= j < i + Z.of_nat n ->
  getStorageAt (idxKey pApproval v j) (clearFlags v n i s) = 0.
Proof.
  revert i s. induction n as [|n IH]; intros i s Hj; simpl; [lia|].
  destruct (Z.eq_dec j i) as [->|Hne].
  - rewrite clearFlags_outside by lia. unfold su. apply get_set_eq.
  - apply IH. lia.
Qed.

(** The written owner slots: only keys of the owner list change. *)
Lemma writeOwners_other (k : list Z) (v : Z) (owners : list Z) (i : Z) (s : storage) :
  (forall j, k <> idxKey pOwner v j) ->
  getStorageAt k (writeOwners v owners i s) = getStorageAt k s.
Proof.
  intros Hk. revert i s. induction owners as [|o rest IH]; intros i s; simpl;
    [reflexivity|].
  rewrite IH. unfold sa. apply get_set_ne, Hk.
Qed.

Lemma writeOwners_before (v v' : Z) (owners : list Z) (i j : Z) (s : storage) :
  j < i ->
  getStorageAt (idxKey pOwner v' j) (writeOwners v owners i s)
  = getStorageAt (idxKey pOwner v' j) s.
Proof.
  revert i s. induction owners as [|o rest IH]; intros i s Hj; simpl; [reflexivity|].
  rewrite IH by lia. unfold sa. apply get_set_ne, ii_idx_ne. lia.
Qed.

Lemma writeOwners_slot (v : Z) (owners : list Z) (i : Z) (j : nat) (o : Z) (s : storage) :
  nth_error owners j = Some o ->
  getStorageAt (idxKey pOwner v (i + Z.of_nat j)) (writeOwners v owners i s) = o.
Proof.
  revert i j s. induction owners as [|x rest IH]; intros i j s Hj.
  - destruct j; discriminate.
  - destruct j as [|j].
    + simpl in Hj. injection Hj as ->. change (Z.of_nat 0) with 0.
      rewrite Z.add_0_r. simpl. rewrite writeOwners_before by lia.
      unfold sa. apply get_set_eq.
    + rewrite Nat2Z.inj_succ.
      replace (i + Z.succ (Z.of_nat j)) with (i + 1 + Z.of_nat j) by lia.
      simpl. apply IH. exact Hj.
Qed.

(** Simplify reads of the storage after writes to other keys. *)
Ltac reads :=
  repeat first
    [ rewrite get_set_eq
    | rewrite get_set_ne by keys_ne
    | rewrite clearFlags_other by (intros; keys_ne)
    | rewrite writeOwners_other by (intros; keys_ne)
    | rewrite get_empty ].

Lemma field_tag_facts (p : Z) :
  field_tag p -> is_u16 p /\ p <> pVaultCount /\ ~ index_tag p.
Proof.
  unfold field_tag, index_tag. cbn [In]. intros H.
  repeat (destruct H as [<-|H];
          [split; [tag_facts | split; [tag_facts |]];
           intros [E|[E|[]]]; revert E; tag_facts |]).
  destruct H.
Qed.

Lemma index_tag_facts (p : Z) : index_tag p -> is_u16 p /\ p <> pVaultCount.
Proof.
  unfold index_tag. cbn [In]. intros [<-|[<-|[]]]; split; tag_facts.
Qed.

(** C5: the storage-key functions are injective within the reserved widths
    (16-bit tag, 32-bit vault id, 8-bit index): (a) two field keys are equal
    only for the same tag and vault id, (b) two indexed keys only for the same
    tag, vault id and index, and (c) a field key equals an indexed key only
    when both carry the same tag, so keys of distinct tags never collide
    across the two shapes.  Hence no two distinct slots the contract
    addresses (its counter, a field of a vault, an entry of a vault's owner
    or approval array) have the same 32-byte key. *)
Theorem C5_storage_keys_injective (p1 p2 v1 v2 i1 i2 : Z) :
  is_u16 p1 -> is_u16 p2 -> is_u32 v1 -> is_u32 v2 -> is_u8 i1 -> is_u8 i2 ->
  (fieldKey p1 v1 = fieldKey p2 v2 -> p1 = p2 /\ v1 = v2) /\
  (idxKey p1 v1 i1 = idxKey p2 v2 i2 -> p1 = p2 /\ v1 = v2 /\ i1 = i2) /\
  (fieldKey p1 v1 = idxKey p2 v2 i2 -> p1 = p2) /\
  (forall a b : Slot,
      contract_slot a -> contract_slot b -> slotKey a = slotKey b -> a = b).
Proof.
  intros Hp1 Hp2 Hv1 Hv2 _ _. split; [|split; [|split]].
  - intros E. apply (fieldKey_inj p1 p2 Hp1 Hp2) in E.
    rewrite !id32_small in E by assumption. exact E.
  - intros E. apply (idxKey_inj p1 p2 Hp1 Hp2) in E.
    rewrite !id32_small in E by assumption. exact E.
  - intros E. apply (fieldKey_idxKey_tag p1 p2 Hp1 Hp2) in E. exact E.
  - intros [|p v|p v i] [|q w|q w j]; cbn [contract_slot slotKey]; intros Ha Hb E.
    + reflexivity.
    + destruct Hb as [Hq _]. apply field_tag_facts in Hq.
      exfalso. revert E. apply cf_ne; tauto.
    + destruct Hb as [Hq _]. apply index_tag_facts in Hq.
      exfalso. revert E. apply ci_ne; tauto.
    + destruct Ha as [Hp _]. apply field_tag_facts in Hp.
      exfalso. revert E. apply fc_ne; tauto.
    + destruct Ha as [Hp Hv], Hb as [Hq Hw].
      apply field_tag_facts in Hp. apply field_tag_facts in Hq.
      apply (fieldKey_inj p q) in E; [|tauto|tauto].
      rewrite !id32_small in E by assumption. destruct E as [-> ->]. reflexivity.
    + destruct Ha as [Hp _], Hb as [Hq _].
      apply field_tag_facts in Hp. pose proof (index_tag_facts q Hq) as Hq'.
      apply (fieldKey_idxKey_tag p q) in E; [|tauto|tauto].
      subst q. tauto.
    + destruct Ha as [Hp _]. apply index_tag_facts in Hp.
      exfalso. revert E. apply ic_ne; tauto.
    + destruct Ha as [Hp _], Hb as [Hq _].
      apply field_tag_facts in Hq. pose proof (index_tag_facts p Hp) as Hp'.
      symmetry in E. apply (fieldKey_idxKey_tag q p) in E; [|tauto|tauto].
      subst q. tauto.
    + destruct Ha as [Hp [Hv _]], Hb as [Hq [Hw _]].
      apply index_tag_facts in Hp. apply index_tag_facts in Hq.
      apply (idxKey_inj p q) in E; [|tauto|tauto].
      rewrite !id32_small in E by assumption.
      destruct E as [-> [-> ->]]. reflexivity.
Qed.

Lemma C5_storage_keys_injective_witness :
  (is_u16 5 /\ is_u16 12 /\ is_u32 7 /\ is_u32 7 /\ is_u8 3 /\ is_u8 3) /\
  (fieldKey 5 7 = fieldKey 12 7 -> 5 = 12 /\ 7 = 7) /\
  (idxKey 5 7 3 = idxKey 12 7 3 -> 5 = 12 /\ 7 = 7 /\ 3 = 3) /\
  (fieldKey 5 7 = idxKey 12 7 3 -> 5 = 12).
Proof.
  assert (H16 : is_u16 5 /\ is_u16 12) by (unfold is_u16; lia).
  assert (H32 : is_u32 7) by (unfold is_u32; lia).
  assert (H8 : is_u8 3) by (unfold is_u8; lia).
  split; [tauto|].
  destruct (C5_storage_keys_injective 5 12 7 7 3 3
              (proj1 H16) (proj2 H16) H32 H32 H8 H8) as [Ha [Hb [Hc _]]].
  repeat apply conj; assumption.
Defined.

(** ** Stepping through a run *)

Ltac run_unfold :=
  cbv [bind ret throw load store loadAddress storeAddress external run_bind
       requireVault vaultCount_value vaultCount_set SafeMath_add SafeMath_sub
       host commit ONE ZERO fromU32].

(** ** [clearProposal] *)

Lemma getOwnerCount_frame (v : Z) (s s' : storage) :
  getStorageAt (fieldKey pOwnerCount v) s' = getStorageAt (fieldKey pOwnerCount v) s ->
  getOwnerCount v s' = getOwnerCount v s.
Proof. intros E. unfold getOwnerCount, lu. rewrite E. reflexivity. Qed.

Lemma clearProposal_run (v : Z) (s : storage) :
  clearProposal v s = Done tt (clearedState v s).
Proof.
  unfold clearProposal. run_unfold. unfold clearedState.
  rewrite (getOwnerCount_frame v s) by (unfold su; reads; same).
  reflexivity.
Qed.

(** What [clearProposal] leaves in the vault's own proposal slots. *)
Lemma clearedState_fields (v : Z) (s : storage) :
  propTo_of (clearedState v s) v = 0 /\
  propAmount_of (clearedState v s) v = 0 /\
  approvals_of (clearedState v s) v = 0 /\
  hasProposal_of (clearedState v s) v = 0 /\
  (forall i, 0 <= i < getOwnerCount v s -> flag_at (clearedState v s) v i = 0).
Proof.
  unfold clearedState. repeat apply conj; try (unfold_views; reads; same).
  intros i Hi. unfold flag_at, lu, su. reads.
  apply clearFlags_flag. lia.
Qed.

(** ** The methods, guard by guard *)

Lemma requireVault_eq (v : Z) (s : storage) :
  requireVault v s =
  if v >=? vaultCount s then Revert "vault not found" s else Done tt s.
Proof.
  unfold requireVault, vaultCount. run_unfold. destruct (_ >=? _); same.
Qed.

Lemma executeProposal_eq (v : Z) (s : storage) :
  executeProposal v s =
  if v >=? vaultCount s then Revert "vault not found" s
  else if hasProposal_of s v =? 0 then Revert "no active proposal" s
  else if approvals_of s v <? threshold_of s v then Revert "threshold not met" s
  else if balance_of s v <? propAmount_of s v
       then Revert "SafeMath: subtraction underflow" s
  else External (ExtTransfer (token_of s v) (propTo_of s v) (propAmount_of s v))
         (executedState v s) (fun s' => Done true s').
Proof.
  unfold executeProposal, vaultCount, hasProposal_of, approvals_of, threshold_of,
    balance_of, propAmount_of, token_of, propTo_of, executedState.
  run_unfold.
  repeat (match goal with
          | |- context [if ?c then _ else _] => destruct c; run_unfold
          end; try same).
  rewrite clearProposal_run. run_unfold. same.
Qed.

Lemma approve_eq (tx : Tx) (v : Z) (s : storage) :
  approve tx v s =
  if v >=? vaultCount s then Revert "vault not found" s
  else match scanOwners v (sender tx) (Z.to_nat (getOwnerCount v s)) 0 s with
       | None => Revert "not an owner" s
       | Some idx =>
           if hasProposal_of s v =? 0 then Revert "no active proposal" s
           else if flag_at s v idx =? 0 then
             if (approvals_of s v + 1) mod 2 ^ 256 <? approvals_of s v
             then Revert "SafeMath: addition overflow" (su (idxKey pApproval v idx) 1 s)
             else Done true (approvedState v idx s)
           else Revert "already approved" s
       end.
Proof.
  unfold approve, requireOwnerIdx, vaultCount, hasProposal_of, approvals_of,
    flag_at, approvedState.
  run_unfold.
  destruct (v >=? lu vaultCountKey s); run_unfold; [same|].
  destruct (scanOwners _ _ _ _ _) as [idx|]; run_unfold; [|same].
  destruct (lu (fieldKey pHasProposal v) s =? 0); run_unfold; [same|].
  destruct (lu (idxKey pApproval v idx) s =? 0); cbv [negb]; run_unfold; [|same].
  unfold lu, su. reads.
  destruct (_ <? _); same.
Qed.

Lemma deposit_host (ext : ExtCall -> bool) (tx : Tx) (v amount : Z) (s : storage) :
  host ext (deposit tx v amount s) =
  if v >=? vaultCount s then Failure "vault not found" s
  else if amount =? 0 then Failure "amount is zero" s
  else if ext (ExtTransferFrom (token_of s v) (sender tx) (contractAddress tx) amount)
  then
    if (balance_of s v + amount) mod 2 ^ 256 <? balance_of s v
    then Failure "SafeMath: addition overflow" s
    else Success true (depositedState v amount s)
  else Failure "TransferHelper: call failed" s.
Proof.
  unfold deposit, vaultCount, token_of, balance_of, depositedState.
  run_unfold.
  destruct (v >=? lu vaultCountKey s); run_unfold; [same|].
  destruct (amount =? 0); run_unfold; [same|].
  destruct (ext _); [|same].
  destruct (_ <? _); run_unfold; same.
Qed.

Lemma executeProposal_host (ext : ExtCall -> bool) (v : Z) (s : storage) :
  host ext (executeProposal v s) =
  if v >=? vaultCount s then Failure "vault not found" s
  else if hasProposal_of s v =? 0 then Failure "no active proposal" s
  else if approvals_of s v <? threshold_of s v then Failure "threshold not met" s
  else if balance_of s v <? propAmount_of s v
       then Failure "SafeMath: subtraction underflow" s
  else if ext (ExtTransfer (token_of s v) (propTo_of s v) (propAmount_of s v))
       then Success true (executedState v s)
       else Failure "TransferHelper: call failed" (executedState v s).
Proof.
  rewrite executeProposal_eq.
  repeat (match goal with
          | |- context [if ?c then _ else _] => destruct c; run_unfold
          end; try same).
Qed.

Lemma approve_host (ext : ExtCall -> bool) (tx : Tx) (v : Z) (s : storage) :
  host ext (approve tx v s) =
  if v >=? vaultCount s then Failure "vault not found" s
  else match scanOwners v (sender tx) (Z.to_nat (getOwnerCount v s)) 0 s with
       | None => Failure "not an owner" s
       | Some idx =>
           if hasProposal_of s v =? 0 then Failure "no active proposal" s
           else if flag_at s v idx =? 0 then
             if (approvals_of s v + 1) mod 2 ^ 256 <? approvals_of s v
             then Failure "SafeMath: addition overflow" (su (idxKey pApproval v idx) 1 s)
             else Success true (approvedState v idx s)
           else Failure "already approved" s
       end.
Proof.
  rewrite approve_eq.
  destruct (v >=? vaultCount s); run_unfold; [same|].
  destruct (scanOwners _ _ _ _ _) as [idx|]; run_unfold; [|same].
  repeat (match goal with
          | |- context [if ?c then _ else _] => destruct c; run_unfold
          end; try same).
Qed.

Lemma propose_eq (tx : Tx) (v to amount : Z) (s : storage) :
  propose tx v to amount s =
  if v >=? vaultCount s then Revert "vault not found" s
  else match scanOwners v (sender tx) (Z.to_nat (getOwnerCount v s)) 0 s with
       | None => Revert "not an owner" s
       | Some idx =>
           if amount =? 0 then Revert "amount is zero" s
           else if to =? 0 then Revert "zero recipient" s
           else if amount >? balance_of s v then Revert "insufficient balance" s
           else
             let s0 := if hasProposal_of s v =? 0 then s else clearedState v s in
             if (totalProposals_of s v + 1) mod 2 ^ 256 <? totalProposals_of s v
             then Revert "SafeMath: addition overflow" (proposingState v idx to amount s0)
             else Done true (proposedState v idx to amount s0)
       end.
Proof.
  unfold propose, requireOwnerIdx, vaultCount, hasProposal_of, balance_of,
    totalProposals_of, proposedState, proposingState.
  run_unfold.
  destruct (v >=? lu vaultCountKey s); run_unfold; [same|].
  destruct (scanOwners _ _ _ _ _) as [idx|]; run_unfold; [|same].
  destruct (amount =? 0); run_unfold; [same|].
  destruct (to =? 0); run_unfold; [same|].
  destruct (amount >? _); run_unfold; [same|].
  destruct (lu (fieldKey pHasProposal v) s =? 0); cbv [negb]; run_unfold.
  - unfold lu, su, sa. reads. destruct (_ <? _); same.
  - rewrite clearProposal_run. run_unfold. unfold clearedState, lu, su, sa. reads.
    destruct (_ <? _); same.
Qed.

Lemma propose_host (ext : ExtCall -> bool) (tx : Tx) (v to amount : Z) (s : storage) :
  host ext (propose tx v to amount s) =
  if v >=? vaultCount s then Failure "vault not found" s
  else match scanOwners v (sender tx) (Z.to_nat (getOwnerCount v s)) 0 s with
       | None => Failure "not an owner" s
       | Some idx =>
           if amount =? 0 then Failure "amount is zero" s
           else if to =? 0 then Failure "zero recipient" s
           else if amount >? balance_of s v then Failure "insufficient balance" s
           else
             let s0 := if hasProposal_of s v =? 0 then s else clearedState v s in
             if (totalProposals_of s v + 1) mod 2 ^ 256 <? totalProposals_of s v
             then Failure "SafeMath: addition overflow" (proposingState v idx to amount s0)
             else Success true (proposedState v idx to amount s0)
       end.
Proof.
  rewrite propose_eq.
  destruct (v >=? vaultCount s); run_unfold; [same|].
  destruct (scanOwners _ _ _ _ _) as [idx|]; run_unfold; [|same].
  repeat (match goal with
          | |- context [if ?c then _ else _] => destruct c; run_unfold
          end; try same).
Qed.

(** ** The owner loop of [createVault] *)

Lemma existsb_eqb_elem (x : Z) (l : list Z) :
  existsb (fun o => o =? x) l = true <-> x ∈ l.
Proof.
  rewrite existsb_exists, list_elem_of_In. split.
  - intros [y [Hy E]]. apply Z.eqb_eq in E. subst. assumption.
  - intros H. exists x. split; [assumption | apply Z.eqb_refl].
Qed.

Lemma existsb_eqb_not_elem (x : Z) (l : list Z) :
  existsb (fun o => o =? x) l = false <-> x ∉ l.
Proof.
  rewrite <- existsb_eqb_elem. destruct (existsb _ l); split; congruence.
Qed.

Lemma NoDup_snoc (l : list Z) (x : Z) : NoDup l -> x ∉ l -> NoDup (l ++ [x]).
Proof.
  intros Hl Hx. apply NoDup_app. split; [exact Hl|]. split.
  - intros y Hy Hy'. apply list_elem_of_singleton in Hy'. subst. contradiction.
  - apply NoDup_singleton.
Qed.

Lemma NoDup_app_head (l k : list Z) (x : Z) : NoDup (l ++ x :: k) -> x ∉ l.
Proof.
  intros H Hx. apply NoDup_app in H. destruct H as [_ [H _]].
  apply (H x Hx). left.
Qed.

Lemma writeOwners_words (v : Z) (owners : list Z) (i : Z) (s : storage) :
  Forall is_u256 owners -> word_storage s -> word_storage (writeOwners v owners i s).
Proof.
  revert i s. induction owners as [|o rest IH]; intros i s Ho Hs; simpl; [assumption|].
  inversion Ho; subst. apply IH; [assumption|].
  intros k. unfold sa. destruct (decide (k = idxKey pOwner v i)) as [->|Hne].
  - rewrite get_set_eq. assumption.
  - rewrite get_set_ne by assumption. apply Hs.
Qed.

(** Whatever the calldata, the loop ends (it never calls out), and what it
    has written by then is a prefix of the owner list. *)
Lemma readOwners_shape (v : Z) (calldata : list Z) (n : nat) (i : Z) (acc : list Z)
    (s : storage) :
  exists written,
    (readOwners v calldata n i acc s = Done tt (writeOwners v written i s) \/
     exists msg, readOwners v calldata n i acc s = Revert msg (writeOwners v written i s))
    /\ (exists rest, calldata = written ++ rest).
Proof.
  revert calldata i acc s. induction n as [|n IH]; intros calldata i acc s.
  - exists []. split; [left; reflexivity | exists calldata; reflexivity].
  - destruct calldata as [|o rest]; simpl.
    + exists []. split; [right; eexists; reflexivity | exists []; reflexivity].
    + destruct (o =? 0).
      { exists []. split; [right; eexists; reflexivity | exists (o :: rest); reflexivity]. }
      destruct (existsb _ acc).
      { exists []. split; [right; eexists; reflexivity | exists (o :: rest); reflexivity]. }
      destruct (IH rest (i + 1) (acc ++ [o]) (sa (idxKey pOwner v i) o s))
        as [written [Hrun [tl Htl]]].
      exists (o :: written). split.
      * run_unfold. simpl. destruct Hrun as [-> | [msg ->]];
          [left | right; exists msg]; reflexivity.
      * exists tl. simpl. congruence.
Qed.

(** Valid owners are all written, in order. *)
Lemma readOwners_ok (v : Z) (owners : list Z) (i : Z) (acc : list Z) (s : storage) :
  0 ∉ owners -> NoDup (acc ++ owners) ->
  readOwners v owners (length owners) i acc s = Done tt (writeOwners v owners i s).
Proof.
  revert i acc s. induction owners as [|o rest IH]; intros i acc s Hz Hnd; simpl;
    [reflexivity|].
  assert (Ho : o <> 0) by (intros ->; apply Hz; left).
  apply Z.eqb_neq in Ho. rewrite Ho.
  pose proof (NoDup_app_head _ _ _ Hnd) as Hacc.
  apply existsb_eqb_not_elem in Hacc. rewrite Hacc.
  run_unfold. apply IH.
  - intros Hin. apply Hz. right. assumption.
  - rewrite <- app_assoc. exact Hnd.
Qed.

(** A zero or repeated owner stops the loop with the matching message. *)
Lemma readOwners_bad (v : Z) (owners : list Z) (i : Z) (acc : list Z) (s : storage) :
  0 ∈ owners \/ ~ NoDup (acc ++ owners) -> NoDup acc ->
  exists msg s1,
    readOwners v owners (length owners) i acc s = Revert msg s1 /\
    (exists written, s1 = writeOwners v written i s) /\
    ((msg = "zero address" /\ 0 ∈ owners) \/
     (msg = "duplicate owner" /\ ~ NoDup (acc ++ owners))).
Proof.
  revert i acc s. induction owners as [|o rest IH]; intros i acc s Hbad Hacc.
  - exfalso. destruct Hbad as [Hin|Hnd]; [inversion Hin|].
    apply Hnd. rewrite app_nil_r. assumption.
  - simpl. destruct (o =? 0) eqn:Ez.
    { apply Z.eqb_eq in Ez. subst o. exists "zero address", s.
      split; [reflexivity|]. split; [exists []; reflexivity|].
      left; split; [reflexivity | left]. }
    destruct (existsb _ acc) eqn:Ed.
    { apply existsb_eqb_elem in Ed. exists "duplicate owner", s.
      split; [reflexivity|]. split; [exists []; reflexivity|].
      right; split; [reflexivity|].
      intros Hnd. apply NoDup_app_head in Hnd. contradiction. }
    apply Z.eqb_neq in Ez. apply existsb_eqb_not_elem in Ed.
    destruct (IH (i + 1) (acc ++ [o]) (sa (idxKey pOwner v i) o s))
      as [msg [s1 [Hrun [[written Hw] Hwhy]]]].
    + destruct Hbad as [Hin|Hnd]; [left | right].
      * apply elem_of_cons in Hin. destruct Hin as [E|Hin]; [congruence | assumption].
      * rewrite <- app_assoc. exact Hnd.
    + apply NoDup_snoc; assumption.
    + exists msg, s1. split; [|split].
      * run_unfold. rewrite Hrun. reflexivity.
      * exists (o :: written). simpl. exact Hw.
      * destruct Hwhy as [[-> Hin] | [-> Hnd]].
        -- left. split; [reflexivity | right; assumption].
        -- right. split; [reflexivity|]. rewrite <- app_assoc in Hnd. exact Hnd.
Qed.

Lemma collectOwners_written (v : Z) (owners : list Z) (i : Z) (s : storage) :
  (forall j o, nth_error owners j = Some o ->
               getStorageAt (idxKey pOwner v (i + Z.of_nat j)) s = o) ->
  collectOwners v (length owners) i s = owners.
Proof.
  revert i. induction owners as [|o rest IH]; intros i H; simpl; [reflexivity|].
  f_equal.
  - unfold la. specialize (H 0%nat o eq_refl). change (Z.of_nat 0) with 0 in H.
    rewrite Z.add_0_r in H. exact H.
  - apply IH. intros j x Hj. specialize (H (S j) x Hj).
    rewrite Nat2Z.inj_succ in H.
    replace (i + 1 + Z.of_nat j) with (i + Z.succ (Z.of_nat j)) by lia. exact H.
Qed.

Lemma u8_count (c : Z) : is_u8 c -> u8 (Z.land (lo1 (u32 c)) 255) = c.
Proof.
  unfold is_u8, u8, u32, lo1. intros Hc. rewrite land_255.
  change (2 ^ 8) with 256.
  rewrite (Z.mod_small c (2 ^ 32)) by lia.
  rewrite (Z.mod_small c (2 ^ 64)) by lia.
  rewrite Z.mod_mod by lia. apply Z.mod_small. lia.
Qed.

Lemma u32_small (c : Z) : is_u8 c -> u32 c = c.
Proof. unfold is_u8, u32. intros Hc. apply Z.mod_small. lia. Qed.

(** ** [createVault], guard by guard *)

Lemma createVault_owner_error (token oc : Z) (owners : list Z) (th : Z) (s : storage)
    (msg : string) (s1 : storage) :
  (oc <? 2) = false -> (oc >? MAX_OWNERS) = false ->
  readOwners (vaultCount s) owners (Z.to_nat oc) 0 [] s = Revert msg s1 ->
  createVault token oc owners th s = Revert msg s1.
Proof.
  intros G1 G2 Hrun. unfold createVault, vaultCount in *. rewrite G1, G2.
  run_unfold. rewrite Hrun. reflexivity.
Qed.

Lemma createVault_after_owners (token oc : Z) (owners : list Z) (th : Z)
    (s s1 : storage) :
  (oc <? 2) = false -> (oc >? MAX_OWNERS) = false ->
  readOwners (vaultCount s) owners (Z.to_nat oc) 0 [] s = Done tt s1 ->
  createVault token oc owners th s =
  if th <? 2 then Revert "min threshold 2" s1
  else if th >? oc then Revert "threshold > owners" s1
  else if (vaultCount s + 1) mod 2 ^ 256 <? vaultCount s
       then Revert "SafeMath: addition overflow"
              (configuredState token oc th (vaultCount s) s1)
  else Done (vaultCount s) (createdState token oc th (vaultCount s) s1).
Proof.
  intros G1 G2 Hrun. unfold createVault, vaultCount, createdState, configuredState in *.
  rewrite G1, G2. run_unfold. rewrite Hrun. run_unfold.
  destruct (th <? 2); run_unfold; [same|].
  destruct (th >? oc); run_unfold; [same|].
  destruct ((lu vaultCountKey s + 1) mod 2 ^ 256 <? lu vaultCountKey s);
    run_unfold; same.
Qed.

Lemma revert_rejects {A : Type} (msg : string) (e : VaultError) (s s1 : storage) :
  error_kind msg = Some e -> vaultCount s1 = vaultCount s ->
  rejects (@Revert A msg s1) e s.
Proof. intros He Hc. exists msg, s1. repeat apply conj; auto. Qed.

Lemma writeOwners_vaultCount (v : Z) (owners : list Z) (i : Z) (s : storage) :
  vaultCount (writeOwners v owners i s) = vaultCount s.
Proof.
  unfold vaultCount, lu. apply writeOwners_other. intros j. keys_ne.
Qed.

(** C6: [createVault] accepts exactly the well-formed vaults.  With
    [ownerCount] in [2,10], [threshold] in [2, ownerCount] and pairwise
    distinct non-zero owners it succeeds, returns the prior value of the
    vault counter as the new id, increments the counter by exactly 1, and
    [getVaultInfo] on the new id returns the given owners in the given order
    together with the given threshold, owner count and asset.  An owner count
    outside [2,10], a zero owner, a duplicate owner or a threshold outside
    [2, ownerCount] makes it fail with the corresponding error
    ([InvalidOwnerCount], [ZeroAddressOwner], [DuplicateOwner],
    [InvalidThreshold]) and leaves the vault counter unchanged.  (The calldata
    carries [ownerCount] owners, and the 256-bit counter is not exhausted.) *)
Theorem C6_createVault_validity (s : storage) (token oc : Z) (owners : list Z) (th : Z) :
  length owners = Z.to_nat oc ->
  (2 <= oc <= 10 -> 2 <= th <= oc -> 0 ∉ owners -> NoDup owners ->
   is_u256 (vaultCount s) -> vaultCount s < MAX_U256 ->
   exists s' info,
     createVault token oc owners th s = Done (vaultCount s) s' /\
     vaultCount s' = vaultCount s + 1 /\
     getVaultInfo (vaultCount s) s' = Done info s' /\
     vi_owners info = owners /\ vi_threshold info = th /\
     vi_ownerCount info = oc /\ vi_token info = token) /\
  (~ 2 <= oc <= 10 ->
   rejects (createVault token oc owners th s) InvalidOwnerCount s) /\
  (2 <= oc <= 10 -> 0 ∈ owners -> NoDup owners ->
   rejects (createVault token oc owners th s) ZeroAddressOwner s) /\
  (2 <= oc <= 10 -> 0 ∉ owners -> ~ NoDup owners ->
   rejects (createVault token oc owners th s) DuplicateOwner s) /\
  (2 <= oc <= 10 -> 0 ∈ owners -> ~ NoDup owners ->
   rejects (createVault token oc owners th s) ZeroAddressOwner s \/
   rejects (createVault token oc owners th s) DuplicateOwner s) /\
  (2 <= oc <= 10 -> 0 ∉ owners -> NoDup owners -> ~ 2 <= th <= oc ->
   rejects (createVault token oc owners th s) InvalidThreshold s).
Proof.
  intros Hlen.
  assert (Hbad : 2 <= oc <= 10 -> 0 ∈ owners \/ ~ NoDup owners ->
            exists msg s1,
              createVault token oc owners th s = Revert msg s1 /\
              vaultCount s1 = vaultCount s /\
              ((msg = "zero address" /\ 0 ∈ owners) \/
               (msg = "duplicate owner" /\ ~ NoDup owners))).
  { intros Hoc Hv.
    destruct (readOwners_bad (vaultCount s) owners 0 [] s) as
      [msg [s1 [Hrun [[written ->] Hwhy]]]]; [exact Hv | constructor |].
    rewrite Hlen in Hrun. exists msg, (writeOwners (vaultCount s) written 0 s).
    split; [|split; [apply writeOwners_vaultCount | exact Hwhy]].
    apply createVault_owner_error; [lia | unfold MAX_OWNERS; lia | exact Hrun]. }
  assert (Hgood : 2 <= oc <= 10 -> 0 ∉ owners -> NoDup owners ->
            readOwners (vaultCount s) owners (Z.to_nat oc) 0 [] s
            = Done tt (writeOwners (vaultCount s) owners 0 s)).
  { intros Hoc Hz Hnd. rewrite <- Hlen. apply readOwners_ok; assumption. }
  repeat apply conj.
  - (* a well-formed vault *)
    intros Hoc Hth Hz Hnd Hc Hmax.
    assert (Hnext : (vaultCount s + 1) mod 2 ^ 256 = vaultCount s + 1).
    { apply Z.mod_small. unfold is_u256, MAX_U256 in *. lia. }
    set (n := vaultCount s) in *.
    set (s1 := writeOwners n owners 0 s).
    exists (createdState token oc th n s1).
    eexists. split; [|split; [|split]].
    + rewrite (createVault_after_owners token oc owners th s s1);
        [| lia | unfold MAX_OWNERS; lia | apply Hgood; assumption].
      fold n. rewrite Hnext.
      replace (th <? 2) with false by lia.
      replace (th >? oc) with false by lia.
      replace (n + 1 <? n) with false by lia. reflexivity.
    + unfold createdState, vaultCount, lu, su. reads. exact Hnext.
    + unfold getVaultInfo, bind. rewrite requireVault_eq.
      replace (n >=? vaultCount (createdState token oc th n s1)) with false.
      2:{ unfold createdState, vaultCount, lu, su. reads. lia. }
      run_unfold. reflexivity.
    + cbn [vi_owners vi_threshold vi_ownerCount vi_token].
      unfold createdState, configuredState, lu, la, su, sa. reads.
      rewrite u8_count by (unfold is_u8; lia).
      rewrite !u32_small by (unfold is_u8; lia).
      repeat apply conj; try same.
      rewrite <- Hlen. apply collectOwners_written.
      intros j o Hj. reads. subst s1. apply writeOwners_slot. exact Hj.
  - (* owner count *)
    intros Hoc. unfold createVault.
    destruct (oc <? 2) eqn:E1.
    + apply revert_rejects; reflexivity.
    + destruct (oc >? MAX_OWNERS) eqn:E2.
      * apply revert_rejects; reflexivity.
      * unfold MAX_OWNERS in E2. lia.
  - (* a zero owner *)
    intros Hoc Hz Hnd.
    destruct (Hbad Hoc (or_introl Hz)) as [msg [s1 [-> [Hc [[-> _]|[_ H]]]]]];
      [apply revert_rejects; [reflexivity | exact Hc] | contradiction].
  - (* a duplicate owner *)
    intros Hoc Hz Hnd.
    destruct (Hbad Hoc (or_intror Hnd)) as [msg [s1 [-> [Hc [[_ H]|[-> _]]]]]];
      [contradiction | apply revert_rejects; [reflexivity | exact Hc]].
  - (* both *)
    intros Hoc Hz Hnd.
    destruct (Hbad Hoc (or_introl Hz)) as [msg [s1 [-> [Hc [[-> _]|[-> _]]]]]];
      [left | right]; (apply revert_rejects; [reflexivity | exact Hc]).
  - (* threshold *)
    intros Hoc Hz Hnd Hth.
    rewrite (createVault_after_owners token oc owners th s
               (writeOwners (vaultCount s) owners 0 s));
      [| lia | unfold MAX_OWNERS; lia | apply Hgood; assumption].
    destruct (th <? 2) eqn:E1.
    + apply revert_rejects; [reflexivity | apply writeOwners_vaultCount].
    + destruct (th >? oc) eqn:E2.
      * apply revert_rejects; [reflexivity | apply writeOwners_vaultCount].
      * lia.
Qed.

(** ** Counting approval flags *)

Lemma countFlags_ext (s s' : storage) (v v' : Z) (n : nat) (i : Z) :
  (forall j, i <= j < i + Z.of_nat n -> flag_at s' v' j = flag_at s v j) ->
  countFlags s' v' n i = countFlags s v n i.
Proof.
  revert i. induction n as [|n IH]; intros i H; simpl; [reflexivity|].
  rewrite (H i) by lia. rewrite IH; [reflexivity|].
  intros j Hj. apply H. lia.
Qed.

Lemma countFlags_bounds (s : storage) (v : Z) (n : nat) (i : Z) :
  0 <= countFlags s v n i <= Z.of_nat n.
Proof.
  revert i. induction n as [|n IH]; intros i; simpl; [lia|].
  specialize (IH (i + 1)). destruct (flag_at s v i =? 0); lia.
Qed.

Lemma countFlags_zero (s : storage) (v : Z) (n : nat) (i : Z) :
  (forall j, i <= j < i + Z.of_nat n -> flag_at s v j = 0) ->
  countFlags s v n i = 0.
Proof.
  revert i. induction n as [|n IH]; intros i H; simpl; [reflexivity|].
  rewrite (H i) by lia. rewrite IH; [reflexivity|].
  intros j Hj. apply H. lia.
Qed.

Lemma countFlags_pos (s : storage) (v : Z) (n : nat) (i idx : Z) :
  i <= idx < i + Z.of_nat n -> flag_at s v idx <> 0 -> 1 <= countFlags s v n i.
Proof.
  revert i. induction n as [|n IH]; intros i Hi Hf; simpl; [lia|].
  pose proof (countFlags_bounds s v n (i + 1)).
  destruct (Z.eq_dec idx i) as [->|Hne].
  - apply Z.eqb_neq in Hf. rewrite Hf. lia.
  - specialize (IH (i + 1) ltac:(lia) Hf). destruct (flag_at s v i =? 0); lia.
Qed.

(** Setting one flag that was clear adds exactly one to the count. *)
Lemma countFlags_raise (s s' : storage) (v : Z) (n : nat) (i idx : Z) :
  i <= idx < i + Z.of_nat n ->
  flag_at s v idx = 0 -> flag_at s' v idx <> 0 ->
  (forall j, j <> idx -> flag_at s' v j = flag_at s v j) ->
  countFlags s' v n i = countFlags s v n i + 1.
Proof.
  revert i. induction n as [|n IH]; intros i Hi H0 H1 Hrest; simpl; [lia|].
  destruct (Z.eq_dec idx i) as [->|Hne].
  - rewrite H0. apply Z.eqb_neq in H1. rewrite H1. simpl.
    rewrite (countFlags_ext s s' v v n (i + 1)); [lia|].
    intros j Hj. apply Hrest. lia.
  - rewrite (Hrest i) by congruence. rewrite IH by (assumption || lia). lia.
Qed.

(** One flag set and all others clear count for one. *)
Lemma countFlags_one (s : storage) (v : Z) (n : nat) (i idx : Z) :
  i <= idx < i + Z.of_nat n -> flag_at s v idx <> 0 ->
  (forall j, i <= j < i + Z.of_nat n -> j <> idx -> flag_at s v j = 0) ->
  countFlags s v n i = 1.
Proof.
  revert i. induction n as [|n IH]; intros i Hi H1 Hrest; simpl; [lia|].
  destruct (Z.eq_dec idx i) as [->|Hne].
  - apply Z.eqb_neq in H1. rewrite H1.
    rewrite countFlags_zero; [reflexivity|].
    intros j Hj. apply Hrest; lia.
  - rewrite (Hrest i) by lia. simpl. apply IH; [lia | assumption |].
    intros j Hj. apply Hrest. lia.
Qed.

(** ** The owner scan *)

Lemma scanOwners_found (v who : Z) (n : nat) (i idx : Z) (s : storage) :
  scanOwners v who n i s = Some idx ->
  i <= idx < i + Z.of_nat n /\ owner_at s v idx = who.
Proof.
  revert i. induction n as [|n IH]; intros i H; simpl in H; [discriminate|].
  destruct (la (idxKey pOwner v i) s =? who) eqn:E.
  - injection H as <-. apply Z.eqb_eq in E. split; [lia | exact E].
  - apply IH in H. split; [lia | tauto].
Qed.

Lemma getOwnerCount_range (v : Z) (s : storage) : 0 <= getOwnerCount v s < 256.
Proof. unfold getOwnerCount, u8. apply Z.mod_pos_bound. lia. Qed.

Lemma owner_index_range (s : storage) (tx : Tx) (v idx : Z) :
  owner_index s tx v idx -> 0 <= idx < getOwnerCount v s.
Proof.
  unfold owner_index. intros H. apply scanOwners_found in H.
  pose proof (getOwnerCount_range v s). lia.
Qed.

(** ** Stored words *)

Lemma word_set (k : list Z) (x : Z) (s : storage) :
  is_u256 x -> word_storage s -> word_storage (setStorageAt k x s).
Proof.
  intros Hx Hs k'. destruct (decide (k' = k)) as [->|Hne].
  - rewrite get_set_eq. exact Hx.
  - rewrite get_set_ne by assumption. apply Hs.
Qed.

Lemma word_clearFlags (v : Z) (n : nat) (i : Z) (s : storage) :
  word_storage s -> word_storage (clearFlags v n i s).
Proof.
  revert i s. induction n as [|n IH]; intros i s Hs; simpl; [assumption|].
  apply IH. unfold su. apply word_set; [unfold is_u256, ZERO; lia | assumption].
Qed.

Lemma word_empty : word_storage ∅.
Proof. intros k. rewrite get_empty. unfold is_u256. lia. Qed.

Lemma mod_u256 (x : Z) : is_u256 (x mod 2 ^ 256).
Proof. unfold is_u256. apply Z.mod_pos_bound. lia. Qed.

Lemma u32_u256 (x : Z) : is_u256 (u32 x).
Proof.
  unfold is_u256, u32. pose proof (Z.mod_pos_bound x (2 ^ 32) ltac:(lia)). lia.
Qed.

Ltac words :=
  repeat first
    [ assumption
    | apply mod_u256
    | apply u32_u256
    | apply word_clearFlags
    | apply writeOwners_words
    | apply word_set
    | (unfold is_u256, ZERO, ONE; lia) ].

Lemma word_cleared (v : Z) (s : storage) :
  word_storage s -> word_storage (clearedState v s).
Proof. intros Hs. unfold clearedState, su. words. Qed.

(** ** The invariant of reachable storages *)

(** Vault ids with the same 32 low bits name the same slots. *)
Lemma vault_sound_alias (s : storage) (v v0 : Z) :
  id32 v = id32 v0 -> vault_sound s v0 -> vault_sound s v.
Proof.
  intros E. unfold vault_sound, getOwnerCount, hasProposal_of, propAmount_of,
    balance_of, approvals_of.
  rewrite !(fieldKey_id32 _ v v0 E).
  rewrite (countFlags_ext s s v0 v 10 0); [tauto|].
  intros j _. unfold flag_at. rewrite (idxKey_id32 _ v v0 j E). reflexivity.
Qed.

Lemma vault_sound_frame (s s' : storage) (v : Z) :
  getStorageAt (fieldKey pOwnerCount v) s' = getStorageAt (fieldKey pOwnerCount v) s ->
  getStorageAt (fieldKey pHasProposal v) s' = getStorageAt (fieldKey pHasProposal v) s ->
  getStorageAt (fieldKey pPropAmount v) s' = getStorageAt (fieldKey pPropAmount v) s ->
  getStorageAt (fieldKey pBalance v) s' = getStorageAt (fieldKey pBalance v) s ->
  getStorageAt (fieldKey pPropApprovals v) s' = getStorageAt (fieldKey pPropApprovals v) s ->
  (forall j, getStorageAt (idxKey pApproval v j) s' = getStorageAt (idxKey pApproval v j) s) ->
  vault_sound s v -> vault_sound s' v.
Proof.
  intros E1 E2 E3 E4 E5 E6.
  unfold vault_sound, getOwnerCount, hasProposal_of, propAmount_of, balance_of,
    approvals_of, lu.
  rewrite E1, E2, E3, E4, E5.
  rewrite (countFlags_ext s s' v v 10 0); [tauto|].
  intros j _. unfold flag_at, lu. apply E6.
Qed.

(** Prove [vault_sound] for every vault after a call on vault [v0]: the
    vaults that share its slots follow it, the others are untouched. *)
Ltac every_vault v v0 :=
  destruct (Z.eq_dec (id32 v) (id32 v0)) as [Ealias|Hother];
  [ apply (vault_sound_alias _ v v0 Ealias)
  | match goal with
    | H : forall v, vault_sound _ v |- _ =>
        apply (fun s => vault_sound_frame s _ v) with (7 := H v);
        intros; unfold_views; reads; same
    end ].

Lemma sound_deposited (s : storage) (v0 amount : Z) :
  sound s ->
  ((balance_of s v0 + amount) mod 2 ^ 256 <? balance_of s v0) = false ->
  sound (depositedState v0 amount s).
Proof.
  intros [Hw Hs] Hadd. split.
  - unfold depositedState, su. words.
  - intros v. unfold depositedState. every_vault v v0.
    destruct (Hs v0) as [Hc Hp]. unfold vault_sound in *.
    rewrite (countFlags_ext s _ v0 v0 10 0).
    + unfold_views_all. reads. split; [exact Hc|]. intros Hact.
      specialize (Hp Hact). lia.
    + intros j _. unfold_views. reads. same.
Qed.

Lemma sound_executed (s : storage) (v0 : Z) : sound s -> sound (executedState v0 s).
Proof.
  intros [Hw Hs]. split.
  - unfold executedState, su. apply word_cleared. words.
  - intros v. unfold executedState, clearedState. every_vault v v0.
    destruct (Hs v0) as [Hc _]. unfold vault_sound in *.
    unfold_views_all. reads. split; [exact Hc|]. intros Hact. congruence.
Qed.

Lemma sound_approved (s : storage) (tx : Tx) (v0 idx : Z) :
  sound s -> owner_index s tx v0 idx ->
  hasProposal_of s v0 <> 0 -> flag_at s v0 idx = 0 ->
  sound (approvedState v0 idx s) /\
  (approvals_of s v0 + 1) mod 2 ^ 256 = approvals_of s v0 + 1.
Proof.
  intros [Hw Hs] Hidx Hact Hflag.
  apply owner_index_range in Hidx.
  destruct (Hs v0) as [Hc Hp]. specialize (Hp Hact).
  pose proof (countFlags_bounds s v0 10 0) as Hb.
  assert (Hnext : (approvals_of s v0 + 1) mod 2 ^ 256 = approvals_of s v0 + 1)
    by (apply Z.mod_small; lia).
  split; [|exact Hnext]. split.
  - unfold approvedState, su. words.
  - intros v. unfold approvedState. every_vault v v0.
    unfold vault_sound. fold (approvals_of s v0). rewrite Hnext.
    assert (Hraise : countFlags (su (fieldKey pPropApprovals v0) (approvals_of s v0 + 1)
                                   (su (idxKey pApproval v0 idx) 1 s)) v0 10 0
                     = countFlags s v0 10 0 + 1).
    { apply (countFlags_raise s _ v0 10 0 idx); [lia | exact Hflag | |].
      - unfold_views. reads. lia.
      - intros j Hj. unfold_views. reads. same. }
    rewrite Hraise. unfold_views_all. reads. split; [exact Hc|]. intros _. lia.
Qed.

Lemma sound_proposed (s : storage) (tx : Tx) (v0 idx to amount : Z) :
  sound s -> owner_index s tx v0 idx ->
  is_u256 to -> 0 < amount <= balance_of s v0 -> is_u256 amount ->
  sound (proposedState v0 idx to amount
           (if hasProposal_of s v0 =? 0 then s else clearedState v0 s)).
Proof.
  intros [Hw Hs] Hidx Hto Hamt Hamt'.
  apply owner_index_range in Hidx.
  destruct (Hs v0) as [Hc _].
  set (s0 := if hasProposal_of s v0 =? 0 then s else clearedState v0 s).
  assert (Hw0 : word_storage s0).
  { subst s0. destruct (_ =? 0); [assumption | apply word_cleared; assumption]. }
  split.
  - unfold proposedState, proposingState, su, sa. words.
  - intros v. unfold proposedState, proposingState.
    destruct (Z.eq_dec (id32 v) (id32 v0)) as [Ealias|Hother].
    + apply (vault_sound_alias _ v v0 Ealias). unfold vault_sound.
      match goal with
      | |- context [countFlags ?st v0 10 0] =>
          assert (Hpos : 1 <= countFlags st v0 10 0)
      end.
      { apply (countFlags_pos _ v0 10 0 idx); [lia|]. unfold_views. reads. lia. }
      assert (Hcount : getStorageAt (fieldKey pOwnerCount v0) s0
                       = getStorageAt (fieldKey pOwnerCount v0) s).
      { subst s0. destruct (_ =? 0); [same|]. unfold clearedState, su. reads. same. }
      assert (Hbal : getStorageAt (fieldKey pBalance v0) s0
                     = getStorageAt (fieldKey pBalance v0) s).
      { subst s0. destruct (_ =? 0); [same|]. unfold clearedState, su. reads. same. }
      unfold_views_all. reads. rewrite Hcount, Hbal.
      split; [exact Hc|]. intros _. lia.
    + apply (fun s => vault_sound_frame s _ v) with (7 := Hs v);
        intros; subst s0; destruct (_ =? 0); unfold clearedState; unfold_views;
        reads; same.
Qed.

Lemma sound_created (s : storage) (token oc th : Z) (written : list Z) :
  sound s -> 2 <= oc <= 10 -> is_u256 token -> Forall is_u256 written ->
  sound (createdState token oc th (vaultCount s)
           (writeOwners (vaultCount s) written 0 s)).
Proof.
  intros [Hw Hs] Hoc Htok Hwr. set (n := vaultCount s). split.
  - unfold createdState, configuredState, su, sa. words.
  - intros v. unfold createdState, configuredState.
    destruct (Hs v) as [Hc Hp].
    destruct (Z.eq_dec (id32 v) (id32 n)) as [Ealias|Hother].
    + apply (vault_sound_alias _ v n Ealias).
      apply (vault_sound_alias _ n v (eq_sym Ealias)) in Hs.
      destruct Hs as [_ Hp'].
      unfold vault_sound in *.
      match goal with
      | |- context [countFlags ?st n 10 0] =>
          rewrite (countFlags_ext s st n n 10 0)
      end.
      2:{ intros j _. unfold_views. reads. same. }
      unfold_views_all. reads. rewrite u8_count by (unfold is_u8; lia).
      split; [lia | exact Hp'].
    + apply (fun s => vault_sound_frame s _ v) with (7 := Hs v);
        intros; unfold_views; reads; same.
Qed.

Lemma sound_empty : sound ∅.
Proof.
  split; [apply word_empty|]. intros v. unfold vault_sound.
  unfold_views. reads. split.
  - replace (u8 (Z.land (lo1 0) 255)) with 0 by reflexivity. lia.
  - intros H. congruence.
Qed.

(** What a [createVault] call commits: nothing, or a new vault. *)
Lemma createVault_commit (ext : ExtCall -> bool) (token oc : Z) (owners : list Z)
    (th : Z) (s : storage) :
  commit s (host ext (createVault token oc owners th s)) = s \/
  exists written rest,
    owners = written ++ rest /\ 2 <= oc <= 10 /\ 2 <= th <= oc /\
    ((vaultCount s + 1) mod 2 ^ 256 <? vaultCount s) = false /\
    commit s (host ext (createVault token oc owners th s))
    = createdState token oc th (vaultCount s)
        (writeOwners (vaultCount s) written 0 s).
Proof.
  destruct (oc <? 2) eqn:G1; [left; unfold createVault; rewrite G1; reflexivity|].
  destruct (oc >? MAX_OWNERS) eqn:G2;
    [left; unfold createVault; rewrite G1, G2; reflexivity|].
  destruct (readOwners_shape (vaultCount s) owners (Z.to_nat oc) 0 [] s)
    as [written [[Hrun | [msg Hrun]] [rest Hrest]]].
  - rewrite (createVault_after_owners _ _ _ _ _ _ G1 G2 Hrun).
    destruct (th <? 2) eqn:G3; [left; reflexivity|].
    destruct (th >? oc) eqn:G4; [left; reflexivity|].
    destruct (_ <? vaultCount s) eqn:G5; [left; reflexivity|].
    right. exists written, rest. unfold MAX_OWNERS in G2.
    repeat apply conj; try lia; try assumption. reflexivity.
  - left. rewrite (createVault_owner_error _ _ _ _ _ _ _ G1 G2 Hrun). reflexivity.
Qed.

(** Every call keeps the invariant. *)
Lemma transact_sound (ext : ExtCall -> bool) (tx : Tx) (c : Call) (s : storage) :
  sound s -> wf_call tx c -> sound (transact ext tx c s).
Proof.
  intros Hs [Hsender [Hself Hc]]. destruct c as [token oc owners th | v amount | v to amount | v | v];
    unfold transact.
  - destruct (createVault_commit ext token oc owners th s)
      as [-> | [written [rest [Hrest [Hoc [Hth [Hadd ->]]]]]]]; [assumption|].
    destruct Hc as [Htok [_ [Hown _]]]. subst owners.
    apply Forall_app in Hown. destruct Hown as [Hown _].
    apply sound_created; assumption.
  - rewrite deposit_host.
    destruct (v >=? vaultCount s); [assumption|].
    destruct (amount =? 0); [assumption|].
    destruct (ext _); [|assumption].
    destruct (_ <? balance_of s v) eqn:Hadd; [assumption|].
    apply sound_deposited; assumption.
  - rewrite propose_host.
    destruct (v >=? vaultCount s); [assumption|].
    destruct (scanOwners _ _ _ _ _) as [idx|] eqn:Hidx; [|assumption].
    destruct (amount =? 0) eqn:Hz; [assumption|].
    destruct (to =? 0); [assumption|].
    destruct (amount >? balance_of s v) eqn:Hbal; [assumption|].
    cbv zeta. destruct (_ <? totalProposals_of s v); [assumption|].
    destruct Hc as [_ [Hto Hamt]]. unfold commit.
    apply (sound_proposed s tx v idx to amount); try assumption.
    unfold is_u256 in Hamt. lia.
  - rewrite approve_host.
    destruct (v >=? vaultCount s); [assumption|].
    destruct (scanOwners _ _ _ _ _) as [idx|] eqn:Hidx; [|assumption].
    destruct (hasProposal_of s v =? 0) eqn:Hact; [assumption|].
    destruct (flag_at s v idx =? 0) eqn:Hflag; [|assumption].
    destruct (_ <? approvals_of s v); [assumption|].
    apply (sound_approved s tx v idx); try assumption; lia.
  - rewrite executeProposal_host.
    destruct (v >=? vaultCount s); [assumption|].
    destruct (hasProposal_of s v =? 0); [assumption|].
    destruct (approvals_of s v <? threshold_of s v); [assumption|].
    destruct (balance_of s v <? propAmount_of s v); [assumption|].
    destruct (ext _); [|assumption].
    apply sound_executed; assumption.
Qed.

Lemma reachable_sound (s : storage) : reachable s -> sound s.
Proof.
  induction 1 as [|s ext tx c _ IH Hwf]; [apply sound_empty|].
  apply transact_sound; assumption.
Qed.

(** ** Executing a proposal *)

Lemma getProposal_inactive (v : Z) (s : storage) :
  v < vaultCount s -> hasProposal_of s v = 0 ->
  fails_with (getProposal v s) NoActiveProposal s.
Proof.
  intros Hv Hp. exists "no active proposal". split; [|reflexivity].
  unfold getProposal, bind. rewrite requireVault_eq.
  replace (v >=? vaultCount s) with false by lia.
  run_unfold. fold (hasProposal_of s v). rewrite Hp. reflexivity.
Qed.

Lemma getProposal_active (v : Z) (s : storage) :
  v < vaultCount s -> hasProposal_of s v <> 0 ->
  getProposal v s = Done (propTo_of s v, propAmount_of s v, approvals_of s v) s.
Proof.
  intros Hv Hp. unfold getProposal, bind. rewrite requireVault_eq.
  replace (v >=? vaultCount s) with false by lia.
  run_unfold. fold (hasProposal_of s v).
  replace (hasProposal_of s v =? 0) with false by lia. reflexivity.
Qed.

(** What [executeProposal] has done to the vault by the time it calls out. *)
Lemma executedState_fields (s : storage) (v : Z) :
  vaultCount (executedState v s) = vaultCount s /\
  balance_of (executedState v s) v
  = (balance_of s v - propAmount_of s v) mod 2 ^ 256 /\
  propTo_of (executedState v s) v = 0 /\
  propAmount_of (executedState v s) v = 0 /\
  approvals_of (executedState v s) v = 0 /\
  hasProposal_of (executedState v s) v = 0 /\
  (forall i, 0 <= i < getOwnerCount v s -> flag_at (executedState v s) v i = 0).
Proof.
  unfold executedState.
  destruct (clearedState_fields v
              (su (fieldKey pBalance v)
                 ((lu (fieldKey pBalance v) s - lu (fieldKey pPropAmount v) s)
                  mod 2 ^ 256) s)) as [H1 [H2 [H3 [H4 H5]]]].
  repeat apply conj; try assumption.
  - unfold clearedState. unfold_views. reads. same.
  - unfold clearedState. unfold_views. reads. same.
  - intros i Hi. apply H5.
    rewrite (getOwnerCount_frame v s); [exact Hi|]. unfold su. reads. same.
Qed.

(** C8: the balance debit of [executeProposal] is a checked subtraction
    whose failure branch is never taken.  In every reachable storage in which
    [executeProposal] passes its guards (the vault exists, a proposal is
    active, approvals >= threshold) the proposal's amount is at most the
    vault's balance, so the run reaches the transfer; and the subtraction is
    checked: in whatever storage the amount exceeded the balance, the call
    would abort instead of wrapping around. *)
Theorem C8_debit_never_underflows (s : storage) (v : Z) :
  reachable s -> v < vaultCount s -> hasProposal_of s v <> 0 ->
  threshold_of s v <= approvals_of s v ->
  propAmount_of s v <= balance_of s v /\
  executeProposal v s
  = External (ExtTransfer (token_of s v) (propTo_of s v) (propAmount_of s v))
      (executedState v s) (fun s' => Done true s') /\
  (forall s0 : storage,
      v < vaultCount s0 -> hasProposal_of s0 v <> 0 ->
      threshold_of s0 v <= approvals_of s0 v ->
      balance_of s0 v < propAmount_of s0 v ->
      executeProposal v s0 = Revert "SafeMath: subtraction underflow" s0).
Proof.
  intros Hr Hv Hp Hq.
  destruct (reachable_sound s Hr) as [_ Hs].
  destruct (Hs v) as [_ Hact]. specialize (Hact Hp).
  split; [lia|]. split.
  - rewrite executeProposal_eq.
    replace (v >=? vaultCount s) with false by lia.
    replace (hasProposal_of s v =? 0) with false by lia.
    replace (approvals_of s v <? threshold_of s v) with false by lia.
    replace (balance_of s v <? propAmount_of s v) with false by lia.
    reflexivity.
  - intros s0 Hv0 Hp0 Hq0 Hlt. rewrite executeProposal_eq.
    replace (v >=? vaultCount s0) with false by lia.
    replace (hasProposal_of s0 v =? 0) with false by lia.
    replace (approvals_of s0 v <? threshold_of s0 v) with false by lia.
    replace (balance_of s0 v <? propAmount_of s0 v) with true by lia.
    reflexivity.
Qed.

(** C1: execution is gated by the quorum.  For every vault with an active
    proposal, [executeProposal] fails with [ThresholdNotMet] whenever
    approvals < threshold, and then nothing is written: balance, hasProposal
    and every proposal field are unchanged.  Whenever approvals >= threshold
    (and the asset contract accepts the transfer) it succeeds, the balance is
    decremented by exactly the proposal's amount, hasProposal is false, and a
    subsequent [getProposal] fails with [NoActiveProposal]. *)
Theorem C1_execute_quorum_gated (ext : ExtCall -> bool) (tx : Tx) (s : storage) (v : Z) :
  reachable s -> v < vaultCount s -> hasProposal_of s v <> 0 ->
  (approvals_of s v < threshold_of s v ->
   fails_with (executeProposal v s) ThresholdNotMet s /\
   transact ext tx (ExecuteProposal v) s = s) /\
  (threshold_of s v <= approvals_of s v ->
   ext (ExtTransfer (token_of s v) (propTo_of s v) (propAmount_of s v)) = true ->
   exists s',
     host ext (executeProposal v s) = Success true s' /\
     transact ext tx (ExecuteProposal v) s = s' /\
     balance_of s' v = balance_of s v - propAmount_of s v /\
     hasProposal_of s' v = 0 /\
     fails_with (getProposal v s') NoActiveProposal s').
Proof.
  intros Hr Hv Hp.
  destruct (reachable_sound s Hr) as [Hw Hs].
  destruct (Hs v) as [_ Hact]. specialize (Hact Hp).
  split.
  - intros Hlt.
    assert (E : executeProposal v s = Revert "threshold not met" s).
    { rewrite executeProposal_eq.
      replace (v >=? vaultCount s) with false by lia.
      replace (hasProposal_of s v =? 0) with false by lia.
      replace (approvals_of s v <? threshold_of s v) with true by lia.
      reflexivity. }
    split.
    + exists "threshold not met". split; [exact E | reflexivity].
    + unfold transact. rewrite E. reflexivity.
  - intros Hq Hext.
    assert (E : host ext (executeProposal v s) = Success true (executedState v s)).
    { rewrite executeProposal_host.
      replace (v >=? vaultCount s) with false by lia.
      replace (hasProposal_of s v =? 0) with false by lia.
      replace (approvals_of s v <? threshold_of s v) with false by lia.
      replace (balance_of s v <? propAmount_of s v) with false by lia.
      rewrite Hext. reflexivity. }
    destruct (executedState_fields s v) as [Hc [Hb [_ [_ [_ [Hh _]]]]]].
    exists (executedState v s). repeat apply conj.
    + exact E.
    + unfold transact. rewrite E. reflexivity.
    + rewrite Hb. apply Z.mod_small.
      pose proof (Hw (fieldKey pBalance v)) as Hbal.
      unfold is_u256, balance_of, lu in *. lia.
    + exact Hh.
    + apply getProposal_inactive; [rewrite Hc; exact Hv | exact Hh].
Qed.

(** C2: checks, effects, interaction.  In every successful run of
    [executeProposal] the run suspends exactly once, at the transfer to the
    recipient, and the storage it exposes at that moment is fully settled:
    the balance is already debited by the proposal's amount and the proposal
    (recipient, amount, approvals, every owner's approval flag, hasProposal)
    is already cleared.  Nothing is written after the call returns, so the
    storage exposed to the asset contract is the one the call commits: it is
    itself a reachable storage, never a half-updated one. *)
Theorem C2_settled_before_transfer (ext : ExtCall -> bool) (s : storage) (v : Z)
    (r : bool) (s_final : storage) :
  reachable s -> is_u256 v ->
  host ext (executeProposal v s) = Success r s_final ->
  exists s1,
    executeProposal v s
    = External (ExtTransfer (token_of s v) (propTo_of s v) (propAmount_of s v))
        s1 (fun s' => Done true s') /\
    balance_of s1 v = balance_of s v - propAmount_of s v /\
    propTo_of s1 v = 0 /\ propAmount_of s1 v = 0 /\ approvals_of s1 v = 0 /\
    (forall i, 0 <= i < getOwnerCount v s -> flag_at s1 v i = 0) /\
    hasProposal_of s1 v = 0 /\
    s_final = s1 /\ reachable s1.
Proof.
  intros Hr Hv Hrun.
  assert (Hfinal : reachable s_final).
  { replace s_final
      with (transact ext {| sender := 0; contractAddress := 0 |} (ExecuteProposal v) s)
      by (unfold transact; rewrite Hrun; reflexivity).
    apply reachable_call; [exact Hr|].
    unfold wf_call, is_u256 in *. cbn [sender contractAddress]. lia. }
  destruct (reachable_sound s Hr) as [Hw Hs].
  destruct (Hs v) as [_ Hact].
  rewrite executeProposal_host in Hrun.
  destruct (v >=? vaultCount s) eqn:G1; [discriminate|].
  destruct (hasProposal_of s v =? 0) eqn:G2; [discriminate|].
  destruct (approvals_of s v <? threshold_of s v) eqn:G3; [discriminate|].
  destruct (balance_of s v <? propAmount_of s v) eqn:G4; [discriminate|].
  destruct (ext _) eqn:G5; [|discriminate].
  injection Hrun as _ <-.
  destruct (executedState_fields s v) as [Hc [Hb [Ht [Ha [Hn [Hh Hf]]]]]].
  exists (executedState v s). repeat apply conj; try assumption.
  - rewrite executeProposal_eq, G1, G2, G3, G4. reflexivity.
  - rewrite Hb. apply Z.mod_small.
    pose proof (Hw (fieldKey pBalance v)) as Hbal.
    specialize (Hact ltac:(lia)).
    unfold is_u256, balance_of, lu in *. lia.
  - reflexivity.
Qed.

(** ** Approving *)

(** C7: one vote per owner and proposal.  For every vault with an active
    proposal and every owner (the sender, found in slot [idx]): if the
    owner's approval flag is false, [approve] succeeds, sets that flag,
    leaves the other flags alone and increments approvals by exactly 1; if
    the flag is already set (the proposer's auto-set flag included),
    [approve] fails with [AlreadyApproved] and writes nothing. *)
Theorem C7_approve_once (s : storage) (tx : Tx) (v idx : Z) :
  reachable s -> v < vaultCount s -> hasProposal_of s v <> 0 ->
  owner_index s tx v idx ->
  (flag_at s v idx = 0 ->
   exists s',
     approve tx v s = Done true s' /\
     flag_at s' v idx = 1 /\
     approvals_of s' v = approvals_of s v + 1 /\
     (forall j, j <> idx -> flag_at s' v j = flag_at s v j)) /\
  (flag_at s v idx <> 0 ->
   fails_with (approve tx v s) AlreadyApproved s).
Proof.
  intros Hr Hv Hp Hidx. pose proof Hidx as Hscan. unfold owner_index in Hscan.
  split.
  - intros Hflag.
    destruct (sound_approved s tx v idx (reachable_sound s Hr) Hidx Hp Hflag)
      as [_ Hnext].
    exists (approvedState v idx s). repeat apply conj.
    + rewrite approve_eq, Hscan, Hflag, Hnext.
      replace (v >=? vaultCount s) with false by lia.
      replace (hasProposal_of s v =? 0) with false by lia.
      replace (approvals_of s v + 1 <? approvals_of s v) with false by lia.
      reflexivity.
    + unfold approvedState. unfold_views. reads. same.
    + unfold approvedState. fold (approvals_of s v). rewrite Hnext.
      unfold_views. reads. same.
    + intros j Hj. unfold approvedState. unfold_views. reads. same.
  - intros Hflag. exists "already approved". split; [|reflexivity].
    rewrite approve_eq, Hscan.
    replace (v >=? vaultCount s) with false by lia.
    replace (hasProposal_of s v =? 0) with false by lia.
    replace (flag_at s v idx =? 0) with false by lia.
    reflexivity.
Qed.

(** ** Proposing *)

(** What a successful [propose] leaves in the vault. *)
Lemma proposedState_fields (s : storage) (v idx to amount : Z) :
  let s' := proposedState v idx to amount
              (if hasProposal_of s v =? 0 then s else clearedState v s) in
  vaultCount s' = vaultCount s /\
  hasProposal_of s' v = 1 /\
  propTo_of s' v = to /\ propAmount_of s' v = amount /\ approvals_of s' v = 1 /\
  flag_at s' v idx = 1 /\
  totalProposals_of s' v = (totalProposals_of s v + 1) mod 2 ^ 256 /\
  (hasProposal_of s v <> 0 ->
   forall i, 0 <= i < getOwnerCount v s -> i <> idx -> flag_at s' v i = 0).
Proof.
  cbv zeta. unfold proposedState, proposingState.
  repeat apply conj;
    try (destruct (hasProposal_of s v =? 0); unfold clearedState; unfold_views;
         reads; same).
  intros Hp i Hi Hne. replace (hasProposal_of s v =? 0) with false by lia.
  unfold_views. reads.
  destruct (clearedState_fields v s) as [_ [_ [_ [_ Hf]]]].
  apply Hf. exact Hi.
Qed.

(** No call ever lowers the lifetime counter of a vault. *)
Lemma transact_total_mono (ext : ExtCall -> bool) (tx : Tx) (c : Call) (s : storage)
    (v : Z) :
  totalProposals_of s v <= totalProposals_of (transact ext tx c s) v.
Proof.
  destruct c as [token oc owners th | v0 amount | v0 to amount | v0 | v0];
    unfold transact.
  - destruct (createVault_commit ext token oc owners th s)
      as [-> | [written [rest [_ [_ [_ [_ ->]]]]]]]; [lia|].
    unfold createdState, configuredState. unfold_views. reads. lia.
  - rewrite deposit_host.
    repeat (match goal with
            | |- context [if ?c then _ else _] => destruct c
            end; cbn [commit]; try lia).
    unfold depositedState. unfold_views. reads. lia.
  - rewrite propose_host.
    destruct (v0 >=? vaultCount s); cbn [commit]; [lia|].
    destruct (scanOwners _ _ _ _ _) as [idx|]; cbn [commit]; [|lia].
    destruct (amount =? 0); cbn [commit]; [lia|].
    destruct (to =? 0); cbn [commit]; [lia|].
    destruct (amount >? balance_of s v0); cbn [commit]; [lia|].
    cbv zeta. destruct (_ <? totalProposals_of s v0) eqn:Hck; cbn [commit]; [lia|].
    destruct (Z.eq_dec (id32 v) (id32 v0)) as [Ealias|Hother].
    + unfold totalProposals_of. rewrite !(fieldKey_id32 _ v v0 Ealias).
      fold (totalProposals_of s v0).
      match goal with |- _ <= lu _ ?st => fold (totalProposals_of st v0) end.
      destruct (proposedState_fields s v0 idx to amount) as [_ [_ [_ [_ [_ [_ [-> _]]]]]]].
      lia.
    + unfold proposedState, proposingState.
      destruct (_ =? 0); unfold clearedState; unfold_views; reads; lia.
  - rewrite approve_host.
    destruct (v0 >=? vaultCount s); cbn [commit]; [lia|].
    destruct (scanOwners _ _ _ _ _) as [idx|]; cbn [commit]; [|lia].
    repeat (match goal with
            | |- context [if ?c then _ else _] => destruct c
            end; cbn [commit]; try lia).
    unfold approvedState. unfold_views. reads. lia.
  - rewrite executeProposal_host.
    repeat (match goal with
            | |- context [if ?c then _ else _] => destruct c
            end; cbn [commit]; try lia).
    unfold executedState, clearedState. unfold_views. reads. lia.
Qed.

(** C4: a second proposal replaces the first one completely.  After a
    successful [propose] on a vault, [getProposal] returns exactly the new
    recipient, the new amount and approvals = 1, the proposer's flag is set,
    and the lifetime counter totalProposals has grown by exactly 1; when the
    vault had an active proposal, every other owner's approval flag is false
    afterwards, so nothing of the old proposal is left.  No call of any kind
    ever decrements totalProposals. *)
Theorem C4_propose_replaces (ext : ExtCall -> bool) (tx : Tx) (s : storage)
    (v to amount : Z) (r : bool) (s' : storage) :
  reachable s ->
  host ext (propose tx v to amount s) = Success r s' ->
  (exists idx,
    owner_index s tx v idx /\
    getProposal v s' = Done (to, amount, 1) s' /\
    flag_at s' v idx = 1 /\
    totalProposals_of s' v = totalProposals_of s v + 1 /\
    (hasProposal_of s v <> 0 ->
     forall i, 0 <= i < getOwnerCount v s -> i <> idx -> flag_at s' v i = 0)) /\
  (forall (ext' : ExtCall -> bool) (tx' : Tx) (c : Call) (v' : Z),
      totalProposals_of s v' <= totalProposals_of (transact ext' tx' c s) v').
Proof.
  intros Hr Hrun.
  destruct (reachable_sound s Hr) as [Hw _].
  split; [|intros ext' tx' c v'; apply transact_total_mono].
  rewrite propose_host in Hrun.
  destruct (v >=? vaultCount s) eqn:G1; [discriminate|].
  destruct (scanOwners _ _ _ _ _) as [idx|] eqn:G2; [|discriminate].
  destruct (amount =? 0) eqn:G3; [discriminate|].
  destruct (to =? 0) eqn:G4; [discriminate|].
  destruct (amount >? balance_of s v) eqn:G5; [discriminate|].
  cbv zeta in Hrun.
  destruct (_ <? totalProposals_of s v) eqn:G6; [discriminate|].
  injection Hrun as _ <-.
  destruct (proposedState_fields s v idx to amount)
    as [Hc [Hh [Ht [Ha [Hn [Hf [Htot Hrest]]]]]]].
  exists idx. repeat apply conj; try assumption.
  - rewrite getProposal_active by lia. rewrite Ht, Ha, Hn. reflexivity.
  - rewrite Htot. apply Z.mod_small.
    pose proof (Hw (fieldKey pTotalProposals v)) as Htotal.
    pose proof (mod_u256 (totalProposals_of s v + 1)) as Hm.
    unfold is_u256, totalProposals_of, lu in *.
    destruct (Z.eq_dec (getStorageAt (fieldKey pTotalProposals v) s + 1) (2 ^ 256))
      as [E|E]; [|lia].
    rewrite E, Z.mod_same in G6 by lia. lia.
Qed.

(** C9: any owner may replace an active proposal.  Whoever of the vault's
    owners calls [propose] with valid arguments (non-zero recipient, non-zero
    amount within the balance) succeeds, whatever the approval count of the
    proposal in place (quorum reached or not) and whoever proposed it: neither
    is a hypothesis here, because [propose] checks neither.  The old proposal
    and all its votes are gone: the new one stands with approvals = 1 and
    only the new proposer's flag set.  (The lifetime counter is not
    exhausted.) *)
Theorem C9_any_owner_replaces (s : storage) (tx : Tx) (v idx to amount : Z) :
  reachable s -> v < vaultCount s -> owner_index s tx v idx ->
  hasProposal_of s v <> 0 ->
  amount <> 0 -> to <> 0 -> amount <= balance_of s v ->
  totalProposals_of s v < MAX_U256 ->
  exists s',
    propose tx v to amount s = Done true s' /\
    getProposal v s' = Done (to, amount, 1) s' /\
    (forall i, 0 <= i < getOwnerCount v s ->
               flag_at s' v i = if i =? idx then 1 else 0).
Proof.
  intros Hr Hv Hidx Hp Hamt Hto Hbal Htot.
  destruct (reachable_sound s Hr) as [Hw _].
  pose proof Hidx as Hscan. unfold owner_index in Hscan.
  pose proof (Hw (fieldKey pTotalProposals v)) as Htotal.
  assert (Hnext : (totalProposals_of s v + 1) mod 2 ^ 256 = totalProposals_of s v + 1).
  { apply Z.mod_small. unfold is_u256, MAX_U256, totalProposals_of, lu in *. lia. }
  destruct (proposedState_fields s v idx to amount)
    as [Hc [Hh [Ht [Ha [Hn [Hf [_ Hrest]]]]]]].
  eexists. repeat apply conj.
  - rewrite propose_eq, Hscan. cbv zeta. rewrite Hnext.
    replace (v >=? vaultCount s) with false by lia.
    replace (amount =? 0) with false by lia.
    replace (to =? 0) with false by lia.
    replace (amount >? balance_of s v) with false by lia.
    replace (totalProposals_of s v + 1 <? totalProposals_of s v) with false by lia.
    reflexivity.
  - rewrite getProposal_active by lia. rewrite Ht, Ha, Hn. reflexivity.
  - intros i Hi. destruct (i =? idx) eqn:E.
    + apply Z.eqb_eq in E. subst i. exact Hf.
    + apply Z.eqb_neq in E. apply Hrest; assumption.
Qed.

(** ** Depositing *)

(** C10: [deposit] adds to the balance with a checked 256-bit addition.
    For every vault and every non-zero amount: if balance + amount fits in
    256 bits (and the asset contract accepts the pull transfer) the new
    balance is exactly balance + amount; if balance + amount exceeds the
    256-bit range the call fails, the sum never wraps around, and the storage
    (the balance in particular) is unchanged. *)
Theorem C10_deposit_checked (ext : ExtCall -> bool) (tx : Tx) (s : storage)
    (v amount : Z) :
  reachable s -> v < vaultCount s -> amount <> 0 -> is_u256 amount ->
  (balance_of s v + amount < 2 ^ 256 ->
   ext (ExtTransferFrom (token_of s v) (sender tx) (contractAddress tx) amount) = true ->
   exists s',
     host ext (deposit tx v amount s) = Success true s' /\
     transact ext tx (Deposit v amount) s = s' /\
     balance_of s' v = balance_of s v + amount) /\
  (2 ^ 256 <= balance_of s v + amount ->
   (exists msg, host ext (deposit tx v amount s) = Failure msg s) /\
   transact ext tx (Deposit v amount) s = s /\
   balance_of (transact ext tx (Deposit v amount) s) v = balance_of s v).
Proof.
  intros Hr Hv Hz Hamt.
  destruct (reachable_sound s Hr) as [Hw _].
  pose proof (Hw (fieldKey pBalance v)) as Hbal.
  fold (lu (fieldKey pBalance v) s) in Hbal. fold (balance_of s v) in Hbal.
  unfold is_u256 in *.
  split.
  - intros Hfit Hext.
    assert (Hsum : (balance_of s v + amount) mod 2 ^ 256 = balance_of s v + amount)
      by (apply Z.mod_small; lia).
    assert (E : host ext (deposit tx v amount s)
                = Success true (depositedState v amount s)).
    { rewrite deposit_host, Hext, Hsum.
      replace (v >=? vaultCount s) with false by lia.
      replace (amount =? 0) with false by lia.
      replace (balance_of s v + amount <? balance_of s v) with false by lia.
      reflexivity. }
    exists (depositedState v amount s). repeat apply conj.
    + exact E.
    + unfold transact. rewrite E. reflexivity.
    + unfold depositedState. fold (balance_of s v). rewrite Hsum.
      unfold_views. reads. same.
  - intros Hover.
    assert (Hwrap : (balance_of s v + amount) mod 2 ^ 256
                    = balance_of s v + amount - 2 ^ 256).
    { symmetry. apply (Z.mod_unique_pos _ _ 1); lia. }
    assert (E : exists msg, host ext (deposit tx v amount s) = Failure msg s).
    { rewrite deposit_host, Hwrap.
      replace (v >=? vaultCount s) with false by lia.
      replace (amount =? 0) with false by lia.
      replace (balance_of s v + amount - 2 ^ 256 <? balance_of s v) with true by lia.
      destruct (ext _); eexists; reflexivity. }
    destruct E as [msg E].
    assert (T : transact ext tx (Deposit v amount) s = s).
    { unfold transact. rewrite E. reflexivity. }
    repeat apply conj.
    + exists msg. exact E.
    + exact T.
    + rewrite T. reflexivity.
Qed.

(** ** The tally of approvals *)

Lemma getOwnerCount_stored (s : storage) (v : Z) :
  is_u8 (ownerCount_of s v) -> getOwnerCount v s = ownerCount_of s v.
Proof.
  unfold is_u8, getOwnerCount, ownerCount_of, u8, lo1. intros H.
  rewrite land_255. change (2 ^ 8) with 256.
  rewrite (Z.mod_small _ (2 ^ 64)) by lia.
  rewrite Z.mod_mod by lia. apply Z.mod_small. lia.
Qed.

Lemma vault_tallied_frame (s s' : storage) (v : Z) :
  getStorageAt (fieldKey pOwnerCount v) s' = getStorageAt (fieldKey pOwnerCount v) s ->
  getStorageAt (fieldKey pHasProposal v) s' = getStorageAt (fieldKey pHasProposal v) s ->
  getStorageAt (fieldKey pPropApprovals v) s' = getStorageAt (fieldKey pPropApprovals v) s ->
  (forall j, getStorageAt (idxKey pApproval v j) s' = getStorageAt (idxKey pApproval v j) s) ->
  vault_tallied s v -> vault_tallied s' v.
Proof.
  intros E1 E2 E3 E4.
  unfold vault_tallied, approvalCount, getOwnerCount, ownerCount_of,
    hasProposal_of, approvals_of, lu.
  rewrite E1, E2, E3.
  rewrite (countFlags_ext s s' v v _ 0) by (intros j _; unfold flag_at, lu; apply E4).
  intros [H1 [H2 H3]]. split; [exact H1|]. split; [|exact H3].
  intros Hp i Hi. unfold flag_at, lu. rewrite E4. apply (H2 Hp i Hi).
Qed.

Lemma vault_unborn_frame (s s' : storage) (v : Z) :
  getStorageAt (fieldKey pHasProposal v) s' = getStorageAt (fieldKey pHasProposal v) s ->
  (forall j, getStorageAt (idxKey pApproval v j) s' = getStorageAt (idxKey pApproval v j) s) ->
  vault_unborn s v -> vault_unborn s' v.
Proof.
  intros E2 E4. unfold vault_unborn, hasProposal_of, flag_at, lu.
  rewrite E2. intros [H1 H2]. split; [exact H1|]. intros i. rewrite E4. apply H2.
Qed.

(** A call on one vault leaves the others as they were, as long as the two
    ids differ in their 32 low bits. *)
Ltac other_vault H :=
  first
    [ apply (fun s => vault_tallied_frame s _ _) with (5 := H)
    | apply (fun s => vault_unborn_frame s _ _) with (3 := H) ];
  intros; unfold_views; reads; same.

Lemma small_ids_differ (v v0 : Z) :
  0 <= v < 2 ^ 32 -> 0 <= v0 < 2 ^ 32 -> v <> v0 -> id32 v <> id32 v0.
Proof. intros Hv Hv0 Hne. rewrite !id32_small by assumption. exact Hne. Qed.

Lemma tallied_other (s s' : storage) (v0 : Z) :
  vaultCount s' = vaultCount s ->
  (forall v, id32 v <> id32 v0 -> vault_tallied s v -> vault_tallied s' v) ->
  (forall v, id32 v <> id32 v0 -> vault_unborn s v -> vault_unborn s' v) ->
  0 <= v0 < 2 ^ 32 -> v0 < vaultCount s ->
  (vault_tallied s v0 -> vault_tallied s' v0) ->
  tallied s -> tallied s'.
Proof.
  intros Hc Hf1 Hf2 Hv0 Hlt Hown Ht v Hv. rewrite Hc.
  destruct (Ht v Hv) as [H1 H2].
  destruct (Z.eq_dec v v0) as [->|Hne].
  - split; [intros _; apply Hown, H1; assumption | lia].
  - pose proof (small_ids_differ v v0 Hv Hv0 Hne) as Hid.
    split; intros Hlt'; [apply Hf1 | apply Hf2]; auto.
Qed.

Lemma tallied_deposited (s : storage) (v0 amount : Z) :
  tallied s -> tallied (depositedState v0 amount s).
Proof.
  intros Ht v Hv. unfold depositedState.
  replace (vaultCount (su _ _ s)) with (vaultCount s)
    by (unfold_views; reads; same).
  destruct (Ht v Hv) as [H1 H2].
  split; intros Hlt; [specialize (H1 Hlt); other_vault H1
                     | specialize (H2 Hlt); other_vault H2].
Qed.

Lemma tallied_executed (s : storage) (v0 : Z) :
  0 <= v0 < 2 ^ 32 -> v0 < vaultCount s ->
  tallied s -> tallied (executedState v0 s).
Proof.
  intros Hv0 Hlt. destruct (executedState_fields s v0) as [Hc [_ [_ [_ [_ [Hh Hf]]]]]].
  apply (tallied_other s _ v0); try assumption.
  - intros v Hid H. unfold executedState, clearedState. other_vault H.
  - intros v Hid H. unfold executedState, clearedState. other_vault H.
  - intros [Hoc _].
    assert (Hcount : ownerCount_of (executedState v0 s) v0 = ownerCount_of s v0).
    { unfold executedState, clearedState. unfold_views. reads. same. }
    unfold vault_tallied. rewrite Hcount. split; [exact Hoc|]. split.
    + intros _ i Hi. apply Hf.
      rewrite getOwnerCount_stored by (unfold is_u8; lia). exact Hi.
    + intros Hp. contradiction.
Qed.

Lemma tallied_approved (s : storage) (tx : Tx) (v0 idx : Z) :
  0 <= v0 < 2 ^ 32 -> v0 < vaultCount s ->
  owner_index s tx v0 idx -> hasProposal_of s v0 <> 0 -> flag_at s v0 idx = 0 ->
  (approvals_of s v0 + 1) mod 2 ^ 256 = approvals_of s v0 + 1 ->
  tallied s -> tallied (approvedState v0 idx s).
Proof.
  intros Hv0 Hlt Hidx Hp Hflag Hnext.
  apply owner_index_range in Hidx.
  apply (tallied_other s _ v0); try assumption.
  - unfold approvedState. unfold_views. reads. same.
  - intros v Hid H. unfold approvedState. other_vault H.
  - intros v Hid H. unfold approvedState. other_vault H.
  - intros [Hoc [_ Hact]]. destruct (Hact Hp) as [Htally Hone].
    unfold approvedState. fold (approvals_of s v0). rewrite Hnext.
    set (s' := su _ _ (su _ _ s)).
    assert (Hcount : getStorageAt (fieldKey pOwnerCount v0) s'
                     = getStorageAt (fieldKey pOwnerCount v0) s).
    { subst s'. unfold_views. reads. same. }
    assert (Hraise : approvalCount s' v0 = approvalCount s v0 + 1).
    { unfold approvalCount. rewrite (getOwnerCount_frame v0 s s' Hcount).
      apply (countFlags_raise s s' v0 _ 0 idx); [lia | exact Hflag | |].
      - subst s'. unfold_views. reads. lia.
      - intros j Hj. subst s'. unfold_views. reads. same. }
    unfold vault_tallied. rewrite Hraise.
    replace (ownerCount_of s' v0) with (ownerCount_of s v0)
      by (unfold ownerCount_of, lu; symmetry; exact Hcount).
    replace (hasProposal_of s' v0) with (hasProposal_of s v0)
      by (subst s'; unfold_views; reads; same).
    replace (approvals_of s' v0) with (approvals_of s v0 + 1)
      by (subst s'; unfold_views; reads; same).
    split; [exact Hoc|]. split; [contradiction|]. intros _. lia.
Qed.

Lemma tallied_proposed (s : storage) (tx : Tx) (v0 idx to amount : Z) :
  0 <= v0 < 2 ^ 32 -> v0 < vaultCount s -> owner_index s tx v0 idx ->
  tallied s ->
  tallied (proposedState v0 idx to amount
             (if hasProposal_of s v0 =? 0 then s else clearedState v0 s)).
Proof.
  intros Hv0 Hlt Hidx.
  apply owner_index_range in Hidx.
  destruct (proposedState_fields s v0 idx to amount)
    as [Hc [Hh [_ [_ [Hn [Hf [_ Hrest]]]]]]]. cbv zeta in *.
  apply (tallied_other s _ v0); try assumption.
  - intros v Hid H. unfold proposedState, proposingState.
    destruct (_ =? 0); unfold clearedState; other_vault H.
  - intros v Hid H. unfold proposedState, proposingState.
    destruct (_ =? 0); unfold clearedState; other_vault H.
  - intros [Hoc [Hclear _]].
    set (s' := proposedState v0 idx to amount _) in *.
    assert (Hcount : getStorageAt (fieldKey pOwnerCount v0) s'
                     = getStorageAt (fieldKey pOwnerCount v0) s).
    { subst s'. unfold proposedState, proposingState.
      destruct (_ =? 0); unfold clearedState; unfold_views; reads; same. }
    assert (Hgc : getOwnerCount v0 s = ownerCount_of s v0)
      by (apply getOwnerCount_stored; unfold is_u8; lia).
    unfold vault_tallied.
    replace (ownerCount_of s' v0) with (ownerCount_of s v0)
      by (unfold ownerCount_of, lu; symmetry; exact Hcount).
    rewrite Hh, Hn. split; [exact Hoc|]. split; [intros; lia|]. intros _.
    split; [|lia]. symmetry.
    unfold approvalCount. rewrite (getOwnerCount_frame v0 s s' Hcount).
    apply (countFlags_one s' v0 _ 0 idx); [lia | lia |].
    intros j Hj Hne.
    destruct (Z.eq_dec (hasProposal_of s v0) 0) as [Hz|Hnz].
    + subst s'. rewrite Hz. change (0 =? 0) with true. cbv iota.
      unfold proposedState, proposingState. unfold_views. reads.
      apply Hclear; [exact Hz | lia].
    + apply Hrest; [exact Hnz | lia | exact Hne].
Qed.

Lemma tallied_created (s : storage) (token oc th : Z) (written : list Z) :
  2 <= oc <= 10 -> 0 <= vaultCount s < 2 ^ 32 ->
  tallied s ->
  tallied (createdState token oc th (vaultCount s)
             (writeOwners (vaultCount s) written 0 s)).
Proof.
  intros Hoc Hn Ht v Hv. set (n := vaultCount s) in *.
  assert (Hc : vaultCount (createdState token oc th n (writeOwners n written 0 s))
               = n + 1).
  { unfold createdState. unfold_views. reads. apply Z.mod_small. lia. }
  rewrite Hc. destruct (Ht v Hv) as [H1 H2].
  unfold createdState, configuredState.
  destruct (Z.eq_dec v n) as [->|Hne].
  - split; [intros _ | lia].
    destruct (H2 ltac:(lia)) as [Hh Hf].
    unfold vault_tallied.
    match goal with
    | |- context [ownerCount_of ?st n] =>
        replace (ownerCount_of st n) with oc
          by (unfold_views; reads; symmetry; apply u32_small; unfold is_u8; lia);
        replace (hasProposal_of st n) with (hasProposal_of s n)
          by (unfold_views; reads; same)
    end.
    split; [exact Hoc|]. split; [|intros; contradiction].
    intros _ i _. rewrite <- (Hf i). unfold_views. reads. same.
  - pose proof (small_ids_differ v n Hv Hn Hne) as Hid.
    split; intros Hlt; [specialize (H1 ltac:(lia)); other_vault H1
                       | specialize (H2 ltac:(lia)); other_vault H2].
Qed.

Lemma tallied_empty : tallied ∅.
Proof.
  intros v Hv. split.
  - unfold_views. reads. lia.
  - intros _. split; [|intros i]; unfold_views; reads; same.
Qed.

Lemma no_wrap_succ (n : Z) :
  is_u256 n -> ((n + 1) mod 2 ^ 256 <? n) = false -> (n + 1) mod 2 ^ 256 = n + 1.
Proof.
  unfold is_u256. intros Hn Hck.
  destruct (Z.eq_dec (n + 1) (2 ^ 256)) as [E|E].
  - rewrite E, Z.mod_same in Hck by lia. lia.
  - apply Z.mod_small. lia.
Qed.

Lemma createdState_count (token oc th n : Z) (s : storage) :
  vaultCount (createdState token oc th n s) = (n + 1) mod 2 ^ 256.
Proof. unfold createdState. unfold_views. reads. same. Qed.

(** Every call keeps the tally, up to the 2^32-th vault. *)
Lemma transact_tallied (ext : ExtCall -> bool) (tx : Tx) (c : Call) (s : storage) :
  sound s -> wf_call tx c ->
  vaultCount (transact ext tx c s) <= 2 ^ 32 ->
  (vaultCount s <= 2 ^ 32 -> tallied s) ->
  tallied (transact ext tx c s).
Proof.
  intros Hs [Hsender [Hself Hc]] Hle IH.
  pose proof (proj1 Hs vaultCountKey) as Hcount.
  fold (lu vaultCountKey s) in Hcount. fold (vaultCount s) in Hcount.
  destruct c as [token oc owners th | v amount | v to amount | v | v];
    unfold transact in *.
  - destruct (createVault_commit ext token oc owners th s)
      as [E | [written [rest [Hrest [Hoc [Hth [Hadd E]]]]]]];
      rewrite E in *; [auto|].
    rewrite createdState_count, (no_wrap_succ _ Hcount Hadd) in Hle.
    unfold is_u256 in Hcount.
    apply tallied_created; [assumption | lia | apply IH; lia].
  - rewrite deposit_host in *.
    destruct (v >=? vaultCount s); [auto|].
    destruct (amount =? 0); [auto|].
    destruct (ext _); [|auto].
    destruct (_ <? balance_of s v) eqn:Hadd; [auto|].
    cbn [commit] in *. apply tallied_deposited, IH.
    unfold depositedState in Hle. revert Hle. unfold_views. reads. trivial.
  - rewrite propose_host in *.
    destruct (v >=? vaultCount s) eqn:Hv; [auto|].
    destruct (scanOwners _ _ _ _ _) as [idx|] eqn:Hidx; [|auto].
    destruct (amount =? 0) eqn:Hz; [auto|].
    destruct (to =? 0); [auto|].
    destruct (amount >? balance_of s v) eqn:Hbal; [auto|].
    cbv zeta in *. destruct (_ <? totalProposals_of s v); [auto|].
    cbn [commit] in *.
    destruct (proposedState_fields s v idx to amount) as [Hcnt _]. cbv zeta in Hcnt.
    rewrite Hcnt in Hle. destruct Hc as [Hvr _]. unfold is_u256 in Hvr.
    apply (tallied_proposed s tx v idx to amount); [lia | lia | exact Hidx | auto].
  - rewrite approve_host in *.
    destruct (v >=? vaultCount s) eqn:Hv; [auto|].
    destruct (scanOwners _ _ _ _ _) as [idx|] eqn:Hidx; [|auto].
    destruct (hasProposal_of s v =? 0) eqn:Hact; [auto|].
    destruct (flag_at s v idx =? 0) eqn:Hflag; [|auto].
    destruct (_ <? approvals_of s v); [auto|].
    cbn [commit] in *.
    assert (Hcnt : vaultCount (approvedState v idx s) = vaultCount s)
      by (unfold approvedState; unfold_views; reads; same).
    rewrite Hcnt in Hle. unfold is_u256 in Hc.
    destruct (sound_approved s tx v idx Hs Hidx ltac:(lia) ltac:(lia)) as [_ Hnext].
    apply (tallied_approved s tx v idx); try lia; auto.
  - rewrite executeProposal_host in *.
    destruct (v >=? vaultCount s) eqn:Hv; [auto|].
    destruct (hasProposal_of s v =? 0); [auto|].
    destruct (approvals_of s v <? threshold_of s v); [auto|].
    destruct (balance_of s v <? propAmount_of s v); [auto|].
    destruct (ext _); [|auto].
    cbn [commit] in *.
    destruct (executedState_fields s v) as [Hcnt _].
    rewrite Hcnt in Hle. unfold is_u256 in Hc.
    apply tallied_executed; [lia | lia | auto].
Qed.

Lemma reachable_tallied (s : storage) :
  reachable s -> vaultCount s <= 2 ^ 32 -> tallied s.
Proof.
  induction 1 as [|s ext tx c Hr IH Hwf]; intros Hle; [apply tallied_empty|].
  pose proof (reachable_sound s Hr) as Hs.
  apply transact_tallied; try assumption.
Qed.

(** C3, as the code has it: in every storage reachable by any sequence of
    [createVault], [deposit], [propose], [approve] and [executeProposal] calls
    in which no more than 2^32 vaults have been created (vault ids then fit
    the four key bytes reserved for them), for every vault with hasProposal
    true the stored approvals count equals the number of owner indices whose
    approval flag is set, approvals >= 1 and approvals <= ownerCount. *)
Theorem C3_tally_within_id_width (s : storage) (v : Z) :
  reachable s -> vaultCount s <= 2 ^ 32 ->
  0 <= v < vaultCount s -> hasProposal_of s v <> 0 ->
  approvals_of s v = approvalCount s v /\
  1 <= approvals_of s v /\ approvals_of s v <= getOwnerCount v s.
Proof.
  intros Hr Hle Hv Hp.
  destruct (reachable_tallied s Hr Hle v ltac:(lia)) as [Ht _].
  destruct (Ht ltac:(lia)) as [_ [_ Hact]]. destruct (Hact Hp) as [E H1].
  split; [exact E|]. split; [exact H1|].
  rewrite E. unfold approvalCount.
  pose proof (countFlags_bounds s v (Z.to_nat (getOwnerCount v s)) 0).
  pose proof (getOwnerCount_range v s). lia.
Qed.

(** ** Beyond 2^32 vaults *)

Lemma createVault_ok (token oc : Z) (owners : list Z) (th : Z) (s : storage) :
  2 <= oc <= 10 -> 2 <= th <= oc -> 0 ∉ owners -> NoDup owners ->
  length owners = Z.to_nat oc ->
  is_u256 (vaultCount s) -> vaultCount s < MAX_U256 ->
  createVault token oc owners th s
  = Done (vaultCount s)
      (createdState token oc th (vaultCount s)
         (writeOwners (vaultCount s) owners 0 s)).
Proof.
  intros Hoc Hth Hz Hnd Hlen Hc Hmax.
  assert (Hnext : (vaultCount s + 1) mod 2 ^ 256 = vaultCount s + 1).
  { apply Z.mod_small. unfold is_u256, MAX_U256 in *. lia. }
  rewrite (createVault_after_owners token oc owners th s
             (writeOwners (vaultCount s) owners 0 s));
    [| lia | unfold MAX_OWNERS; lia
     | rewrite <- Hlen; apply readOwners_ok; assumption].
  rewrite Hnext.
  replace (th <? 2) with false by lia.
  replace (th >? oc) with false by lia.
  replace (vaultCount s + 1 <? vaultCount s) with false by lia. reflexivity.
Qed.

Lemma another_vault_created (s : storage) :
  is_u256 (vaultCount s) -> vaultCount s < MAX_U256 ->
  transact accept (tx_of alice) another_vault s
  = createdState asset 2 2 (vaultCount s)
      (writeOwners (vaultCount s) [alice; bob] 0 s).
Proof.
  intros Hc Hmax. unfold transact, another_vault.
  rewrite createVault_ok; try assumption; try lia; try reflexivity.
  - intros Hin. apply list_elem_of_In in Hin. cbv in Hin.
    destruct Hin as [H|[H|[]]]; discriminate H.
  - apply NoDup_cons. split.
    + intros Hin. apply list_elem_of_singleton in Hin. discriminate Hin.
    + apply NoDup_singleton.
Qed.

Lemma wf_another_vault : wf_call (tx_of alice) another_vault.
Proof.
  unfold wf_call, another_vault, tx_of, is_u256, is_u8, alice, bob, asset; cbn.
  repeat apply conj; try lia.
  repeat constructor; lia.
Qed.

Lemma fill_succ (n : N) (s : storage) :
  fill (N.succ n) s = transact accept (tx_of alice) another_vault (fill n s).
Proof. unfold fill. apply N.iter_succ. Qed.

Lemma fill_reachable (n : N) (s : storage) : reachable s -> reachable (fill n s).
Proof.
  intros Hs. induction n as [|n IH] using N.peano_ind.
  - exact Hs.
  - rewrite fill_succ. apply reachable_call; [exact IH | apply wf_another_vault].
Qed.

(** While the counter stays below 2^32, new vaults do not touch vault 0. *)
Lemma fill_keeps_vault_zero (s : storage) (n : N) :
  word_storage s -> 1 <= vaultCount s ->
  vaultCount s + Z.of_N n <= 2 ^ 32 ->
  vaultCount (fill n s) = vaultCount s + Z.of_N n /\
  word_storage (fill n s) /\
  hasProposal_of (fill n s) 0 = hasProposal_of s 0 /\
  approvals_of (fill n s) 0 = approvals_of s 0 /\
  (forall j, flag_at (fill n s) 0 j = flag_at s 0 j).
Proof.
  intros Hw H1. induction n as [|n IH] using N.peano_ind; intros Hle.
  - unfold fill. cbn [N.iter]. repeat apply conj; trivial; lia.
  - destruct (IH ltac:(lia)) as [Hc [Hw' [Hh [Ha Hf]]]].
    rewrite fill_succ. set (s' := fill n s) in *.
    assert (Hcu : is_u256 (vaultCount s')) by apply (Hw' vaultCountKey).
    rewrite another_vault_created by (unfold MAX_U256; assumption || lia).
    assert (Hid : id32 0 <> id32 (vaultCount s')).
    { rewrite (id32_small (vaultCount s')) by (unfold is_u32; lia).
      change (id32 0) with 0. lia. }
    rewrite createdState_count, <- Hh, <- Ha.
    repeat apply conj.
    + rewrite Z.mod_small by lia. lia.
    + unfold createdState, configuredState, su, sa. words.
      * unfold is_u256, asset. lia.
      * apply Forall_cons_2; [unfold is_u256, alice; lia|].
        apply Forall_cons_2; [unfold is_u256, bob; lia | apply Forall_nil_2].
    + unfold createdState, configuredState. unfold_views. reads. same.
    + unfold createdState, configuredState. unfold_views. reads. same.
    + intros j. rewrite <- Hf.
      unfold createdState, configuredState. unfold_views. reads. same.
Qed.

(** Calls of the sample deployment are well-typed. *)
Ltac wf_now :=
  unfold wf_call, tx_of, is_u256, is_u8, alice, bob, carol, dave, erin, asset;
  cbn [sender contractAddress];
  repeat apply conj; try lia;
  repeat (apply Forall_cons_2; [lia|]); apply Forall_nil_2.

Lemma carol_proposed_reachable : reachable carol_proposed.
Proof.
  unfold carol_proposed. cbn [transact_all].
  repeat (apply reachable_call; [|wf_now]). apply reachable_deploy.
Qed.

Lemma quorum_reached_reachable : reachable quorum_reached.
Proof.
  unfold quorum_reached.
  apply reachable_call; [apply carol_proposed_reachable | wf_now].
Qed.

Lemma all_approved_reachable : reachable all_approved.
Proof.
  unfold all_approved.
  apply reachable_call; [apply quorum_reached_reachable | wf_now].
Qed.

Lemma all_approved_facts :
  vaultCount all_approved = 1 /\
  hasProposal_of all_approved 0 = 1 /\
  approvals_of all_approved 0 = 3 /\
  flag_at all_approved 0 0 = 1 /\
  flag_at all_approved 0 1 = 1.
Proof. vm_compute. repeat apply conj; reflexivity. Qed.

(** C3 as the specification states it, for every reachable storage, fails
    once the vault counter has passed 2^32.  Vault 0 has three owners who
    have all approved its active proposal.  The vault created with id 2^32
    is written over vault 0: the owner count becomes 2, while the proposal,
    its approvals (3) and the flags stay.  Vault 0 then has more approvals
    than owners, and only 2 of its owner slots have their flag set. *)
Lemma C3_counterexample :
  reachable vault_zero_overwritten /\
  0 <= 0 < vaultCount vault_zero_overwritten /\
  hasProposal_of vault_zero_overwritten 0 <> 0 /\
  approvals_of vault_zero_overwritten 0 = 3 /\
  getOwnerCount 0 vault_zero_overwritten = 2 /\
  approvalCount vault_zero_overwritten 0 = 2 /\
  ~ tally_holds vault_zero_overwritten.
Proof.
  destruct all_approved_facts as [Hc0 [Hh0 [Ha0 [Hf0 Hf1]]]].
  pose proof all_approved_reachable as Hr0.
  destruct (fill_keeps_vault_zero all_approved (2 ^ 32 - 1)
              (proj1 (reachable_sound _ Hr0)))
    as [Hc [Hw [Hh [Ha Hf]]]].
  { rewrite Hc0. lia. }
  { rewrite Hc0. change (Z.of_N (2 ^ 32 - 1)) with 4294967295. lia. }
  rewrite Hc0 in Hc. change (1 + Z.of_N (2 ^ 32 - 1)) with (2 ^ 32) in Hc.
  rewrite Hh0 in Hh. rewrite Ha0 in Ha.
  pose proof (Hf 0) as Hg0. rewrite Hf0 in Hg0.
  pose proof (Hf 1) as Hg1. rewrite Hf1 in Hg1. clear Hf.
  unfold vault_zero_overwritten, ids_exhausted.
  split.
  { apply reachable_call; [apply fill_reachable; exact Hr0 | apply wf_another_vault]. }
  clear Hr0. revert Hc Hw Hh Ha Hg0 Hg1.
  generalize (fill (2 ^ 32 - 1) all_approved). intros s2 Hc Hw Hh Ha Hg0 Hg1.
  rewrite another_vault_created by (rewrite Hc; unfold is_u256, MAX_U256; lia).
  rewrite Hc.
  assert (Hid : id32 (2 ^ 32) = id32 0) by reflexivity.
  set (s3 := createdState asset 2 2 (2 ^ 32) (writeOwners (2 ^ 32) [alice; bob] 0 s2)).
  assert (Hcount : vaultCount s3 = 2 ^ 32 + 1).
  { subst s3. rewrite createdState_count. reflexivity. }
  assert (Hhas : hasProposal_of s3 0 = 1).
  { rewrite <- Hh. subst s3. unfold createdState, configuredState.
    unfold_views. reads. same. }
  assert (Happ : approvals_of s3 0 = 3).
  { rewrite <- Ha. subst s3. unfold createdState, configuredState.
    unfold_views. reads. same. }
  assert (Hown : getOwnerCount 0 s3 = 2).
  { subst s3. unfold createdState, configuredState, getOwnerCount, lu, su, sa.
    rewrite (fieldKey_id32 pOwnerCount 0 (2 ^ 32)) by (symmetry; exact Hid).
    reads. apply u8_count. unfold is_u8. lia. }
  assert (Hflag : forall j, flag_at s3 0 j = flag_at s2 0 j).
  { intros j. subst s3. unfold createdState, configuredState.
    unfold_views. reads. same. }
  assert (Htally : approvalCount s3 0 = 2).
  { unfold approvalCount. rewrite Hown. change (Z.to_nat 2) with 2%nat.
    cbn [countFlags]. change (0 + 1) with 1.
    rewrite !Hflag, Hg0, Hg1. reflexivity. }
  split; [rewrite Hcount; lia|]. split; [rewrite Hhas; discriminate|].
  split; [exact Happ|]. split; [exact Hown|]. split; [exact Htally|].
  intros Hall.
  destruct (Hall 0) as [E _].
  - rewrite Hcount. lia.
  - rewrite Hhas. discriminate.
  - rewrite Happ, Htally in E. discriminate E.
Qed.

(** ** The scenario of the specification

    A 2-of-3 vault: created with id 0, 1000 deposited, alice proposes 200 to
    dave, bob approves, carol executes, alice proposes 50 to erin. *)

Example scenario_2_of_3 :
  let s1 := transact_all accept
              [ (tx_of alice, CreateVault asset 3 [alice; bob; carol] 2);
                (tx_of alice, Deposit 0 1000);
                (tx_of alice, Propose 0 dave 200) ] ∅ in
  let s2 := transact accept (tx_of bob) (Approve 0) s1 in
  let s3 := transact accept (tx_of carol) (ExecuteProposal 0) s2 in
  let s4 := transact accept (tx_of alice) (Propose 0 erin 50) s3 in
  (vaultCount s1, balance_of s1 0, hasProposal_of s1 0, approvals_of s1 0,
   totalProposals_of s1 0) = (1, 1000, 1, 1, 1) /\
  approvals_of s2 0 = 2 /\
  (balance_of s3 0, hasProposal_of s3 0) = (800, 0) /\
  host accept (executeProposal 0 s2) = Success true s3 /\
  (totalProposals_of s4 0, approvals_of s4 0, propTo_of s4 0, propAmount_of s4 0)
  = (2, 1, erin, 50).
Proof. vm_compute. repeat apply conj; reflexivity. Qed.

(** ** The theorems at work on the sample deployment *)

Lemma C1_execute_quorum_gated_witness :
  reachable quorum_reached /\ 0 < vaultCount quorum_reached /\
  hasProposal_of quorum_reached 0 <> 0 /\
  exists s',
    host accept (executeProposal 0 quorum_reached) = Success true s' /\
    balance_of s' 0 = balance_of quorum_reached 0 - propAmount_of quorum_reached 0 /\
    hasProposal_of s' 0 = 0 /\
    fails_with (getProposal 0 s') NoActiveProposal s'.
Proof.
  assert (Hr : reachable quorum_reached) by exact quorum_reached_reachable.
  assert (Hv : 0 < vaultCount quorum_reached) by (vm_compute; reflexivity).
  assert (Hp : hasProposal_of quorum_reached 0 <> 0) by (vm_compute; discriminate).
  split; [exact Hr|]. split; [exact Hv|]. split; [exact Hp|].
  destruct (C1_execute_quorum_gated accept (tx_of dave) quorum_reached 0 Hr Hv Hp)
    as [_ Hrun].
  destruct Hrun as [s' [H1 [_ [H2 [H3 H4]]]]].
  - vm_compute. discriminate.
  - reflexivity.
  - exists s'. repeat apply conj; assumption.
Defined.

Lemma C2_settled_before_transfer_witness :
  reachable quorum_reached /\ is_u256 0 /\
  host accept (executeProposal 0 quorum_reached)
  = Success true (transact accept (tx_of dave) (ExecuteProposal 0) quorum_reached) /\
  exists s1,
    executeProposal 0 quorum_reached
    = External (ExtTransfer asset dave 200) s1 (fun s' => Done true s') /\
    balance_of s1 0 = 800 /\ hasProposal_of s1 0 = 0 /\ approvals_of s1 0 = 0 /\
    reachable s1.
Proof.
  assert (Hr : reachable quorum_reached) by exact quorum_reached_reachable.
  assert (Hv : is_u256 0) by (unfold is_u256; lia).
  assert (Hrun : host accept (executeProposal 0 quorum_reached)
                 = Success true
                     (transact accept (tx_of dave) (ExecuteProposal 0) quorum_reached))
    by (vm_compute; reflexivity).
  split; [exact Hr|]. split; [exact Hv|]. split; [exact Hrun|].
  destruct (C2_settled_before_transfer accept quorum_reached 0 true _ Hr Hv Hrun)
    as [s1 [H1 [H2 [_ [_ [H3 [_ [H4 [_ H5]]]]]]]]].
  exists s1. repeat apply conj.
  - rewrite H1. f_equal.
  - rewrite H2. vm_compute. reflexivity.
  - exact H4.
  - exact H3.
  - exact H5.
Defined.

Lemma C3_tally_within_id_width_witness :
  reachable quorum_reached /\ vaultCount quorum_reached <= 2 ^ 32 /\
  0 <= 0 < vaultCount quorum_reached /\ hasProposal_of quorum_reached 0 <> 0 /\
  approvals_of quorum_reached 0 = approvalCount quorum_reached 0 /\
  1 <= approvals_of quorum_reached 0 /\
  approvals_of quorum_reached 0 <= getOwnerCount 0 quorum_reached.
Proof.
  assert (Hr : reachable quorum_reached) by exact quorum_reached_reachable.
  assert (Hle : vaultCount quorum_reached <= 2 ^ 32) by (vm_compute; discriminate).
  assert (Hv : 0 <= 0 < vaultCount quorum_reached)
    by (vm_compute; split; [discriminate | reflexivity]).
  assert (Hp : hasProposal_of quorum_reached 0 <> 0) by (vm_compute; discriminate).
  split; [exact Hr|]. split; [exact Hle|]. split; [exact Hv|]. split; [exact Hp|].
  exact (C3_tally_within_id_width quorum_reached 0 Hr Hle Hv Hp).
Defined.

Lemma C4_propose_replaces_witness :
  reachable quorum_reached /\
  host accept (propose (tx_of alice) 0 erin 50 quorum_reached)
  = Success true (transact accept (tx_of alice) (Propose 0 erin 50) quorum_reached) /\
  exists idx,
    owner_index quorum_reached (tx_of alice) 0 idx /\
    getProposal 0 (transact accept (tx_of alice) (Propose 0 erin 50) quorum_reached)
    = Done (erin, 50, 1)
        (transact accept (tx_of alice) (Propose 0 erin 50) quorum_reached) /\
    totalProposals_of
      (transact accept (tx_of alice) (Propose 0 erin 50) quorum_reached) 0
    = totalProposals_of quorum_reached 0 + 1.
Proof.
  assert (Hr : reachable quorum_reached) by exact quorum_reached_reachable.
  assert (Hrun : host accept (propose (tx_of alice) 0 erin 50 quorum_reached)
                 = Success true
                     (transact accept (tx_of alice) (Propose 0 erin 50) quorum_reached))
    by (vm_compute; reflexivity).
  split; [exact Hr|]. split; [exact Hrun|].
  destruct (C4_propose_replaces accept (tx_of alice) quorum_reached 0 erin 50 true _
              Hr Hrun) as [[idx [H1 [H2 [_ [H3 _]]]]] _].
  exists idx. repeat apply conj; assumption.
Defined.

Lemma C6_createVault_validity_witness :
  length [alice; bob] = Z.to_nat 2 /\
  exists s' info,
    createVault asset 2 [alice; bob] 2 carol_proposed
    = Done (vaultCount carol_proposed) s' /\
    vaultCount s' = vaultCount carol_proposed + 1 /\
    getVaultInfo (vaultCount carol_proposed) s' = Done info s' /\
    vi_owners info = [alice; bob].
Proof.
  split; [reflexivity|].
  destruct (C6_createVault_validity carol_proposed asset 2 [alice; bob] 2 eq_refl)
    as [Hok _].
  destruct Hok as [s' [info [H1 [H2 [H3 [H4 _]]]]]].
  - lia.
  - lia.
  - intros Hin. apply list_elem_of_In in Hin. simpl in Hin.
    destruct Hin as [H|[H|[]]]; discriminate H.
  - apply NoDup_cons. split.
    + intros Hin. apply list_elem_of_singleton in Hin. discriminate Hin.
    + apply NoDup_singleton.
  - vm_compute. split; [discriminate | reflexivity].
  - vm_compute. reflexivity.
  - exists s', info. repeat apply conj; assumption.
Defined.

Lemma C7_approve_once_witness :
  reachable carol_proposed /\ 0 < vaultCount carol_proposed /\
  hasProposal_of carol_proposed 0 <> 0 /\
  owner_index carol_proposed (tx_of bob) 0 1 /\
  owner_index carol_proposed (tx_of carol) 0 2 /\
  (exists s', approve (tx_of bob) 0 carol_proposed = Done true s' /\
              flag_at s' 0 1 = 1 /\
              approvals_of s' 0 = approvals_of carol_proposed 0 + 1) /\
  fails_with (approve (tx_of carol) 0 carol_proposed) AlreadyApproved carol_proposed.
Proof.
  assert (Hr : reachable carol_proposed) by exact carol_proposed_reachable.
  assert (Hv : 0 < vaultCount carol_proposed) by (vm_compute; reflexivity).
  assert (Hp : hasProposal_of carol_proposed 0 <> 0) by (vm_compute; discriminate).
  assert (Hb : owner_index carol_proposed (tx_of bob) 0 1) by (vm_compute; reflexivity).
  assert (Hc : owner_index carol_proposed (tx_of carol) 0 2) by (vm_compute; reflexivity).
  split; [exact Hr|]. split; [exact Hv|]. split; [exact Hp|].
  split; [exact Hb|]. split; [exact Hc|]. split.
  - destruct (C7_approve_once carol_proposed (tx_of bob) 0 1 Hr Hv Hp Hb) as [Hyes _].
    destruct Hyes as [s' [H1 [H2 [H3 _]]]]; [vm_compute; reflexivity|].
    exists s'. repeat apply conj; assumption.
  - destruct (C7_approve_once carol_proposed (tx_of carol) 0 2 Hr Hv Hp Hc) as [_ Hno].
    apply Hno. vm_compute. discriminate.
Defined.

Lemma C8_debit_never_underflows_witness :
  reachable quorum_reached /\ 0 < vaultCount quorum_reached /\
  hasProposal_of quorum_reached 0 <> 0 /\
  threshold_of quorum_reached 0 <= approvals_of quorum_reached 0 /\
  propAmount_of quorum_reached 0 <= balance_of quorum_reached 0.
Proof.
  assert (Hr : reachable quorum_reached) by exact quorum_reached_reachable.
  assert (Hv : 0 < vaultCount quorum_reached) by (vm_compute; reflexivity).
  assert (Hp : hasProposal_of quorum_reached 0 <> 0) by (vm_compute; discriminate).
  assert (Hq : threshold_of quorum_reached 0 <= approvals_of quorum_reached 0)
    by (vm_compute; discriminate).
  split; [exact Hr|]. split; [exact Hv|]. split; [exact Hp|]. split; [exact Hq|].
  exact (proj1 (C8_debit_never_underflows quorum_reached 0 Hr Hv Hp Hq)).
Defined.

Lemma C9_any_owner_replaces_witness :
  reachable quorum_reached /\ 0 < vaultCount quorum_reached /\
  owner_index quorum_reached (tx_of alice) 0 0 /\
  hasProposal_of quorum_reached 0 <> 0 /\
  threshold_of quorum_reached 0 <= approvals_of quorum_reached 0 /\
  flag_at quorum_reached 0 0 = 0 /\
  exists s',
    propose (tx_of alice) 0 erin 50 quorum_reached = Done true s' /\
    getProposal 0 s' = Done (erin, 50, 1) s'.
Proof.
  assert (Hr : reachable quorum_reached) by exact quorum_reached_reachable.
  assert (Hv : 0 < vaultCount quorum_reached) by (vm_compute; reflexivity).
  assert (Hi : owner_index quorum_reached (tx_of alice) 0 0) by (vm_compute; reflexivity).
  assert (Hp : hasProposal_of quorum_reached 0 <> 0) by (vm_compute; discriminate).
  split; [exact Hr|]. split; [exact Hv|]. split; [exact Hi|]. split; [exact Hp|].
  split; [vm_compute; discriminate|]. split; [vm_compute; reflexivity|].
  destruct (C9_any_owner_replaces quorum_reached (tx_of alice) 0 0 erin 50 Hr Hv Hi Hp)
    as [s' [H1 [H2 _]]].
  - discriminate.
  - unfold erin. discriminate.
  - vm_compute. discriminate.
  - vm_compute. reflexivity.
  - exists s'. split; assumption.
Defined.

Lemma C10_deposit_checked_witness :
  reachable carol_proposed /\ 0 < vaultCount carol_proposed /\ 5 <> 0 /\ is_u256 5 /\
  exists s',
    host accept (deposit (tx_of dave) 0 5 carol_proposed) = Success true s' /\
    balance_of s' 0 = balance_of carol_proposed 0 + 5.
Proof.
  assert (Hr : reachable carol_proposed) by exact carol_proposed_reachable.
  assert (Hv : 0 < vaultCount carol_proposed) by (vm_compute; reflexivity).
  assert (Hz : 5 <> 0) by discriminate.
  assert (Ha : is_u256 5) by (unfold is_u256; lia).
  split; [exact Hr|]. split; [exact Hv|]. split; [exact Hz|]. split; [exact Ha|].
  destruct (C10_deposit_checked accept (tx_of dave) carol_proposed 0 5 Hr Hv Hz Ha)
    as [Hfit _].
  destruct Hfit as [s' [H1 [_ H2]]].
  - vm_compute. reflexivity.
  - reflexivity.
  - exists s'. split; assumption.
Defined.

(** * The rest of the contract

    ** Which keys an entry point writes *)

Lemma vault_slot_key_id (v v0 : Z) (k : list Z) :
  vault_slot_key v k -> vault_slot_key v0 k -> id32 v = id32 v0.
Proof.
  intros [[p [Hp ->]] | [p [i [Hp ->]]]] [[q [Hq E]] | [q [j [Hq E]]]].
  - destruct (field_tag_facts p Hp) as [Up _], (field_tag_facts q Hq) as [Uq _].
    apply (fieldKey_inj p q Up Uq) in E. tauto.
  - destruct (field_tag_facts p Hp) as [Up [_ Np]], (index_tag_facts q Hq) as [Uq _].
    apply (fieldKey_idxKey_tag p q Up Uq) in E. subst q. contradiction.
  - destruct (index_tag_facts p Hp) as [Up _], (field_tag_facts q Hq) as [Uq [_ Nq]].
    symmetry in E. apply (fieldKey_idxKey_tag q p Uq Up) in E. subst q. contradiction.
  - destruct (index_tag_facts p Hp) as [Up _], (index_tag_facts q Hq) as [Uq _].
    apply (idxKey_inj p q Up Uq) in E. tauto.
Qed.

Lemma vault_slot_key_counter (v : Z) : ~ vault_slot_key v vaultCountKey.
Proof.
  intros [[p [Hp E]] | [p [i [Hp E]]]]; symmetry in E; revert E.
  - destruct (field_tag_facts p Hp) as [Up [Np _]]. apply fc_ne; assumption.
  - destruct (index_tag_facts p Hp) as [Up Np]. apply ic_ne; assumption.
Qed.

Lemma config_key_slot (v : Z) (k : list Z) : config_key v k -> vault_slot_key v k.
Proof.
  intros [-> | [-> | [-> | [i ->]]]];
    [left; exists pThreshold | left; exists pOwnerCount | left; exists pToken
    | right; exists pOwner, i];
    (split; [unfold field_tag, index_tag; cbn; tauto | reflexivity]).
Qed.

Lemma written_target (c : Call) (s : storage) (k : list Z) :
  written_by c s k ->
  (creates c /\ k = vaultCountKey) \/ vault_slot_key (target c s) k.
Proof.
  destruct 1; cbn [target creates];
    try (left; split; [exact I | reflexivity]);
    right;
    first [ left; eexists; split; [|reflexivity]; unfold field_tag; cbn; tauto
          | right; eexists; eexists; split; [|reflexivity]; unfold index_tag; cbn; tauto ].
Qed.

Ltac unwritten H :=
  let E := fresh "E" in
  intros; intro E; apply H; rewrite E; constructor.

Ltac skip_writes H :=
  repeat first
    [ rewrite get_set_ne by unwritten H
    | rewrite clearFlags_other by unwritten H
    | rewrite writeOwners_other by unwritten H ].

Lemma transact_unwritten (ext : ExtCall -> bool) (tx : Tx) (c : Call) (s : storage)
    (k : list Z) :
  ~ written_by c s k ->
  getStorageAt k (transact ext tx c s) = getStorageAt k s.
Proof.
  intros Hn. destruct c as [token oc owners th | v amount | v to amount | v | v];
    unfold transact.
  - destruct (createVault_commit ext token oc owners th s)
      as [-> | [written [rest [_ [_ [_ [_ ->]]]]]]]; [same|].
    unfold createdState, configuredState, su, sa. skip_writes Hn. same.
  - rewrite deposit_host.
    repeat (match goal with
            | |- context [if ?b then _ else _] => destruct b
            end; cbn [commit]; try same).
    unfold depositedState, su. skip_writes Hn. same.
  - rewrite propose_host.
    destruct (v >=? vaultCount s); cbn [commit]; [same|].
    destruct (scanOwners _ _ _ _ _) as [idx|]; cbn [commit]; [|same].
    destruct (amount =? 0); cbn [commit]; [same|].
    destruct (to =? 0); cbn [commit]; [same|].
    destruct (amount >? _); cbn [commit]; [same|].
    cbv zeta.
    destruct (_ <? _); cbn [commit]; [same|].
    unfold proposedState, proposingState, su, sa.
    destruct (hasProposal_of s v =? 0); [|unfold clearedState, su];
      skip_writes Hn; same.
  - rewrite approve_host.
    destruct (v >=? vaultCount s); cbn [commit]; [same|].
    destruct (scanOwners _ _ _ _ _) as [idx|]; cbn [commit]; [|same].
    repeat (match goal with
            | |- context [if ?b then _ else _] => destruct b
            end; cbn [commit]; try same).
    unfold approvedState, su. skip_writes Hn. same.
  - rewrite executeProposal_host.
    repeat (match goal with
            | |- context [if ?b then _ else _] => destruct b
            end; cbn [commit]; try same).
    unfold executedState, clearedState, su. skip_writes Hn. same.
Qed.

Lemma transact_isolated (ext : ExtCall -> bool) (tx : Tx) (c : Call) (s : storage)
    (v : Z) (k : list Z) :
  id32 v <> id32 (target c s) -> vault_slot_key v k ->
  getStorageAt k (transact ext tx c s) = getStorageAt k s.
Proof.
  intros Hid Hk. apply transact_unwritten. intros W.
  apply written_target in W. destruct W as [[_ ->] | W].
  - exact (vault_slot_key_counter v Hk).
  - apply Hid. exact (vault_slot_key_id v _ k Hk W).
Qed.

Lemma transact_config_key (ext : ExtCall -> bool) (tx : Tx) (c : Call) (s : storage)
    (v : Z) (k : list Z) :
  ~ creates c \/ id32 v <> id32 (vaultCount s) -> config_key v k ->
  getStorageAt k (transact ext tx c s) = getStorageAt k s.
Proof.
  intros Hc Hk. apply transact_unwritten. intros W.
  destruct W; cbn [creates] in Hc;
    (destruct Hc as [Hc | Hc]; [try (apply Hc; exact I) | ]);
    destruct Hk as [E | [E | [E | [i E]]]]; revert E; keys_ne.
Qed.

Lemma transact_counter_key (ext : ExtCall -> bool) (tx : Tx) (c : Call) (s : storage) :
  ~ creates c -> vaultCount (transact ext tx c s) = vaultCount s.
Proof.
  intros Hc. unfold vaultCount, lu. apply transact_unwritten. intros W.
  inversion W; subst; cbn [creates] in Hc; try (apply Hc; exact I);
    match goal with E : _ = vaultCountKey |- _ => revert E; keys_ne end.
Qed.

Lemma transact_unknown (ext : ExtCall -> bool) (tx : Tx) (c : Call) (s : storage) :
  ~ creates c -> vaultCount s <= target c s -> transact ext tx c s = s.
Proof.
  intros Hc Hv. destruct c as [token oc owners th | v amount | v to amount | v | v];
    cbn [creates target] in *; [exfalso; apply Hc; exact I | | | |];
    unfold transact;
    [rewrite deposit_host | rewrite propose_host | rewrite approve_host
    | rewrite executeProposal_host];
    (replace (v >=? vaultCount s) with true by (symmetry; apply Z.geb_le; lia));
    reflexivity.
Qed.

(** ** What [createVault] fixes stays fixed *)

Lemma readOwners_done (v : Z) (calldata : list Z) (n : nat) (i : Z) (acc : list Z)
    (s s1 : storage) :
  readOwners v calldata n i acc s = Done tt s1 ->
  exists written rest,
    calldata = written ++ rest /\ length written = n /\
    s1 = writeOwners v written i s /\ (0 ∉ written) /\
    (NoDup acc -> NoDup (acc ++ written)).
Proof.
  revert calldata i acc s. induction n as [|n IH]; intros calldata i acc s H.
  - injection H as E. subst s1. exists [], calldata. repeat apply conj; try reflexivity.
    + apply not_elem_of_nil.
    + rewrite app_nil_r. trivial.
  - destruct calldata as [|o rest]; simpl in H; [discriminate|].
    destruct (o =? 0) eqn:Ho; [discriminate|].
    destruct (existsb _ acc) eqn:Hd; [discriminate|].
    cbv [bind storeAddress run_bind] in H. apply IH in H.
    destruct H as [written [tl [-> [Hlen [-> [Hz Hnd]]]]]].
    exists (o :: written), tl. repeat apply conj; try reflexivity.
    + simpl. congruence.
    + apply not_elem_of_cons. split; [lia | exact Hz].
    + intros Hacc. apply existsb_eqb_not_elem in Hd.
      specialize (Hnd (NoDup_snoc acc o Hacc Hd)).
      rewrite <- app_assoc in Hnd. exact Hnd.
Qed.

Lemma createVault_outcome (token oc : Z) (owners : list Z) (th : Z) (s : storage) :
  (exists msg s1, createVault token oc owners th s = Revert msg s1) \/
  exists written rest,
    owners = written ++ rest /\ length written = Z.to_nat oc /\
    (0 ∉ written) /\ NoDup written /\
    2 <= oc <= 10 /\ 2 <= th <= oc /\
    ((vaultCount s + 1) mod 2 ^ 256 <? vaultCount s) = false /\
    createVault token oc owners th s
    = Done (vaultCount s)
        (createdState token oc th (vaultCount s)
           (writeOwners (vaultCount s) written 0 s)).
Proof.
  destruct (oc <? 2) eqn:G1;
    [left; unfold createVault; rewrite G1; eexists; eexists; reflexivity|].
  destruct (oc >? MAX_OWNERS) eqn:G2;
    [left; unfold createVault; rewrite G1, G2; eexists; eexists; reflexivity|].
  destruct (readOwners (vaultCount s) owners (Z.to_nat oc) 0 [] s)
    as [[] s1 | msg s1 | c s1 k] eqn:Hrun.
  - rewrite (createVault_after_owners _ _ _ _ _ _ G1 G2 Hrun).
    destruct (th <? 2) eqn:G3; [left; eexists; eexists; reflexivity|].
    destruct (th >? oc) eqn:G4; [left; eexists; eexists; reflexivity|].
    destruct (_ <? vaultCount s) eqn:G5; [left; eexists; eexists; reflexivity|].
    apply readOwners_done in Hrun.
    destruct Hrun as [written [rest [Hrest [Hlen [-> [Hz Hnd]]]]]].
    right. exists written, rest. unfold MAX_OWNERS in G2.
    repeat apply conj; try lia; try assumption; try reflexivity.
    apply Hnd. apply NoDup_nil_2.
  - left. rewrite (createVault_owner_error _ _ _ _ _ _ _ G1 G2 Hrun).
    eexists; eexists; reflexivity.
  - exfalso.
    destruct (readOwners_shape (vaultCount s) owners (Z.to_nat oc) 0 [] s)
      as [written [[E | [msg E]] _]]; congruence.
Qed.

Lemma collectOwners_same (v : Z) (n : nat) (i : Z) (s s' : storage) :
  (forall j, getStorageAt (idxKey pOwner v j) s' = getStorageAt (idxKey pOwner v j) s) ->
  collectOwners v n i s' = collectOwners v n i s.
Proof.
  intros E. revert i. induction n as [|n IH]; intros i; simpl; [reflexivity|].
  unfold la. rewrite E, IH. reflexivity.
Qed.

Lemma config_same (v : Z) (s s' : storage) :
  (forall k, config_key v k -> getStorageAt k s' = getStorageAt k s) ->
  threshold_of s' v = threshold_of s v /\
  ownerCount_of s' v = ownerCount_of s v /\
  token_of s' v = token_of s v /\
  (forall i, owner_at s' v i = owner_at s v i) /\
  getOwnerCount v s' = getOwnerCount v s /\
  owners_of s' v = owners_of s v.
Proof.
  intros E.
  assert (Ht : getStorageAt (fieldKey pThreshold v) s'
               = getStorageAt (fieldKey pThreshold v) s)
    by (apply E; unfold config_key; tauto).
  assert (Hc : getStorageAt (fieldKey pOwnerCount v) s'
               = getStorageAt (fieldKey pOwnerCount v) s)
    by (apply E; unfold config_key; tauto).
  assert (Hk : getStorageAt (fieldKey pToken v) s'
               = getStorageAt (fieldKey pToken v) s)
    by (apply E; unfold config_key; tauto).
  assert (Ho : forall i, getStorageAt (idxKey pOwner v i) s'
                         = getStorageAt (idxKey pOwner v i) s)
    by (intros i; apply E; unfold config_key; eauto).
  pose proof (getOwnerCount_frame v s s' Hc) as Hn.
  unfold threshold_of, ownerCount_of, token_of, owner_at, owners_of, lu, la.
  repeat apply conj; try assumption.
  rewrite Hn. apply collectOwners_same. exact Ho.
Qed.

Lemma vault_config_same (v : Z) (s s' : storage) :
  (forall k, config_key v k -> getStorageAt k s' = getStorageAt k s) ->
  vault_config s v -> vault_config s' v.
Proof.
  intros E H. destruct (config_same v s s' E) as [Ht [Hc [_ [_ [_ Ho]]]]].
  unfold vault_config. rewrite Ht, Hc, Ho. exact H.
Qed.

Lemma vault_blank_same (v : Z) (s s' : storage) :
  (forall k, vault_slot_key v k -> getStorageAt k s' = getStorageAt k s) ->
  vault_blank s v -> vault_blank s' v.
Proof. intros E H k Hk. rewrite (E k Hk). exact (H k Hk). Qed.

Lemma wf_target (tx : Tx) (c : Call) (s : storage) :
  wf_call tx c -> ~ creates c -> 0 <= target c s.
Proof.
  intros [_ [_ H]] Hc. destruct c; cbn [creates target] in *;
    [exfalso; apply Hc; exact I | | | |]; unfold is_u256 in H; lia.
Qed.

Lemma created_config (token oc th : Z) (written : list Z) (s : storage) :
  2 <= oc <= 10 -> 2 <= th <= oc -> length written = Z.to_nat oc ->
  NoDup written -> 0 ∉ written ->
  vault_config
    (createdState token oc th (vaultCount s) (writeOwners (vaultCount s) written 0 s))
    (vaultCount s).
Proof.
  intros Hoc Hth Hlen Hnd Hz. set (n := vaultCount s).
  set (st := createdState token oc th n (writeOwners n written 0 s)).
  assert (Ec : ownerCount_of st n = oc).
  { subst st. unfold createdState, configuredState. unfold_views. reads.
    apply u32_small. unfold is_u8. lia. }
  assert (Et : threshold_of st n = th).
  { subst st. unfold createdState, configuredState. unfold_views. reads.
    apply u32_small. unfold is_u8. lia. }
  assert (Eo : owners_of st n = written).
  { unfold owners_of. rewrite getOwnerCount_stored by (rewrite Ec; unfold is_u8; lia).
    rewrite Ec, <- Hlen. apply collectOwners_written.
    intros j o Hj. subst st. unfold createdState, configuredState, su, sa. reads.
    apply writeOwners_slot. exact Hj. }
  unfold vault_config. rewrite Ec, Et, Eo. repeat apply conj; try lia; assumption.
Qed.

Lemma configured_empty : configured ∅.
Proof.
  intros v Hv. split.
  - unfold vaultCount, lu. rewrite get_empty. lia.
  - intros _ k _. apply get_empty.
Qed.

Lemma transact_configured (ext : ExtCall -> bool) (tx : Tx) (c : Call) (s : storage) :
  sound s -> wf_call tx c ->
  vaultCount (transact ext tx c s) <= 2 ^ 32 ->
  (vaultCount s <= 2 ^ 32 -> configured s) ->
  configured (transact ext tx c s).
Proof.
  intros Hs Hwf Hle IH v Hv.
  pose proof (proj1 Hs vaultCountKey) as Hcount.
  fold (lu vaultCountKey s) in Hcount. fold (vaultCount s) in Hcount.
  unfold is_u256 in Hcount.
  assert (Hother : ~ creates c ->
            (v < vaultCount (transact ext tx c s) -> vault_config (transact ext tx c s) v) /\
            (vaultCount (transact ext tx c s) <= v -> vault_blank (transact ext tx c s) v)).
  { intros Hc. rewrite (transact_counter_key ext tx c s Hc) in *.
    destruct (IH Hle v Hv) as [H1 H2]. split; intros Hlt.
    - apply (vault_config_same v s); [|auto].
      intros k Hk. apply (transact_config_key _ _ _ _ v); [left; exact Hc | exact Hk].
    - destruct (Z.lt_ge_cases (target c s) (vaultCount s)) as [Ht | Ht].
      + pose proof (wf_target tx c s Hwf Hc) as H0.
        apply (vault_blank_same v s); [|auto].
        intros k Hk. apply (transact_isolated _ _ _ _ v); [|exact Hk].
        apply small_ids_differ; lia.
      + rewrite (transact_unknown ext tx c s Hc Ht). auto. }
  destruct c as [token oc owners th | v0 amount | v0 to amount | v0 | v0];
    [clear Hother | apply Hother; intros H; exact H ..].
  destruct (createVault_outcome token oc owners th s)
    as [[msg [s1 E]] | [written [rest [Hrest [Hlen [Hz [Hnd [Hoc [Hth [Hadd E]]]]]]]]]].
  { unfold transact in *. rewrite E in *. exact (IH Hle v Hv). }
  assert (Es : transact ext tx (CreateVault token oc owners th) s
               = createdState token oc th (vaultCount s)
                   (writeOwners (vaultCount s) written 0 s))
    by (unfold transact; rewrite E; reflexivity).
  assert (En : vaultCount (transact ext tx (CreateVault token oc owners th) s)
               = vaultCount s + 1).
  { rewrite Es, createdState_count. apply no_wrap_succ; [exact Hcount | exact Hadd]. }
  rewrite En in *. destruct (IH ltac:(lia) v Hv) as [H1 H2].
  split; intros Hlt.
  - destruct (Z.eq_dec v (vaultCount s)) as [-> | Hne].
    + rewrite Es. apply created_config; assumption.
    + apply (vault_config_same v s); [|apply H1; lia].
      intros k Hk. apply (transact_config_key _ _ _ _ v); [right | exact Hk].
      apply small_ids_differ; lia.
  - apply (vault_blank_same v s); [|apply H2; lia].
    intros k Hk. apply (transact_isolated _ _ _ _ v); [|exact Hk].
    cbn [target]. apply small_ids_differ; lia.
Qed.

Lemma reachable_configured (s : storage) :
  reachable s -> vaultCount s <= 2 ^ 32 -> configured s.
Proof.
  induction 1 as [|s ext tx c Hr IH Hwf]; intros Hle; [apply configured_empty|].
  pose proof (reachable_sound s Hr) as Hs.
  apply transact_configured; assumption.
Qed.

(** ** Who counts as an owner *)

Lemma scanOwners_none (v who : Z) (n : nat) (i : Z) (s : storage) :
  scanOwners v who n i s = None <->
  forall j, i <= j < i + Z.of_nat n -> owner_at s v j <> who.
Proof.
  revert i. induction n as [|n IH]; intros i; simpl scanOwners.
  - split; [intros _ j Hj; lia | reflexivity].
  - fold (owner_at s v i). destruct (owner_at s v i =? who) eqn:E.
    + split; [discriminate|]. intros H. exfalso. apply (H i); lia.
    + rewrite IH. split; intros H j Hj.
      * destruct (Z.eq_dec j i) as [-> | Hne]; [lia | apply H; lia].
      * apply H. lia.
Qed.

Lemma scanOwners_least (v who : Z) (n : nat) (i idx : Z) (s : storage) :
  scanOwners v who n i s = Some idx <->
  i <= idx < i + Z.of_nat n /\ owner_at s v idx = who /\
  forall j, i <= j < idx -> owner_at s v j <> who.
Proof.
  revert i. induction n as [|n IH]; intros i; simpl scanOwners.
  - split; [discriminate | lia].
  - fold (owner_at s v i). destruct (owner_at s v i =? who) eqn:E.
    + split.
      * intros H. injection H as <-. repeat apply conj; try lia; assumption.
      * intros [Hr [Ho Hl]]. destruct (Z.eq_dec idx i) as [-> | Hne]; [reflexivity|].
        exfalso. apply (Hl i); lia.
    + rewrite IH. split; intros [Hr [Ho Hl]]; repeat apply conj; try lia; try assumption.
      * intros j Hj. destruct (Z.eq_dec j i) as [-> | Hne]; [lia | apply Hl; lia].
      * destruct (Z.eq_dec idx i) as [-> | Hne]; lia.
      * intros j Hj. apply Hl. lia.
Qed.

Lemma owner_count_nat (v : Z) (s : storage) :
  Z.of_nat (Z.to_nat (getOwnerCount v s)) = getOwnerCount v s.
Proof. pose proof (getOwnerCount_range v s). lia. Qed.

Lemma scan_none_not_owner (s : storage) (v who : Z) :
  scanOwners v who (Z.to_nat (getOwnerCount v s)) 0 s = None <-> not_an_owner s v who.
Proof.
  rewrite scanOwners_none, owner_count_nat. unfold not_an_owner.
  split; intros H j Hj; apply H; lia.
Qed.

Lemma nth_error_lookup (l : list Z) (i : nat) : nth_error l i = l !! i.
Proof. revert i. induction l as [|x l IH]; intros [|i]; simpl; auto. Qed.

(** X1: [requireOwnerIdx] returns the first owner slot that holds the
    sender: the index it yields is below the owner count, holds the sender,
    and no lower slot does; it reverts with "not an owner" exactly when no
    slot below the owner count holds the sender; and it never writes. *)
Theorem requireOwnerIdx_first_slot (tx : Tx) (v : Z) (s : storage) :
  (forall idx,
      requireOwnerIdx tx v s = Done idx s <->
      0 <= idx < getOwnerCount v s /\ owner_at s v idx = sender tx /\
      forall j, 0 <= j < idx -> owner_at s v j <> sender tx) /\
  (requireOwnerIdx tx v s = Revert "not an owner" s <->
   not_an_owner s v (sender tx)) /\
  ((exists idx, requireOwnerIdx tx v s = Done idx s) \/
   requireOwnerIdx tx v s = Revert "not an owner" s).
Proof.
  unfold requireOwnerIdx.
  pose proof (fun idx => scanOwners_least v (sender tx) (Z.to_nat (getOwnerCount v s)) 0 idx s) as HL.
  pose proof (scan_none_not_owner s v (sender tx)) as HN.
  destruct (scanOwners v (sender tx) (Z.to_nat (getOwnerCount v s)) 0 s) as [i|].
  - split; [|split].
    + intros idx. rewrite <- (owner_count_nat v s) at 1. rewrite <- HL.
      split; intros H; [injection H as -> | injection H as ->]; reflexivity.
    + split; [discriminate|]. intros H. apply HN in H. discriminate.
    + left. exists i. reflexivity.
  - split; [|split].
    + intros idx. rewrite <- (owner_count_nat v s) at 1. rewrite <- HL.
      split; discriminate.
    + split; [intros _; apply HN; reflexivity | reflexivity].
    + right. reflexivity.
Qed.

(** X2: every method that takes a vault id checks it first.  With an id
    that is not below the vault counter, [deposit], [propose], [approve],
    [executeProposal], [getVaultInfo], [getProposal] and [checkOwner] all
    revert with "vault not found" and leave the storage as it was. *)
Theorem unknown_vault_rejected (tx : Tx) (v to amount addr : Z) (s : storage) :
  vaultCount s <= v ->
  deposit tx v amount s = Revert "vault not found" s /\
  propose tx v to amount s = Revert "vault not found" s /\
  approve tx v s = Revert "vault not found" s /\
  executeProposal v s = Revert "vault not found" s /\
  getVaultInfo v s = Revert "vault not found" s /\
  getProposal v s = Revert "vault not found" s /\
  checkOwner v addr s = Revert "vault not found" s.
Proof.
  intros Hv.
  assert (G : (v >=? vaultCount s) = true) by (apply Z.geb_le; lia).
  repeat apply conj.
  - unfold deposit, bind. rewrite requireVault_eq, G. reflexivity.
  - rewrite propose_eq, G. reflexivity.
  - rewrite approve_eq, G. reflexivity.
  - rewrite executeProposal_eq, G. reflexivity.
  - unfold getVaultInfo, bind. rewrite requireVault_eq, G. reflexivity.
  - unfold getProposal, bind. rewrite requireVault_eq, G. reflexivity.
  - unfold checkOwner, bind. rewrite requireVault_eq, G. reflexivity.
Qed.

Lemma checkOwner_eq (v addr : Z) (s : storage) :
  checkOwner v addr s =
  if v >=? vaultCount s then Revert "vault not found" s
  else Done (bool_decide
               (is_Some (scanOwners v addr (Z.to_nat (getOwnerCount v s)) 0 s))) s.
Proof.
  unfold checkOwner, bind. rewrite requireVault_eq.
  destruct (v >=? vaultCount s); reflexivity.
Qed.

(** X3: only owners propose or approve.  On an existing vault, a sender
    that no owner slot holds gets "not an owner" from [propose] and from
    [approve], whatever the other arguments, and the storage is untouched;
    conversely, whenever [propose] or [approve] succeeds, the sender is
    stored in one of the vault's owner slots. *)
Theorem only_owners_propose_or_approve (ext : ExtCall -> bool) (tx : Tx)
    (v to amount : Z) (s : storage) :
  v < vaultCount s ->
  (not_an_owner s v (sender tx) ->
   propose tx v to amount s = Revert "not an owner" s /\
   approve tx v s = Revert "not an owner" s /\
   transact ext tx (Propose v to amount) s = s /\
   transact ext tx (Approve v) s = s) /\
  (forall r s',
      host ext (propose tx v to amount s) = Success r s' \/
      host ext (approve tx v s) = Success r s' ->
      exists idx, 0 <= idx < getOwnerCount v s /\ owner_at s v idx = sender tx).
Proof.
  intros Hv.
  assert (G : (v >=? vaultCount s) = false) by lia.
  split.
  - intros Hn. apply scan_none_not_owner in Hn.
    unfold transact. rewrite propose_host, approve_host, propose_eq, approve_eq, G, Hn.
    repeat apply conj; reflexivity.
  - intros r s' H. rewrite propose_host, approve_host, G in H.
    destruct (scanOwners v (sender tx) (Z.to_nat (getOwnerCount v s)) 0 s)
      as [idx|] eqn:Hidx; [|destruct H; discriminate].
    apply scanOwners_found in Hidx. rewrite owner_count_nat in Hidx.
    exists idx. exact Hidx.
Qed.

(** X4: [checkOwner] answers the question [requireOwnerIdx] asks.  On an
    existing vault it returns, without writing, [true] exactly when some
    slot below the owner count holds the address, which is exactly when
    [requireOwnerIdx] lets that address through as sender. *)
Theorem checkOwner_agrees (tx : Tx) (v : Z) (s : storage) :
  v < vaultCount s ->
  exists b,
    checkOwner v (sender tx) s = Done b s /\
    (b = true <->
     exists i, 0 <= i < getOwnerCount v s /\ owner_at s v i = sender tx) /\
    (b = true <-> exists idx, requireOwnerIdx tx v s = Done idx s) /\
    (b = false <-> requireOwnerIdx tx v s = Revert "not an owner" s).
Proof.
  intros Hv.
  assert (G : (v >=? vaultCount s) = false) by lia.
  rewrite checkOwner_eq, G. unfold requireOwnerIdx.
  pose proof (scan_none_not_owner s v (sender tx)) as HN.
  destruct (scanOwners v (sender tx) (Z.to_nat (getOwnerCount v s)) 0 s)
    as [idx|] eqn:Hidx.
  - exists true. split; [rewrite bool_decide_eq_true_2 by eauto; reflexivity|].
    apply scanOwners_found in Hidx. rewrite owner_count_nat in Hidx.
    split; [|split]; split; intros; try discriminate; eauto.
  - exists false. split.
    + rewrite bool_decide_eq_false_2; [reflexivity|]. intros [x Hx]. discriminate.
    + pose proof (proj1 HN eq_refl) as Hno.
      split; [|split]; split; intros H; try discriminate; try reflexivity.
      * destruct H as [i [Hi Ho]]. exfalso. exact (Hno i Hi Ho).
      * destruct H as [i H]. discriminate.
Qed.

(** X5: the owners given to [createVault] are the owners the contract
    recognises afterwards.  After a successful [createVault], [checkOwner]
    on the new vault answers [true] exactly for the addresses of the owner
    list, and [requireOwnerIdx] maps the owner at position [i] of the list
    to the index [i]. *)
Theorem created_owners_recognised (token oc : Z) (owners : list Z) (th : Z)
    (s : storage) :
  2 <= oc <= 10 -> 2 <= th <= oc -> 0 ∉ owners -> NoDup owners ->
  length owners = Z.to_nat oc ->
  is_u256 (vaultCount s) -> vaultCount s < MAX_U256 ->
  exists s',
    createVault token oc owners th s = Done (vaultCount s) s' /\
    (forall addr,
        checkOwner (vaultCount s) addr s' = Done (bool_decide (addr ∈ owners)) s') /\
    (forall tx (i : nat),
        owners !! i = Some (sender tx) ->
        requireOwnerIdx tx (vaultCount s) s' = Done (Z.of_nat i) s').
Proof.
  intros Hoc Hth Hz Hnd Hlen Hc Hmax.
  rewrite (createVault_ok token oc owners th s) by assumption.
  set (n := vaultCount s) in *.
  set (s' := createdState token oc th n (writeOwners n owners 0 s)).
  exists s'. split; [reflexivity|].
  assert (Hcnt : vaultCount s' = n + 1).
  { subst s'. rewrite createdState_count. apply Z.mod_small.
    unfold is_u256, MAX_U256 in *. lia. }
  assert (Hn : getOwnerCount n s' = oc).
  { rewrite getOwnerCount_stored; subst s'; unfold createdState, configuredState;
      unfold_views; reads; rewrite u32_small; unfold is_u8; lia. }
  assert (Hown : forall (j : nat) o, owners !! j = Some o -> owner_at s' n (Z.of_nat j) = o).
  { intros j o Hj. subst s'. unfold createdState, configuredState. unfold_views. reads.
    apply (writeOwners_slot n owners 0 j o). rewrite nth_error_lookup. exact Hj. }
  assert (Hslot : forall j, 0 <= j < oc -> owners !! Z.to_nat j = Some (owner_at s' n j)).
  { intros j Hj.
    destruct (lookup_lt_is_Some_2 owners (Z.to_nat j)) as [o Ho]; [lia|].
    rewrite Ho. f_equal. rewrite <- (Hown _ _ Ho). f_equal. lia. }
  split.
  - intros addr. rewrite checkOwner_eq.
    replace (n >=? vaultCount s') with false by lia.
    f_equal. apply bool_decide_ext. rewrite Hn. split.
    + intros [idx Hidx]. apply scanOwners_found in Hidx.
      destruct Hidx as [Hr <-]. apply (list_elem_of_lookup_2 owners (Z.to_nat idx)).
      apply Hslot. lia.
    + intros Hin. apply list_elem_of_lookup_1 in Hin. destruct Hin as [j Hj].
      destruct (scanOwners n addr (Z.to_nat oc) 0 s') as [idx|] eqn:E; [eauto|].
      exfalso. pose proof (lookup_lt_Some _ _ _ Hj) as Hlt.
      apply (proj1 (scanOwners_none n addr (Z.to_nat oc) 0 s') E (Z.of_nat j));
        [lia | apply Hown; exact Hj].
  - intros tx i Hi. unfold requireOwnerIdx. rewrite Hn.
    pose proof (lookup_lt_Some _ _ _ Hi) as Hlt.
    replace (scanOwners n (sender tx) (Z.to_nat oc) 0 s') with (Some (Z.of_nat i));
      [reflexivity|].
    symmetry. apply scanOwners_least. split; [lia|]. split; [apply Hown; exact Hi|].
    intros j Hj Ho.
    pose proof (Hslot j ltac:(lia)) as Hj'. rewrite Ho in Hj'.
    pose proof (NoDup_lookup owners _ _ _ Hnd Hj' Hi). lia.
Qed.

(** X6: the four view methods only read.  Whatever their arguments and
    the storage, [getVaultCount], [getVaultInfo], [getProposal] and
    [checkOwner] end without having written a slot and without having
    called another contract: they return at the storage they started from,
    or revert at it with "vault not found" or, for [getProposal], with "no
    active proposal". *)
Theorem views_only_read (v addr : Z) (s : storage) :
  getVaultCount s = Done (vaultCount s) s /\
  ((exists info, getVaultInfo v s = Done info s) \/
   getVaultInfo v s = Revert "vault not found" s) /\
  ((exists p, getProposal v s = Done p s) \/
   getProposal v s = Revert "vault not found" s \/
   getProposal v s = Revert "no active proposal" s) /\
  ((exists b, checkOwner v addr s = Done b s) \/
   checkOwner v addr s = Revert "vault not found" s).
Proof.
  repeat apply conj.
  - reflexivity.
  - unfold getVaultInfo, bind. rewrite requireVault_eq.
    destruct (v >=? vaultCount s); [right; reflexivity | left; eexists; reflexivity].
  - unfold getProposal, bind. rewrite requireVault_eq.
    destruct (v >=? vaultCount s); [right; left; reflexivity|].
    run_unfold.
    destruct (lu (fieldKey pHasProposal v) s =? 0);
      [right; right; reflexivity | left; eexists; reflexivity].
  - rewrite checkOwner_eq.
    destruct (v >=? vaultCount s); [right; reflexivity | left; eexists; reflexivity].
Qed.

(** X7: the argument checks of [propose], in the order the code makes
    them.  For an owner of an existing vault, a zero amount is refused with
    "amount is zero" whatever the recipient; a zero recipient with "zero
    recipient"; an amount above the vault's balance with "insufficient
    balance".  Each refusal leaves the storage, and with it an active
    proposal, as it was. *)
Theorem propose_argument_checks (tx : Tx) (v idx to amount : Z) (s : storage) :
  v < vaultCount s -> owner_index s tx v idx ->
  (amount = 0 -> propose tx v to amount s = Revert "amount is zero" s) /\
  (amount <> 0 -> to = 0 -> propose tx v to amount s = Revert "zero recipient" s) /\
  (amount <> 0 -> to <> 0 -> balance_of s v < amount ->
   propose tx v to amount s = Revert "insufficient balance" s).
Proof.
  intros Hv Hidx. unfold owner_index in Hidx.
  rewrite propose_eq, Hidx.
  replace (v >=? vaultCount s) with false by lia.
  repeat apply conj.
  - intros ->. reflexivity.
  - intros Ha ->. replace (amount =? 0) with false by lia. reflexivity.
  - intros Ha Ht Hb. replace (amount =? 0) with false by lia.
    replace (to =? 0) with false by lia.
    replace (amount >? balance_of s v) with true by lia. reflexivity.
Qed.

(** X8: without an active proposal there is nothing to approve, execute
    or read.  On an existing vault whose proposal flag is clear,
    [executeProposal] and [getProposal] revert with "no active proposal",
    and so does [approve] for every owner; the storage is untouched. *)
Theorem nothing_to_vote_on (tx : Tx) (v idx : Z) (s : storage) :
  v < vaultCount s -> hasProposal_of s v = 0 ->
  executeProposal v s = Revert "no active proposal" s /\
  getProposal v s = Revert "no active proposal" s /\
  (owner_index s tx v idx -> approve tx v s = Revert "no active proposal" s).
Proof.
  intros Hv Hh.
  assert (G : (v >=? vaultCount s) = false) by lia.
  repeat apply conj.
  - rewrite executeProposal_eq, G, Hh. reflexivity.
  - unfold getProposal, bind. rewrite requireVault_eq, G. run_unfold.
    unfold hasProposal_of in Hh. rewrite Hh. reflexivity.
  - intros Hidx. unfold owner_index in Hidx. rewrite approve_eq, G, Hidx, Hh.
    reflexivity.
Qed.

Lemma deposit_commit (ext : ExtCall -> bool) (tx : Tx) (v amount : Z) (s : storage) :
  v < vaultCount s -> 0 < amount -> 0 <= balance_of s v ->
  balance_of s v + amount < 2 ^ 256 ->
  ext (ExtTransferFrom (token_of s v) (sender tx) (contractAddress tx) amount) = true ->
  transact ext tx (Deposit v amount) s = depositedState v amount s /\
  balance_of (depositedState v amount s) v = balance_of s v + amount /\
  vaultCount (depositedState v amount s) = vaultCount s /\
  token_of (depositedState v amount s) v = token_of s v.
Proof.
  intros Hv Ha Hb Hsum Hext.
  assert (Hm : (balance_of s v + amount) mod 2 ^ 256 = balance_of s v + amount)
    by (apply Z.mod_small; lia).
  repeat apply conj.
  - unfold transact. rewrite deposit_host, Hext, Hm.
    replace (v >=? vaultCount s) with false by lia.
    replace (amount =? 0) with false by lia.
    replace (balance_of s v + amount <? balance_of s v) with false by lia.
    reflexivity.
  - unfold depositedState. unfold_views. reads. exact Hm.
  - unfold depositedState. unfold_views. reads. same.
  - unfold depositedState. unfold_views. reads. same.
Qed.

(** X9: deposits add up, and an empty one is refused.  In a reachable
    storage, two deposits into an existing vault, each accepted by the
    asset contract, leave the balance at the old balance plus both amounts
    as long as that sum fits 256 bits, whoever the two senders are; a
    deposit of zero reverts with "amount is zero". *)
Theorem deposits_add_up (ext : ExtCall -> bool) (tx1 tx2 : Tx) (s : storage)
    (v a b : Z) :
  reachable s -> v < vaultCount s -> 0 < a -> 0 < b ->
  balance_of s v + a + b < 2 ^ 256 ->
  ext (ExtTransferFrom (token_of s v) (sender tx1) (contractAddress tx1) a) = true ->
  ext (ExtTransferFrom (token_of s v) (sender tx2) (contractAddress tx2) b) = true ->
  balance_of (transact ext tx2 (Deposit v b) (transact ext tx1 (Deposit v a) s)) v
  = balance_of s v + a + b /\
  deposit tx1 v 0 s = Revert "amount is zero" s.
Proof.
  intros Hr Hv Ha Hb Hsum He1 He2.
  pose proof (proj1 (reachable_sound s Hr) (fieldKey pBalance v)) as Hw.
  fold (lu (fieldKey pBalance v) s) in Hw. fold (balance_of s v) in Hw.
  unfold is_u256 in Hw.
  destruct (deposit_commit ext tx1 v a s) as [E1 [B1 [C1 T1]]]; try assumption; try lia.
  split.
  - rewrite E1.
    destruct (deposit_commit ext tx2 v b (depositedState v a s)) as [E2 [B2 _]];
      rewrite ?B1, ?C1, ?T1; try assumption; try lia.
    rewrite E2, B2, B1. reflexivity.
  - unfold deposit, bind. rewrite requireVault_eq.
    replace (v >=? vaultCount s) with false by lia. reflexivity.
Qed.

(** ** One call, one vault *)

(** X10: the write footprint of the five entry points.  Whether it
    succeeds or fails, a call changes no storage slot outside the list read
    off its stores: [createVault] the counter and the owner slots,
    threshold, owner count and token of the vault it creates; [deposit] the
    balance; [propose] the proposal fields, the flags and the proposal
    counter; [approve] the flags and the approval count; [executeProposal]
    the balance, the proposal fields and the flags, each of the vault the
    call names. *)
Theorem calls_write_only_their_slots (ext : ExtCall -> bool) (tx : Tx) (c : Call)
    (s : storage) (k : list Z) :
  ~ written_by c s k ->
  getStorageAt k (transact ext tx c s) = getStorageAt k s.
Proof. apply transact_unwritten. Qed.

Lemma slot_views_same (v : Z) (s s' : storage) :
  (forall k, vault_slot_key v k -> getStorageAt k s' = getStorageAt k s) ->
  balance_of s' v = balance_of s v /\
  totalProposals_of s' v = totalProposals_of s v /\
  hasProposal_of s' v = hasProposal_of s v /\
  propTo_of s' v = propTo_of s v /\
  propAmount_of s' v = propAmount_of s v /\
  approvals_of s' v = approvals_of s v /\
  (forall i, flag_at s' v i = flag_at s v i).
Proof.
  intros E. unfold_views.
  repeat apply conj; intros; apply E;
    first [ left; eexists; split; [|reflexivity]; unfold field_tag; cbn; tauto
          | right; eexists; eexists; split; [|reflexivity]; unfold index_tag; cbn; tauto ].
Qed.

(** X11: vaults are isolated from each other.  A call, successful or
    not, changes no slot of a vault whose id differs in its 32 low bits
    from the id of the vault the call works on (the one it names, or the
    one it creates): balance, proposal, flags, owners and configuration of
    every such vault are as before. *)
Theorem calls_leave_other_vaults_alone (ext : ExtCall -> bool) (tx : Tx) (c : Call)
    (s : storage) (v : Z) :
  id32 v <> id32 (target c s) ->
  (forall k, vault_slot_key v k ->
             getStorageAt k (transact ext tx c s) = getStorageAt k s) /\
  balance_of (transact ext tx c s) v = balance_of s v /\
  totalProposals_of (transact ext tx c s) v = totalProposals_of s v /\
  hasProposal_of (transact ext tx c s) v = hasProposal_of s v /\
  propTo_of (transact ext tx c s) v = propTo_of s v /\
  propAmount_of (transact ext tx c s) v = propAmount_of s v /\
  approvals_of (transact ext tx c s) v = approvals_of s v /\
  (forall i, flag_at (transact ext tx c s) v i = flag_at s v i) /\
  owners_of (transact ext tx c s) v = owners_of s v /\
  threshold_of (transact ext tx c s) v = threshold_of s v.
Proof.
  intros Hid.
  assert (E : forall k, vault_slot_key v k ->
                getStorageAt k (transact ext tx c s) = getStorageAt k s)
    by (intros k Hk; apply (transact_isolated ext tx c s v k Hid Hk)).
  destruct (slot_views_same v s _ E) as [H1 [H2 [H3 [H4 [H5 [H6 H7]]]]]].
  destruct (config_same v s (transact ext tx c s)) as [Ht [_ [_ [_ [_ Ho]]]]];
    [intros k Hk; apply E, config_key_slot, Hk|].
  repeat apply conj; assumption.
Qed.

(** X12: what [createVault] stored for a vault is never rewritten.
    [deposit], [propose], [approve] and [executeProposal] leave threshold,
    owner count, token and owner slots of every vault as they were; so does
    [createVault] for every vault that exists, as long as the counter is
    below 2^32. *)
Theorem vault_configuration_fixed (ext : ExtCall -> bool) (tx : Tx) (c : Call)
    (s : storage) (v : Z) :
  ~ creates c \/ (0 <= v < vaultCount s /\ vaultCount s < 2 ^ 32) ->
  threshold_of (transact ext tx c s) v = threshold_of s v /\
  ownerCount_of (transact ext tx c s) v = ownerCount_of s v /\
  token_of (transact ext tx c s) v = token_of s v /\
  (forall i, owner_at (transact ext tx c s) v i = owner_at s v i) /\
  owners_of (transact ext tx c s) v = owners_of s v.
Proof.
  intros H.
  destruct (config_same v s (transact ext tx c s)) as [Ht [Hc [Hk [Ho [_ Hl]]]]].
  - intros k Hk. apply (transact_config_key ext tx c s v k); [|exact Hk].
    destruct H as [H | [Hv Hn]]; [left; exact H | right].
    apply small_ids_differ; lia.
  - repeat apply conj; assumption.
Qed.

Lemma collectOwners_length (v : Z) (n : nat) (i : Z) (s : storage) :
  length (collectOwners v n i s) = n.
Proof. revert i. induction n as [|n IH]; intros i; simpl; [|rewrite IH]; reflexivity. Qed.

(** X13: every vault is well formed.  In every reachable storage whose
    counter has not passed 2^32, every existing vault has a threshold of at
    least 2 and at most its owner count, at most 10 owners, and an owner
    list, the one [getVaultInfo] returns, of that length with no zero
    address and no address twice. *)
Theorem vaults_well_formed (s : storage) (v : Z) :
  reachable s -> vaultCount s <= 2 ^ 32 -> 0 <= v < vaultCount s ->
  2 <= threshold_of s v <= ownerCount_of s v /\
  ownerCount_of s v <= 10 /\
  getOwnerCount v s = ownerCount_of s v /\
  length (owners_of s v) = Z.to_nat (ownerCount_of s v) /\
  NoDup (owners_of s v) /\ (0 ∉ owners_of s v) /\
  exists info,
    getVaultInfo v s = Done info s /\
    vi_owners info = owners_of s v /\
    vi_threshold info = threshold_of s v /\
    vi_ownerCount info = ownerCount_of s v.
Proof.
  intros Hr Hle Hv.
  destruct (reachable_configured s Hr Hle v ltac:(lia)) as [H _].
  destruct (H ltac:(lia)) as [Ht [Hc [Hnd Hz]]].
  assert (Hn : getOwnerCount v s = ownerCount_of s v)
    by (apply getOwnerCount_stored; unfold is_u8; lia).
  repeat apply conj; try lia; try assumption.
  - unfold owners_of. rewrite collectOwners_length, Hn. reflexivity.
  - eexists. split.
    + unfold getVaultInfo, bind. rewrite requireVault_eq.
      replace (v >=? vaultCount s) with false by lia.
      run_unfold. reflexivity.
    + cbn [vi_owners vi_threshold vi_ownerCount]. repeat apply conj; reflexivity.
Qed.

(** X14: a new vault starts empty.  When [createVault] succeeds in a
    reachable storage whose counter is below 2^32, the id it returns is the
    old counter, the counter has grown by one, and the new vault has
    balance 0, no proposal made so far, no active proposal and no approval
    flag set. *)
Theorem new_vault_starts_empty (ext : ExtCall -> bool) (token oc : Z)
    (owners : list Z) (th : Z) (s : storage) (id : Z) (s' : storage) :
  reachable s -> vaultCount s < 2 ^ 32 ->
  host ext (createVault token oc owners th s) = Success id s' ->
  id = vaultCount s /\ vaultCount s' = id + 1 /\
  balance_of s' id = 0 /\ totalProposals_of s' id = 0 /\
  hasProposal_of s' id = 0 /\ approvals_of s' id = 0 /\
  (forall i, flag_at s' id i = 0) /\
  getProposal id s' = Revert "no active proposal" s'.
Proof.
  intros Hr Hlt H.
  pose proof (proj1 (reachable_sound s Hr) vaultCountKey) as Hcount.
  fold (lu vaultCountKey s) in Hcount. fold (vaultCount s) in Hcount.
  unfold is_u256 in Hcount.
  destruct (createVault_outcome token oc owners th s)
    as [[msg [s1 E]] | [written [rest [_ [_ [_ [_ [_ [_ [Hadd E]]]]]]]]]];
    rewrite E in H; [discriminate|].
  injection H as <- <-. set (n := vaultCount s) in *.
  destruct (reachable_configured s Hr ltac:(lia) n ltac:(lia)) as [_ Hb].
  specialize (Hb ltac:(lia)).
  assert (Hf : forall p, field_tag p -> getStorageAt (fieldKey p n) s = 0)
    by (intros p Hp; apply Hb; left; exists p; split; [exact Hp | reflexivity]).
  assert (Hi : forall i, getStorageAt (idxKey pApproval n i) s = 0).
  { intros i. apply Hb. right. exists pApproval, i.
    split; [unfold index_tag; cbn; tauto | reflexivity]. }
  assert (Hc : vaultCount (createdState token oc th n (writeOwners n written 0 s)) = n + 1).
  { rewrite createdState_count. apply Z.mod_small. lia. }
  assert (Hh : hasProposal_of (createdState token oc th n (writeOwners n written 0 s)) n = 0).
  { unfold createdState, configuredState. unfold_views. reads.
    apply Hf. unfold field_tag. cbn. tauto. }
  repeat apply conj; try reflexivity; try exact Hc; try exact Hh.
  - unfold createdState, configuredState. unfold_views. reads.
    apply Hf. unfold field_tag. cbn. tauto.
  - unfold createdState, configuredState. unfold_views. reads.
    apply Hf. unfold field_tag. cbn. tauto.
  - unfold createdState, configuredState. unfold_views. reads.
    apply Hf. unfold field_tag. cbn. tauto.
  - intros i. unfold createdState, configuredState. unfold_views. reads. apply Hi.
  - unfold getProposal, bind. rewrite requireVault_eq, Hc.
    replace (n >=? n + 1) with false by lia. run_unfold.
    unfold hasProposal_of in Hh. rewrite Hh. reflexivity.
Qed.

(** X15: only [createVault] moves the vault counter, and only by one.
    A call leaves the counter where it was, unless it is a [createVault]
    that succeeds: that one returns the old counter as the new id and
    stores the counter plus one. *)
Theorem counter_moves_only_by_create (ext : ExtCall -> bool) (tx : Tx) (c : Call)
    (s : storage) :
  is_u256 (vaultCount s) ->
  vaultCount (transact ext tx c s) = vaultCount s \/
  exists token oc owners th,
    c = CreateVault token oc owners th /\
    createVault token oc owners th s = Done (vaultCount s) (transact ext tx c s) /\
    vaultCount (transact ext tx c s) = vaultCount s + 1.
Proof.
  intros Hcount.
  destruct c as [token oc owners th | v amount | v to amount | v | v];
    [| left; apply transact_counter_key; intros H; exact H ..].
  destruct (createVault_outcome token oc owners th s)
    as [[msg [s1 E]] | [written [rest [_ [_ [_ [_ [_ [_ [Hadd E]]]]]]]]]].
  - left. unfold transact. rewrite E. reflexivity.
  - right. exists token, oc, owners, th. unfold transact. rewrite E. cbn [host commit].
    repeat apply conj; try reflexivity.
    rewrite createdState_count. apply no_wrap_succ; assumption.
Qed.

(** ** Custody *)

(** The key is not among those the call writes: every tag differs. *)
Ltac other_tag :=
  let W := fresh "W" in
  intros W; inversion W;
  match goal with E : _ = fieldKey _ _ |- _ => revert E; keys_ne end.

Lemma balance_change (ext : ExtCall -> bool) (tx : Tx) (c : Call) (s : storage) (v : Z) :
  word_storage s -> wf_call tx c ->
  balance_of (transact ext tx c s) v <> balance_of s v ->
  (exists v0 amount,
      c = Deposit v0 amount /\ id32 v0 = id32 v /\ 0 <= v0 < vaultCount s /\
      0 < amount /\
      ext (ExtTransferFrom (token_of s v0) (sender tx) (contractAddress tx) amount)
      = true /\
      balance_of (transact ext tx c s) v = balance_of s v + amount) \/
  (exists v0,
      c = ExecuteProposal v0 /\ id32 v0 = id32 v /\ 0 <= v0 < vaultCount s /\
      hasProposal_of s v0 <> 0 /\ threshold_of s v0 <= approvals_of s v0 /\
      ext (ExtTransfer (token_of s v0) (propTo_of s v0) (propAmount_of s v0)) = true /\
      balance_of (transact ext tx c s) v = balance_of s v - propAmount_of s v0).
Proof.
  intros Hw [_ [_ Hwf]] Hne.
  assert (Hkeep : ~ written_by c s (fieldKey pBalance v) -> False).
  { intros Hn. apply Hne. unfold balance_of, lu. apply transact_unwritten. exact Hn. }
  assert (Hid : id32 (target c s) = id32 v).
  { destruct (Z.eq_dec (id32 (target c s)) (id32 v)) as [E | E]; [exact E|].
    exfalso. apply Hne. unfold balance_of, lu.
    apply (transact_isolated ext tx c s v); [congruence|].
    left. exists pBalance. split; [unfold field_tag; cbn; tauto | reflexivity]. }
  assert (Hb : forall st, balance_of st v = balance_of st (target c s))
    by (intros st; unfold balance_of; rewrite (fieldKey_id32 pBalance _ _ Hid); reflexivity).
  pose proof (Hw (fieldKey pBalance (target c s))) as Hbal.
  fold (lu (fieldKey pBalance (target c s)) s) in Hbal.
  fold (balance_of s (target c s)) in Hbal. unfold is_u256 in Hbal.
  rewrite !Hb in Hne. rewrite !Hb.
  destruct c as [token oc owners th | v0 amount | v0 to amount | v0 | v0];
    cbn [target] in *.
  - exfalso. apply Hkeep. other_tag.
  - left. exists v0, amount. unfold transact in *. rewrite deposit_host in *.
    destruct Hwf as [Hv0 Ham]. unfold is_u256 in Hv0, Ham.
    destruct (v0 >=? vaultCount s) eqn:G; [contradiction|].
    destruct (amount =? 0) eqn:Gz; [contradiction|].
    destruct (ext _) eqn:Gx; [|contradiction].
    destruct (_ <? balance_of s v0) eqn:Go; [contradiction|].
    cbn [commit] in *.
    assert (Hnew : balance_of (depositedState v0 amount s) v0
                   = (balance_of s v0 + amount) mod 2 ^ 256)
      by (unfold depositedState; unfold_views; reads; same).
    rewrite Hnew in *.
    assert (Hfit : balance_of s v0 + amount < 2 ^ 256).
    { destruct (Z.lt_ge_cases (balance_of s v0 + amount) (2 ^ 256)) as [H | H];
        [exact H | exfalso].
      assert ((balance_of s v0 + amount) mod 2 ^ 256 = balance_of s v0 + amount - 2 ^ 256).
      { symmetry. apply (Z.mod_unique _ _ 1); lia. }
      lia. }
    rewrite Z.mod_small by lia.
    repeat apply conj; try reflexivity; try lia.
  - exfalso. apply Hkeep. other_tag.
  - exfalso. apply Hkeep. other_tag.
  - right. exists v0. unfold transact in *. rewrite executeProposal_host in *.
    unfold is_u256 in Hwf.
    destruct (v0 >=? vaultCount s) eqn:G; [contradiction|].
    destruct (hasProposal_of s v0 =? 0) eqn:Gh; [contradiction|].
    destruct (approvals_of s v0 <? threshold_of s v0) eqn:Gq; [contradiction|].
    destruct (balance_of s v0 <? propAmount_of s v0) eqn:Gb; [contradiction|].
    destruct (ext _) eqn:Gx; [|contradiction].
    cbn [commit] in *.
    destruct (executedState_fields s v0) as [_ [Hnew _]]. rewrite Hnew.
    pose proof (Hw (fieldKey pPropAmount v0)) as Hamt.
    fold (lu (fieldKey pPropAmount v0) s) in Hamt.
    fold (propAmount_of s v0) in Hamt. unfold is_u256 in Hamt.
    rewrite Z.mod_small by lia.
    repeat apply conj; try reflexivity; try lia.
Qed.

(** X16: the recorded balance moves only with the tokens.  Whenever a
    call in a reachable storage changes the balance recorded for a vault,
    the call is a [deposit] of a positive amount into that vault whose
    [transferFrom] of that amount from the sender to the contract was
    accepted, and the balance has grown by exactly that amount; or it is an
    [executeProposal] of that vault's active proposal with its quorum, whose
    transfer of the proposed amount to the proposed recipient was accepted,
    and the balance has shrunk by exactly that amount.  [createVault],
    [propose] and [approve] never change a balance. *)
Theorem balance_moves_with_tokens (ext : ExtCall -> bool) (tx : Tx) (c : Call)
    (s : storage) (v : Z) :
  reachable s -> wf_call tx c ->
  balance_of (transact ext tx c s) v <> balance_of s v ->
  (exists v0 amount,
      c = Deposit v0 amount /\ id32 v0 = id32 v /\ 0 <= v0 < vaultCount s /\
      0 < amount /\
      ext (ExtTransferFrom (token_of s v0) (sender tx) (contractAddress tx) amount)
      = true /\
      balance_of (transact ext tx c s) v = balance_of s v + amount) \/
  (exists v0,
      c = ExecuteProposal v0 /\ id32 v0 = id32 v /\ 0 <= v0 < vaultCount s /\
      hasProposal_of s v0 <> 0 /\ threshold_of s v0 <= approvals_of s v0 /\
      ext (ExtTransfer (token_of s v0) (propTo_of s v0) (propAmount_of s v0)) = true /\
      balance_of (transact ext tx c s) v = balance_of s v - propAmount_of s v0).
Proof.
  intros Hr. apply balance_change. exact (proj1 (reachable_sound s Hr)).
Qed.

(** X17: one signature moves nothing.  In a reachable storage whose
    counter has not passed 2^32, right after any successful [propose] the
    proposal counts the proposer's approval only, and [executeProposal]
    reverts with "threshold not met" and leaves the storage as it is,
    whoever calls it. *)
Theorem one_signature_moves_nothing (ext : ExtCall -> bool) (tx : Tx) (s : storage)
    (v to amount : Z) (r : bool) (s' : storage) :
  reachable s -> vaultCount s <= 2 ^ 32 -> 0 <= v ->
  host ext (propose tx v to amount s) = Success r s' ->
  approvals_of s' v = 1 /\
  executeProposal v s' = Revert "threshold not met" s' /\
  (forall ext' tx', transact ext' tx' (ExecuteProposal v) s' = s').
Proof.
  intros Hr Hle H0 H.
  assert (Hs' : s' = transact ext tx (Propose v to amount) s)
    by (unfold transact; rewrite H; reflexivity).
  rewrite propose_host in H.
  destruct (v >=? vaultCount s) eqn:Hv; [discriminate|].
  destruct (scanOwners _ _ _ _ _) as [idx|] eqn:Hidx; [|discriminate].
  destruct (amount =? 0); [discriminate|].
  destruct (to =? 0); [discriminate|].
  destruct (amount >? balance_of s v); [discriminate|].
  cbv zeta in H. destruct (_ <? totalProposals_of s v); [discriminate|].
  injection H as _ H.
  destruct (proposedState_fields s v idx to amount) as [Hc [Hh [_ [_ [Ha _]]]]].
  cbv zeta in Hc, Hh, Ha. rewrite H in Hc, Hh, Ha.
  destruct (reachable_configured s Hr Hle v ltac:(lia)) as [Hcfg _].
  destruct (Hcfg ltac:(lia)) as [Hth _].
  assert (Ht : threshold_of s' v = threshold_of s v).
  { rewrite Hs'. unfold threshold_of, lu.
    apply (transact_config_key ext tx _ s v);
      [left; intros W; exact W | unfold config_key; tauto]. }
  assert (E : executeProposal v s' = Revert "threshold not met" s').
  { rewrite executeProposal_eq, Hc, Hh, Ha, Ht.
    replace (v >=? vaultCount s) with false by lia.
    replace (1 <? threshold_of s v) with true by lia. reflexivity. }
  repeat apply conj; [exact Ha | exact E |].
  intros ext' tx'. unfold transact.
  rewrite executeProposal_host, Hc, Hh, Ha, Ht.
  replace (v >=? vaultCount s) with false by lia.
  replace (1 <? threshold_of s v) with true by lia. reflexivity.
Qed.

(** X18: spending takes two owners.  In a reachable storage whose
    counter has not passed 2^32, a call that lowers the balance of an
    existing vault is an [executeProposal] on that vault, and at that
    moment at least two of the vault's owners, and at least as many as its
    threshold, have their approval flag set. *)
Theorem spending_takes_two_owners (ext : ExtCall -> bool) (tx : Tx) (c : Call)
    (s : storage) (v : Z) :
  reachable s -> wf_call tx c -> vaultCount s <= 2 ^ 32 -> 0 <= v < vaultCount s ->
  balance_of (transact ext tx c s) v < balance_of s v ->
  c = ExecuteProposal v /\
  2 <= threshold_of s v <= approvalCount s v /\
  approvalCount s v <= ownerCount_of s v /\
  balance_of (transact ext tx c s) v = balance_of s v - propAmount_of s v.
Proof.
  intros Hr Hwf Hle Hv Hlt.
  destruct (balance_change ext tx c s v (proj1 (reachable_sound s Hr)) Hwf)
    as [[v0 [amount [_ [_ [_ [Ha [_ E]]]]]]] | [v0 [-> [Hid [Hv0 [Hh [Hq [_ E]]]]]]]];
    [lia | lia |].
  assert (v0 = v).
  { destruct (Z.eq_dec v0 v) as [Heq | Hne]; [exact Heq | exfalso].
    apply (small_ids_differ v0 v); try lia. }
  subst v0.
  destruct (reachable_configured s Hr Hle v ltac:(lia)) as [Hcfg _].
  destruct (Hcfg ltac:(lia)) as [Hth [Hoc _]].
  destruct (reachable_tallied s Hr Hle v ltac:(lia)) as [Htal _].
  destruct (Htal ltac:(lia)) as [_ [_ Hact]].
  destruct (Hact Hh) as [Happ _].
  pose proof (countFlags_bounds s v (Z.to_nat (getOwnerCount v s)) 0) as Hcf.
  rewrite getOwnerCount_stored in Hcf by (unfold is_u8; lia).
  assert (Hapc : approvalCount s v = countFlags s v (Z.to_nat (ownerCount_of s v)) 0).
  { unfold approvalCount. rewrite getOwnerCount_stored by (unfold is_u8; lia).
    reflexivity. }
  repeat apply conj; try reflexivity; lia.
Qed.

Lemma views_alias (v v0 : Z) (st : storage) :
  id32 v = id32 v0 ->
  hasProposal_of st v = hasProposal_of st v0 /\
  propTo_of st v = propTo_of st v0 /\
  propAmount_of st v = propAmount_of st v0 /\
  totalProposals_of st v = totalProposals_of st v0.
Proof.
  intros E. unfold_views.
  rewrite (fieldKey_id32 pHasProposal v v0 E), (fieldKey_id32 pPropTo v v0 E),
    (fieldKey_id32 pPropAmount v v0 E), (fieldKey_id32 pTotalProposals v v0 E).
  repeat apply conj; reflexivity.
Qed.

(** X19: the proposal counter counts the proposals.  Whenever a call in
    a reachable storage changes the proposal counter of a vault, the call is
    a [propose] on that vault by one of its owners, and the counter has
    grown by exactly one: no other entry point touches it. *)
Theorem proposal_counter_counts_proposals (ext : ExtCall -> bool) (tx : Tx) (c : Call)
    (s : storage) (v : Z) :
  reachable s ->
  totalProposals_of (transact ext tx c s) v <> totalProposals_of s v ->
  exists v0 to amount idx,
    c = Propose v0 to amount /\ id32 v0 = id32 v /\
    owner_index s tx v0 idx /\
    totalProposals_of (transact ext tx c s) v = totalProposals_of s v + 1.
Proof.
  intros Hr Hne.
  pose proof (proj1 (reachable_sound s Hr)) as Hw.
  assert (Hkeep : ~ written_by c s (fieldKey pTotalProposals v) -> False).
  { intros Hn. apply Hne. unfold totalProposals_of, lu. apply transact_unwritten.
    exact Hn. }
  assert (Hid : id32 v = id32 (target c s)).
  { destruct (Z.eq_dec (id32 v) (id32 (target c s))) as [E | E]; [exact E|].
    exfalso. apply Hne. unfold totalProposals_of, lu.
    apply (transact_isolated ext tx c s v); [exact E|].
    left. exists pTotalProposals. split; [unfold field_tag; cbn; tauto | reflexivity]. }
  destruct c as [token oc owners th | v0 amount | v0 to amount | v0 | v0];
    cbn [target] in Hid;
    [ exfalso; apply Hkeep; other_tag | exfalso; apply Hkeep; other_tag |
    | exfalso; apply Hkeep; other_tag | exfalso; apply Hkeep; other_tag ].
  assert (Ha : forall st, totalProposals_of st v = totalProposals_of st v0)
    by (intros st; apply (views_alias v v0 st Hid)).
  rewrite !Ha in *.
  pose proof (Hw (fieldKey pTotalProposals v0)) as Htot.
  fold (lu (fieldKey pTotalProposals v0) s) in Htot.
  fold (totalProposals_of s v0) in Htot.
  unfold transact in *. rewrite propose_host in *.
  destruct (v0 >=? vaultCount s); [contradiction|].
  destruct (scanOwners _ _ _ _ _) as [idx|] eqn:Hidx; [|contradiction].
  destruct (amount =? 0); [contradiction|].
  destruct (to =? 0); [contradiction|].
  destruct (amount >? balance_of s v0); [contradiction|].
  cbv zeta in *.
  destruct (_ <? totalProposals_of s v0) eqn:Hadd; [contradiction|].
  cbn [commit] in *.
  exists v0, to, amount, idx.
  destruct (proposedState_fields s v0 idx to amount) as [_ [_ [_ [_ [_ [_ [Hn _]]]]]]].
  cbv zeta in Hn. rewrite Hn.
  repeat apply conj; try reflexivity; try congruence.
  apply no_wrap_succ; assumption.
Qed.

(** ** Where the funds can go *)

Lemma recipient_kept (ext : ExtCall -> bool) (tx : Tx) (c : Call) (s : storage) :
  (forall v, hasProposal_of s v <> 0 -> propTo_of s v <> 0) ->
  forall v, hasProposal_of (transact ext tx c s) v <> 0 ->
            propTo_of (transact ext tx c s) v <> 0.
Proof.
  intros IH v Hh.
  destruct (Z.eq_dec (id32 v) (id32 (target c s))) as [Hid | Hid].
  2:{ assert (E : forall k, vault_slot_key v k ->
                    getStorageAt k (transact ext tx c s) = getStorageAt k s)
        by (intros k Hk; apply (transact_isolated ext tx c s v k Hid Hk)).
      destruct (slot_views_same v s _ E) as [_ [_ [H3 [H4 _]]]].
      rewrite H3 in Hh. rewrite H4. apply IH. exact Hh. }
  assert (Hsame : ~ written_by c s (fieldKey pHasProposal v) ->
                  ~ written_by c s (fieldKey pPropTo v) ->
                  propTo_of (transact ext tx c s) v <> 0).
  { intros W1 W2. revert Hh. unfold hasProposal_of, propTo_of, lu, la.
    rewrite !transact_unwritten by assumption. apply IH. }
  destruct c as [token oc owners th | v0 amount | v0 to amount | v0 | v0];
    cbn [target] in Hid;
    [ apply Hsame; other_tag | apply Hsame; other_tag |
    | apply Hsame; other_tag | ].
  - destruct (views_alias v v0 (transact ext tx (Propose v0 to amount) s) Hid)
      as [A1 [A2 _]].
    destruct (views_alias v v0 s Hid) as [B1 [B2 _]].
    rewrite A1 in Hh. rewrite A2. specialize (IH v0).
    unfold transact in *. rewrite propose_host in *.
    destruct (v0 >=? vaultCount s); [auto|].
    destruct (scanOwners _ _ _ _ _) as [idx|]; [|auto].
    destruct (amount =? 0); [auto|].
    destruct (to =? 0) eqn:Hto; [auto|].
    destruct (amount >? balance_of s v0); [auto|].
    cbv zeta in *. destruct (_ <? totalProposals_of s v0); [auto|].
    cbn [commit] in *.
    destruct (proposedState_fields s v0 idx to amount) as [_ [_ [Hn _]]].
    cbv zeta in Hn. rewrite Hn. lia.
  - destruct (views_alias v v0 (transact ext tx (ExecuteProposal v0) s) Hid)
      as [A1 [A2 _]].
    rewrite A1 in Hh. rewrite A2. specialize (IH v0).
    unfold transact in *. rewrite executeProposal_host in *.
    destruct (v0 >=? vaultCount s); [auto|].
    destruct (hasProposal_of s v0 =? 0); [auto|].
    destruct (approvals_of s v0 <? threshold_of s v0); [auto|].
    destruct (balance_of s v0 <? propAmount_of s v0); [auto|].
    destruct (ext _); [|auto].
    cbn [commit] in *.
    destruct (executedState_fields s v0) as [_ [_ [_ [_ [_ [Hz _]]]]]].
    contradiction.
Qed.

Lemma reachable_recipient (s : storage) :
  reachable s -> forall v, hasProposal_of s v <> 0 -> propTo_of s v <> 0.
Proof.
  induction 1 as [|s ext tx c Hr IH Hwf].
  - intros v H. exfalso. apply H. unfold hasProposal_of, lu. apply get_empty.
  - apply recipient_kept. exact IH.
Qed.

(** X20: funds never go to the zero address, and never in an empty
    transfer.  In every reachable storage, an active proposal has a
    non-zero recipient and a positive amount, and every transfer that
    [executeProposal] asks the asset contract for is one of a positive
    amount to a non-zero recipient. *)
Theorem no_payout_to_zero (s : storage) (v : Z) :
  reachable s ->
  (hasProposal_of s v <> 0 -> propTo_of s v <> 0 /\ 0 < propAmount_of s v) /\
  (forall token to amount s1 k,
      executeProposal v s = External (ExtTransfer token to amount) s1 k ->
      to <> 0 /\ 0 < amount /\ token = token_of s v).
Proof.
  intros Hr.
  assert (Hact : hasProposal_of s v <> 0 -> propTo_of s v <> 0 /\ 0 < propAmount_of s v).
  { intros Hh. split; [apply (reachable_recipient s Hr v Hh)|].
    destruct (reachable_sound s Hr) as [_ Hs].
    destruct (Hs v) as [_ Hp]. destruct (Hp Hh) as [Ha _]. lia. }
  split; [exact Hact|].
  intros token to amount s1 k H. rewrite executeProposal_eq in H.
  destruct (v >=? vaultCount s); [discriminate|].
  destruct (hasProposal_of s v =? 0) eqn:Hh; [discriminate|].
  destruct (approvals_of s v <? threshold_of s v); [discriminate|].
  destruct (balance_of s v <? propAmount_of s v); [discriminate|].
  injection H as <- <- <- _ _.
  destruct Hact as [H1 H2]; [lia|]. repeat apply conj; try assumption. reflexivity.
Qed.

(** ** The quorum can be reached *)

Lemma countFlags_short (s : storage) (v : Z) (n : nat) (i0 : Z) :
  countFlags s v n i0 < Z.of_nat n ->
  exists i, i0 <= i < i0 + Z.of_nat n /\ flag_at s v i = 0.
Proof.
  revert i0. induction n as [|n IH]; intros i0; simpl countFlags; [lia|].
  destruct (flag_at s v i0 =? 0) eqn:E.
  - intros _. exists i0. split; lia.
  - intros H. destruct (IH (i0 + 1)) as [i [Hi Hf]]; [lia|].
    exists i. split; [lia | exact Hf].
Qed.

Lemma collectOwners_lookup (v : Z) (n : nat) (i0 : Z) (s : storage) (j : nat) :
  (j < n)%nat ->
  collectOwners v n i0 s !! j = Some (owner_at s v (i0 + Z.of_nat j)).
Proof.
  revert i0 j. induction n as [|n IH]; intros i0 j Hj; [lia|].
  destruct j as [|j]; simpl.
  - unfold owner_at. do 3 f_equal. lia.
  - rewrite IH by lia. do 2 f_equal. lia.
Qed.

Lemma distinct_owner_index (s : storage) (v i c : Z) :
  NoDup (owners_of s v) -> 0 <= i < getOwnerCount v s ->
  owner_index s {| sender := owner_at s v i; contractAddress := c |} v i.
Proof.
  intros Hnd Hi. unfold owner_index. cbn [sender].
  apply scanOwners_least. rewrite owner_count_nat.
  split; [lia|]. split; [reflexivity|].
  intros j Hj E.
  assert (Hlj : owners_of s v !! Z.to_nat j = Some (owner_at s v j)).
  { unfold owners_of. rewrite collectOwners_lookup by lia. do 2 f_equal. lia. }
  assert (Hli : owners_of s v !! Z.to_nat i = Some (owner_at s v i)).
  { unfold owners_of. rewrite collectOwners_lookup by lia. do 2 f_equal. lia. }
  rewrite E in Hlj.
  pose proof (NoDup_lookup _ _ _ _ Hnd Hlj Hli). lia.
Qed.

Lemma approve_commit (ext : ExtCall -> bool) (tx : Tx) (v idx : Z) (s : storage) :
  v < vaultCount s -> owner_index s tx v idx -> hasProposal_of s v <> 0 ->
  flag_at s v idx = 0 -> 0 <= approvals_of s v < 2 ^ 256 - 1 ->
  transact ext tx (Approve v) s = approvedState v idx s /\
  approvals_of (approvedState v idx s) v = approvals_of s v + 1 /\
  vaultCount (approvedState v idx s) = vaultCount s /\
  hasProposal_of (approvedState v idx s) v = hasProposal_of s v /\
  threshold_of (approvedState v idx s) v = threshold_of s v /\
  token_of (approvedState v idx s) v = token_of s v /\
  propTo_of (approvedState v idx s) v = propTo_of s v /\
  propAmount_of (approvedState v idx s) v = propAmount_of s v /\
  balance_of (approvedState v idx s) v = balance_of s v.
Proof.
  intros Hv Hidx Hh Hf Ha. unfold owner_index in Hidx.
  assert (Hm : (approvals_of s v + 1) mod 2 ^ 256 = approvals_of s v + 1)
    by (apply Z.mod_small; lia).
  split.
  - unfold transact. rewrite approve_host, Hidx, Hf, Hm.
    replace (v >=? vaultCount s) with false by lia.
    replace (hasProposal_of s v =? 0) with false by lia.
    replace (approvals_of s v + 1 <? approvals_of s v) with false by lia.
    reflexivity.
  - unfold approvedState. unfold_views. reads.
    repeat apply conj; try same. exact Hm.
Qed.

Lemma approvals_reach (ext : ExtCall -> bool) (v : Z) (k : nat) (s : storage) :
  reachable s -> vaultCount s <= 2 ^ 32 -> 0 <= v < vaultCount s ->
  hasProposal_of s v <> 0 ->
  threshold_of s v - approvals_of s v <= Z.of_nat k ->
  exists voters : list Tx,
    let s' := transact_all ext (map (fun tx => (tx, Approve v)) voters) s in
    reachable s' /\ vaultCount s' = vaultCount s /\
    hasProposal_of s' v <> 0 /\
    threshold_of s' v <= approvals_of s' v /\
    token_of s' v = token_of s v /\ propTo_of s' v = propTo_of s v /\
    propAmount_of s' v = propAmount_of s v /\ balance_of s' v = balance_of s v /\
    Z.of_nat (length voters) = Z.max 0 (threshold_of s v - approvals_of s v).
Proof.
  revert s. induction k as [|k IH]; intros s Hr Hle Hv Hh Hk.
  - exists []. cbn. repeat apply conj; try reflexivity; try assumption; lia.
  - destruct (Z.le_gt_cases (threshold_of s v) (approvals_of s v)) as [Hq | Hq].
    { exists []. cbn. repeat apply conj; try reflexivity; try assumption; lia. }
    destruct (reachable_configured s Hr Hle v ltac:(lia)) as [Hcfg _].
    destruct (Hcfg ltac:(lia)) as [Hth [Hoc [Hnd Hz]]].
    destruct (reachable_tallied s Hr Hle v ltac:(lia)) as [Htal _].
    destruct (Htal ltac:(lia)) as [_ [_ Hact]].
    destruct (Hact Hh) as [Happ Hone].
    assert (Hn : getOwnerCount v s = ownerCount_of s v)
      by (apply getOwnerCount_stored; unfold is_u8; lia).
    destruct (countFlags_short s v (Z.to_nat (getOwnerCount v s)) 0) as [i [Hi Hf]].
    { fold (approvalCount s v). rewrite owner_count_nat. lia. }
    rewrite owner_count_nat in Hi.
    set (tx := {| sender := owner_at s v i; contractAddress := 0 |}).
    pose proof (distinct_owner_index s v i 0 Hnd ltac:(lia)) as Hidx. fold tx in Hidx.
    destruct (approve_commit ext tx v i s) as [E [Ha [Hc [Hh' [Ht [Hk' [Hp [Hm Hb]]]]]]]];
      try assumption; try lia.
    assert (Hwf : wf_call tx (Approve v)).
    { pose proof (proj1 (reachable_sound s Hr) (idxKey pOwner v i)) as Hw.
      unfold wf_call, tx, is_u256 in *. cbn [sender contractAddress].
      fold (la (idxKey pOwner v i) s) in Hw. fold (owner_at s v i) in Hw. lia. }
    pose proof (reachable_call s ext tx (Approve v) Hr Hwf) as Hr1. rewrite E in Hr1.
    destruct (IH (approvedState v i s) Hr1) as [voters H]; try lia.
    cbv zeta in H. rewrite ?Hc, ?Hh', ?Ht, ?Ha, ?Hk', ?Hp, ?Hm, ?Hb in H.
    destruct H as [G1 [G2 [G3 [G4 [G5 [G6 [G7 [G8 G9]]]]]]]].
    exists (tx :: voters). cbn [map transact_all length]. cbv zeta. rewrite E.
    repeat apply conj; try assumption. lia.
Qed.

(** X21: a proposal is never stuck short of its quorum.  In a reachable
    storage whose counter has not passed 2^32, for every existing vault
    with an active proposal there are owners whose [approve] calls, made
    one after the other, all succeed and bring the approval count to the
    threshold: exactly as many as are missing.  The proposal, the token and
    the balance are what they were, and [executeProposal] then passes all
    its checks and asks the asset contract for the proposed transfer. *)
Theorem quorum_can_be_reached (ext : ExtCall -> bool) (s : storage) (v : Z) :
  reachable s -> vaultCount s <= 2 ^ 32 -> 0 <= v < vaultCount s ->
  hasProposal_of s v <> 0 ->
  exists (voters : list Tx) (s1 : storage),
    let s' := transact_all ext (map (fun tx => (tx, Approve v)) voters) s in
    Z.of_nat (length voters) = Z.max 0 (threshold_of s v - approvals_of s v) /\
    reachable s' /\
    threshold_of s' v <= approvals_of s' v /\
    balance_of s' v = balance_of s v /\
    executeProposal v s'
    = External (ExtTransfer (token_of s v) (propTo_of s v) (propAmount_of s v))
        s1 (fun st => Done true st).
Proof.
  intros Hr Hle Hv Hh.
  destruct (approvals_reach ext v (Z.to_nat (threshold_of s v - approvals_of s v)) s)
    as [voters H]; try assumption; try lia.
  cbv zeta in H. destruct H as [G1 [G2 [G3 [G4 [G5 [G6 [G7 [G8 G9]]]]]]]].
  exists voters. eexists. cbv zeta.
  repeat apply conj; try assumption.
  rewrite executeProposal_eq, G2, G5, G6, G7.
  destruct (reachable_sound _ G1) as [_ Hs].
  destruct (Hs v) as [_ Hp]. destruct (Hp G3) as [Hamt _].
  rewrite G7 in Hamt.
  replace (v >=? vaultCount s) with false by lia.
  replace (hasProposal_of _ v =? 0) with false by lia.
  replace (approvals_of _ v <? threshold_of _ v) with false by lia.
  replace (balance_of _ v <? propAmount_of s v) with false by lia.
  reflexivity.
Qed.

(** ** The properties above on the sample deployment *)

Lemma vault_funded_reachable : reachable vault_funded.
Proof.
  unfold vault_funded. cbn [transact_all].
  repeat (apply reachable_call; [|wf_now]). apply reachable_deploy.
Qed.

Lemma dave_is_no_owner : not_an_owner carol_proposed 0 dave.
Proof. apply scan_none_not_owner. vm_compute. reflexivity. Qed.

Lemma unknown_vault_rejected_witness :
  vaultCount carol_proposed <= 7 /\
  deposit (tx_of alice) 7 5 carol_proposed = Revert "vault not found" carol_proposed /\
  checkOwner 7 alice carol_proposed = Revert "vault not found" carol_proposed.
Proof.
  assert (Hv : vaultCount carol_proposed <= 7) by (vm_compute; discriminate).
  split; [exact Hv|].
  destruct (unknown_vault_rejected (tx_of alice) 7 dave 5 alice carol_proposed Hv)
    as [H1 [_ [_ [_ [_ [_ H7]]]]]].
  split; assumption.
Defined.

Lemma only_owners_propose_or_approve_witness :
  0 < vaultCount carol_proposed /\ not_an_owner carol_proposed 0 dave /\
  propose (tx_of dave) 0 erin 5 carol_proposed = Revert "not an owner" carol_proposed /\
  approve (tx_of dave) 0 carol_proposed = Revert "not an owner" carol_proposed.
Proof.
  assert (Hv : 0 < vaultCount carol_proposed) by (vm_compute; reflexivity).
  split; [exact Hv|]. split; [exact dave_is_no_owner|].
  destruct (only_owners_propose_or_approve accept (tx_of dave) 0 erin 5 carol_proposed Hv)
    as [Hno _].
  destruct (Hno dave_is_no_owner) as [H1 [H2 _]]. split; assumption.
Defined.

Lemma checkOwner_agrees_witness :
  0 < vaultCount carol_proposed /\
  exists b,
    checkOwner 0 bob carol_proposed = Done b carol_proposed /\
    (b = true <-> exists idx, requireOwnerIdx (tx_of bob) 0 carol_proposed
                              = Done idx carol_proposed).
Proof.
  assert (Hv : 0 < vaultCount carol_proposed) by (vm_compute; reflexivity).
  split; [exact Hv|].
  destruct (checkOwner_agrees (tx_of bob) 0 carol_proposed Hv) as [b [H1 [_ [H2 _]]]].
  exists b. split; assumption.
Defined.

Lemma created_owners_recognised_witness :
  exists s',
    createVault asset 3 [alice; bob; carol] 2 ∅ = Done 0 s' /\
    checkOwner 0 bob s' = Done true s' /\
    checkOwner 0 dave s' = Done false s' /\
    requireOwnerIdx (tx_of carol) 0 s' = Done 2 s'.
Proof.
  destruct (created_owners_recognised asset 3 [alice; bob; carol] 2 ∅)
    as [s' [H1 [H2 H3]]].
  - lia.
  - lia.
  - intros Hin. apply list_elem_of_In in Hin. simpl in Hin.
    destruct Hin as [H|[H|[H|[]]]]; discriminate H.
  - repeat (apply NoDup_cons; split;
            [intros Hin; apply list_elem_of_In in Hin; simpl in Hin;
             repeat (destruct Hin as [Hin|Hin]; [discriminate Hin|]); exact Hin|]).
    apply NoDup_nil_2.
  - reflexivity.
  - vm_compute. split; [discriminate | reflexivity].
  - vm_compute. reflexivity.
  - assert (E0 : vaultCount ∅ = 0) by (vm_compute; reflexivity).
    rewrite E0 in H1, H2, H3.
    exists s'. split; [exact H1|]. split; [|split].
    + rewrite (H2 bob). f_equal.
    + rewrite (H2 dave). f_equal.
    + apply (H3 (tx_of carol) 2%nat). reflexivity.
Defined.

Lemma propose_argument_checks_witness :
  0 < vaultCount carol_proposed /\ owner_index carol_proposed (tx_of alice) 0 0 /\
  propose (tx_of alice) 0 erin 0 carol_proposed
  = Revert "amount is zero" carol_proposed /\
  propose (tx_of alice) 0 0 5 carol_proposed
  = Revert "zero recipient" carol_proposed /\
  propose (tx_of alice) 0 erin 1001 carol_proposed
  = Revert "insufficient balance" carol_proposed.
Proof.
  assert (Hv : 0 < vaultCount carol_proposed) by (vm_compute; reflexivity).
  assert (Hi : owner_index carol_proposed (tx_of alice) 0 0) by (vm_compute; reflexivity).
  split; [exact Hv|]. split; [exact Hi|]. split; [|split].
  - destruct (propose_argument_checks (tx_of alice) 0 0 erin 0 carol_proposed Hv Hi)
      as [H _]. apply H. reflexivity.
  - destruct (propose_argument_checks (tx_of alice) 0 0 0 5 carol_proposed Hv Hi)
      as [_ [H _]]. apply H; [discriminate | reflexivity].
  - destruct (propose_argument_checks (tx_of alice) 0 0 erin 1001 carol_proposed Hv Hi)
      as [_ [_ H]]. apply H; [discriminate | unfold erin; discriminate |].
    vm_compute. reflexivity.
Defined.

Lemma nothing_to_vote_on_witness :
  0 < vaultCount vault_funded /\ hasProposal_of vault_funded 0 = 0 /\
  owner_index vault_funded (tx_of bob) 0 1 /\
  executeProposal 0 vault_funded = Revert "no active proposal" vault_funded /\
  approve (tx_of bob) 0 vault_funded = Revert "no active proposal" vault_funded.
Proof.
  assert (Hv : 0 < vaultCount vault_funded) by (vm_compute; reflexivity).
  assert (Hh : hasProposal_of vault_funded 0 = 0) by (vm_compute; reflexivity).
  assert (Hi : owner_index vault_funded (tx_of bob) 0 1) by (vm_compute; reflexivity).
  split; [exact Hv|]. split; [exact Hh|]. split; [exact Hi|].
  destruct (nothing_to_vote_on (tx_of bob) 0 1 vault_funded Hv Hh) as [H1 [_ H3]].
  split; [exact H1 | exact (H3 Hi)].
Defined.

Lemma deposits_add_up_witness :
  reachable carol_proposed /\ 0 < vaultCount carol_proposed /\
  balance_of carol_proposed 0 + 5 + 7 < 2 ^ 256 /\
  balance_of (transact accept (tx_of erin) (Deposit 0 7)
                (transact accept (tx_of dave) (Deposit 0 5) carol_proposed)) 0
  = balance_of carol_proposed 0 + 5 + 7.
Proof.
  assert (Hr : reachable carol_proposed) by exact carol_proposed_reachable.
  assert (Hv : 0 < vaultCount carol_proposed) by (vm_compute; reflexivity).
  assert (Hs : balance_of carol_proposed 0 + 5 + 7 < 2 ^ 256) by (vm_compute; reflexivity).
  split; [exact Hr|]. split; [exact Hv|]. split; [exact Hs|].
  destruct (deposits_add_up accept (tx_of dave) (tx_of erin) carol_proposed 0 5 7
              Hr Hv ltac:(lia) ltac:(lia) Hs eq_refl eq_refl) as [H _].
  exact H.
Defined.

Lemma approve_spares_the_balance (v : Z) (s : storage) :
  ~ written_by (Approve v) s (fieldKey pBalance v).
Proof. other_tag. Qed.

Lemma calls_write_only_their_slots_witness :
  ~ written_by (Approve 0) carol_proposed (fieldKey pBalance 0) /\
  getStorageAt (fieldKey pBalance 0) quorum_reached
  = getStorageAt (fieldKey pBalance 0) carol_proposed.
Proof.
  split; [exact (approve_spares_the_balance 0 carol_proposed)|].
  exact (calls_write_only_their_slots accept (tx_of bob) (Approve 0) carol_proposed
           (fieldKey pBalance 0) (approve_spares_the_balance 0 carol_proposed)).
Defined.

Lemma calls_leave_other_vaults_alone_witness :
  id32 1 <> id32 (target (Deposit 0 5) carol_proposed) /\
  balance_of (transact accept (tx_of dave) (Deposit 0 5) carol_proposed) 1
  = balance_of carol_proposed 1.
Proof.
  assert (Hid : id32 1 <> id32 (target (Deposit 0 5) carol_proposed))
    by (vm_compute; discriminate).
  split; [exact Hid|].
  destruct (calls_leave_other_vaults_alone accept (tx_of dave) (Deposit 0 5)
              carol_proposed 1 Hid) as [_ [H _]].
  exact H.
Defined.

Lemma vault_configuration_fixed_witness :
  (0 <= 0 < vaultCount carol_proposed /\ vaultCount carol_proposed < 2 ^ 32) /\
  threshold_of (transact accept (tx_of alice) another_vault carol_proposed) 0
  = threshold_of carol_proposed 0 /\
  owners_of (transact accept (tx_of alice) another_vault carol_proposed) 0
  = owners_of carol_proposed 0.
Proof.
  assert (Hv : 0 <= 0 < vaultCount carol_proposed /\ vaultCount carol_proposed < 2 ^ 32)
    by (vm_compute; repeat split; try discriminate; reflexivity).
  split; [exact Hv|].
  destruct (vault_configuration_fixed accept (tx_of alice) another_vault
              carol_proposed 0 (or_intror Hv)) as [H1 [_ [_ [_ H5]]]].
  split; assumption.
Defined.

Lemma vaults_well_formed_witness :
  reachable quorum_reached /\ vaultCount quorum_reached <= 2 ^ 32 /\
  0 <= 0 < vaultCount quorum_reached /\
  2 <= threshold_of quorum_reached 0 <= ownerCount_of quorum_reached 0 /\
  NoDup (owners_of quorum_reached 0).
Proof.
  assert (Hr : reachable quorum_reached) by exact quorum_reached_reachable.
  assert (Hle : vaultCount quorum_reached <= 2 ^ 32) by (vm_compute; discriminate).
  assert (Hv : 0 <= 0 < vaultCount quorum_reached)
    by (vm_compute; split; [discriminate | reflexivity]).
  split; [exact Hr|]. split; [exact Hle|]. split; [exact Hv|].
  destruct (vaults_well_formed quorum_reached 0 Hr Hle Hv) as [H1 [_ [_ [_ [H5 _]]]]].
  split; assumption.
Defined.

Lemma new_vault_starts_empty_witness :
  reachable carol_proposed /\ vaultCount carol_proposed < 2 ^ 32 /\
  host accept (createVault asset 2 [alice; bob] 2 carol_proposed)
  = Success 1 (transact accept (tx_of alice) another_vault carol_proposed) /\
  balance_of (transact accept (tx_of alice) another_vault carol_proposed) 1 = 0 /\
  hasProposal_of (transact accept (tx_of alice) another_vault carol_proposed) 1 = 0.
Proof.
  assert (Hr : reachable carol_proposed) by exact carol_proposed_reachable.
  assert (Hlt : vaultCount carol_proposed < 2 ^ 32) by (vm_compute; reflexivity).
  assert (Hrun : host accept (createVault asset 2 [alice; bob] 2 carol_proposed)
                 = Success 1 (transact accept (tx_of alice) another_vault carol_proposed))
    by (vm_compute; reflexivity).
  split; [exact Hr|]. split; [exact Hlt|]. split; [exact Hrun|].
  destruct (new_vault_starts_empty accept asset 2 [alice; bob] 2 carol_proposed 1 _
              Hr Hlt Hrun) as [_ [_ [H3 [_ [H5 _]]]]].
  split; assumption.
Defined.

Lemma counter_moves_only_by_create_witness :
  is_u256 (vaultCount carol_proposed) /\
  (vaultCount (transact accept (tx_of alice) another_vault carol_proposed)
   = vaultCount carol_proposed \/
   vaultCount (transact accept (tx_of alice) another_vault carol_proposed)
   = vaultCount carol_proposed + 1).
Proof.
  assert (Hc : is_u256 (vaultCount carol_proposed))
    by (vm_compute; split; [discriminate | reflexivity]).
  split; [exact Hc|].
  destruct (counter_moves_only_by_create accept (tx_of alice) another_vault
              carol_proposed Hc) as [H | [token [oc [owners [th [_ [_ H]]]]]]];
    [left | right]; exact H.
Defined.

Lemma balance_moves_with_tokens_witness :
  reachable quorum_reached /\ wf_call (tx_of dave) (ExecuteProposal 0) /\
  balance_of (transact accept (tx_of dave) (ExecuteProposal 0) quorum_reached) 0
  <> balance_of quorum_reached 0 /\
  accept (ExtTransfer (token_of quorum_reached 0) (propTo_of quorum_reached 0)
            (propAmount_of quorum_reached 0)) = true /\
  balance_of (transact accept (tx_of dave) (ExecuteProposal 0) quorum_reached) 0
  = balance_of quorum_reached 0 - propAmount_of quorum_reached 0.
Proof.
  assert (Hr : reachable quorum_reached) by exact quorum_reached_reachable.
  assert (Hwf : wf_call (tx_of dave) (ExecuteProposal 0)) by wf_now.
  assert (Hne : balance_of (transact accept (tx_of dave) (ExecuteProposal 0)
                              quorum_reached) 0
                <> balance_of quorum_reached 0) by (vm_compute; discriminate).
  split; [exact Hr|]. split; [exact Hwf|]. split; [exact Hne|].
  destruct (balance_moves_with_tokens accept (tx_of dave) (ExecuteProposal 0)
              quorum_reached 0 Hr Hwf Hne)
    as [[v0 [amount [E _]]] | [v0 [E [_ [_ [_ [_ [Hx H]]]]]]]].
  - discriminate E.
  - injection E as <-. split; [exact Hx | exact H].
Defined.

Lemma one_signature_moves_nothing_witness :
  reachable vault_funded /\ vaultCount vault_funded <= 2 ^ 32 /\
  host accept (propose (tx_of carol) 0 dave 200 vault_funded)
  = Success true carol_proposed /\
  executeProposal 0 carol_proposed = Revert "threshold not met" carol_proposed.
Proof.
  assert (Hr : reachable vault_funded) by exact vault_funded_reachable.
  assert (Hle : vaultCount vault_funded <= 2 ^ 32) by (vm_compute; discriminate).
  assert (Hrun : host accept (propose (tx_of carol) 0 dave 200 vault_funded)
                 = Success true carol_proposed) by (vm_compute; reflexivity).
  split; [exact Hr|]. split; [exact Hle|]. split; [exact Hrun|].
  destruct (one_signature_moves_nothing accept (tx_of carol) vault_funded 0 dave 200
              true carol_proposed Hr Hle ltac:(lia) Hrun) as [_ [H _]].
  exact H.
Defined.

Lemma spending_takes_two_owners_witness :
  reachable quorum_reached /\ wf_call (tx_of dave) (ExecuteProposal 0) /\
  vaultCount quorum_reached <= 2 ^ 32 /\ 0 <= 0 < vaultCount quorum_reached /\
  balance_of (transact accept (tx_of dave) (ExecuteProposal 0) quorum_reached) 0
  < balance_of quorum_reached 0 /\
  2 <= threshold_of quorum_reached 0 <= approvalCount quorum_reached 0.
Proof.
  assert (Hr : reachable quorum_reached) by exact quorum_reached_reachable.
  assert (Hwf : wf_call (tx_of dave) (ExecuteProposal 0)) by wf_now.
  assert (Hle : vaultCount quorum_reached <= 2 ^ 32) by (vm_compute; discriminate).
  assert (Hv : 0 <= 0 < vaultCount quorum_reached)
    by (vm_compute; split; [discriminate | reflexivity]).
  assert (Hlt : balance_of (transact accept (tx_of dave) (ExecuteProposal 0)
                              quorum_reached) 0
                < balance_of quorum_reached 0) by (vm_compute; reflexivity).
  split; [exact Hr|]. split; [exact Hwf|]. split; [exact Hle|]. split; [exact Hv|].
  split; [exact Hlt|].
  destruct (spending_takes_two_owners accept (tx_of dave) (ExecuteProposal 0)
              quorum_reached 0 Hr Hwf Hle Hv Hlt) as [_ [H _]].
  exact H.
Defined.

Lemma proposal_counter_counts_proposals_witness :
  reachable quorum_reached /\
  totalProposals_of (transact accept (tx_of alice) (Propose 0 erin 50) quorum_reached) 0
  <> totalProposals_of quorum_reached 0 /\
  totalProposals_of (transact accept (tx_of alice) (Propose 0 erin 50) quorum_reached) 0
  = totalProposals_of quorum_reached 0 + 1.
Proof.
  assert (Hr : reachable quorum_reached) by exact quorum_reached_reachable.
  assert (Hne : totalProposals_of
                  (transact accept (tx_of alice) (Propose 0 erin 50) quorum_reached) 0
                <> totalProposals_of quorum_reached 0) by (vm_compute; discriminate).
  split; [exact Hr|]. split; [exact Hne|].
  destruct (proposal_counter_counts_proposals accept (tx_of alice) (Propose 0 erin 50)
              quorum_reached 0 Hr Hne) as [v0 [to [amount [idx [_ [_ [_ H]]]]]]].
  exact H.
Defined.

Lemma no_payout_to_zero_witness :
  reachable quorum_reached /\ hasProposal_of quorum_reached 0 <> 0 /\
  propTo_of quorum_reached 0 <> 0 /\ 0 < propAmount_of quorum_reached 0.
Proof.
  assert (Hr : reachable quorum_reached) by exact quorum_reached_reachable.
  assert (Hp : hasProposal_of quorum_reached 0 <> 0) by (vm_compute; discriminate).
  split; [exact Hr|]. split; [exact Hp|].
  destruct (no_payout_to_zero quorum_reached 0 Hr) as [H _].
  exact (H Hp).
Defined.

Lemma quorum_can_be_reached_witness :
  reachable carol_proposed /\ vaultCount carol_proposed <= 2 ^ 32 /\
  0 <= 0 < vaultCount carol_proposed /\ hasProposal_of carol_proposed 0 <> 0 /\
  exists voters : list Tx,
    Z.of_nat (length voters) = 1 /\
    threshold_of (transact_all accept (map (fun tx => (tx, Approve 0)) voters)
                    carol_proposed) 0
    <= approvals_of (transact_all accept (map (fun tx => (tx, Approve 0)) voters)
                       carol_proposed) 0.
Proof.
  assert (Hr : reachable carol_proposed) by exact carol_proposed_reachable.
  assert (Hle : vaultCount carol_proposed <= 2 ^ 32) by (vm_compute; discriminate).
  assert (Hv : 0 <= 0 < vaultCount carol_proposed)
    by (vm_compute; split; [discriminate | reflexivity]).
  assert (Hp : hasProposal_of carol_proposed 0 <> 0) by (vm_compute; discriminate).
  split; [exact Hr|]. split; [exact Hle|]. split; [exact Hv|]. split; [exact Hp|].
  destruct (quorum_can_be_reached accept carol_proposed 0 Hr Hle Hv Hp)
    as [voters [s1 [H1 [_ [H3 _]]]]].
  exists voters. split; [|exact H3].
  rewrite H1. vm_compute. reflexivity.
Defined.
